(** * deck: the Dispatcher event bus, its WebSocket transport and the
      Component base class, embedded from the JavaScript sources

    Sources embedded here:
      - src/js/core/Dispatcher.js   (DispatcherEvent, Dispatcher)
      - src/js/core/Deck.js         (the state proxy, getState, setState,
                                     autoload, getInstance)
      - src/js/components/Component.js
                                    (#getConfigAttribute, initState,
                                     #initStorage, updateState, setTimeout,
                                     dispatchEvent)
      - src/js/util/Queue.js        (Queue)

    Conventions of the embedding.
      - A JavaScript string is a [string]; its characters are 8-bit code
        units (the Latin-1 range of UTF-16).  The built-in string methods
        the sources call (trim, split, includes, toLowerCase, replace,
        isNaN, parseFloat, RegExp.test) are defined on [list ascii].
      - A plain object used as a dictionary is given by its own
        properties, and a name it does not own is looked up on
        Object.prototype (module JsObject): the event table, the object
        the attribute parser fills and the payload of 'stateChange' are
        read and written this way.  The deck's state object and its
        registry of instances are given by what is read back under each
        key.
      - A function value is modelled by its identity (a [nat]); calling a
        callback is recorded as an effect and the callback's own body is
        outside the model (it neither throws nor touches the dispatcher).
      - Host objects (WebSocket, document, timers, DOM elements) are
        modelled by the fields the sources read and by a trace of the calls
        the sources make on them. *)

From Stdlib Require Import Ascii String ZArith QArith Bool Lia.
From Stdlib Require DecimalString DecimalNat.
From stdpp Require Import gmap strings list.

Local Open Scope string_scope.
Local Open Scope list_scope.

(** ** JavaScript string built-ins on lists of characters *)
Module JsString.

Definition chars (s : string) : list ascii := list_ascii_of_string s.
Definition str (l : list ascii) : string := string_of_list_ascii l.

Definition ch_eqb (a b : ascii) : bool := Ascii.eqb a b.
Arguments ch_eqb : simpl never.

Definition comma : ascii := ","%char.

(** [s.includes(c)] for a one-character needle. *)
Definition includes (c : ascii) (l : list ascii) : bool := existsb (ch_eqb c) l.

(** [s.split(c)] for a one-character separator: always at least one piece. *)
Fixpoint split (c : ascii) (l : list ascii) : list (list ascii) :=
  match l with
  | [] => [[]]
  | x :: l' =>
      if ch_eqb x c then [] :: split c l'
      else match split c l' with
           | p :: ps => (x :: p) :: ps
           | [] => [[x]]
           end
  end.

(** [pieces.join(sep)]. *)
Fixpoint join (sep : list ascii) (ps : list (list ascii)) : list ascii :=
  match ps with
  | [] => []
  | [p] => p
  | p :: ps' => p ++ sep ++ join sep ps'
  end.

(** White space as String.prototype.trim sees it, within the 8-bit range:
    TAB, LF, VT, FF, CR, SPACE and NBSP. *)
Definition is_white_space (c : ascii) : bool :=
  let n := nat_of_ascii c in
  (Nat.leb 9 n && Nat.leb n 13) || Nat.eqb n 32 || Nat.eqb n 160.

Fixpoint trim_start (l : list ascii) : list ascii :=
  match l with
  | c :: l' => if is_white_space c then trim_start l' else l
  | [] => []
  end.

Definition trim_end (l : list ascii) : list ascii := rev (trim_start (rev l)).

Definition trim (l : list ascii) : list ascii := trim_end (trim_start l).

(** [toLowerCase] on the 8-bit range: A-Z, and the Latin-1 capitals
    U+00C0..U+00DE except the multiplication sign U+00D7. *)
Definition lower_char (c : ascii) : ascii :=
  let n := nat_of_ascii c in
  if (Nat.leb 65 n && Nat.leb n 90)
     || (Nat.leb 192 n && Nat.leb n 222 && negb (Nat.eqb n 215))
  then ascii_of_nat (n + 32) else c.

Definition toLowerCase (l : list ascii) : list ascii := map lower_char l.

End JsString.

(** ** Plain objects and what they inherit from Object.prototype *)
Module JsObject.

(** The property names of Object.prototype (ECMAScript, Annex B
    included).  Each holds a function, except [__proto__]: an accessor
    whose getter hands back the prototype object and whose setter replaces
    the prototype when it is given an object and does nothing otherwise. *)
Definition Object_prototype : list string :=
  ["constructor"; "__defineGetter__"; "__defineSetter__"; "hasOwnProperty";
   "__lookupGetter__"; "__lookupSetter__"; "isPrototypeOf";
   "propertyIsEnumerable"; "toString"; "valueOf"; "__proto__";
   "toLocaleString"].

(** [name in {}]: the name is found on the prototype of a plain object. *)
Definition inherited (name : string) : bool :=
  existsb (String.eqb name) Object_prototype.

(** [object[key] = value] on a plain object with the own properties [o],
    none of them named [__proto__]: the own property is created or
    overwritten; for the key [__proto__] the inherited setter runs instead
    and no own property is stored. *)
Definition assign {V : Type} (key : string) (value : V) (o : gmap string V)
  : gmap string V :=
  if String.eqb key "__proto__" then o else <[key := value]> o.

End JsObject.

(** ** src/js/core/Dispatcher.js: the event table *)
Module EventTable.
Import JsString.
Export JsObject.

(** A registered function, by identity ([indexOf] compares with ===). *)
Definition Callback := nat.

(** class DispatcherEvent *)
Record DispatcherEvent := {
  eventName : string;
  callbacks : list Callback
}.

(** [new DispatcherEvent(eventName)] *)
Definition new_DispatcherEvent (name : string) : DispatcherEvent :=
  {| eventName := name; callbacks := [] |}.

(** [registerCallback(callback)]: [this.callbacks.push(callback)] *)
Definition registerCallback (cb : Callback) (e : DispatcherEvent) : DispatcherEvent :=
  {| eventName := eventName e; callbacks := callbacks e ++ [cb] |}.

(** [Array.prototype.indexOf]: the first index holding [cb], or -1. *)
Fixpoint indexOf (cb : Callback) (l : list Callback) : Z :=
  match l with
  | [] => (-1)%Z
  | x :: l' =>
      if Nat.eqb x cb then 0%Z
      else let i := indexOf cb l' in
           if (i <? 0)%Z then (-1)%Z else (i + 1)%Z
  end.

(** [array.splice(index, 1)] for an index in range. *)
Fixpoint splice1 (index : nat) (l : list Callback) : list Callback :=
  match l, index with
  | [], _ => []
  | _ :: l', O => l'
  | x :: l', S i => x :: splice1 i l'
  end.

(** [unregisterCallback(callback)] *)
Definition unregisterCallback (cb : Callback) (e : DispatcherEvent) : DispatcherEvent :=
  let index := indexOf cb (callbacks e) in
  if (index >? -1)%Z
  then {| eventName := eventName e; callbacks := splice1 (Z.to_nat index) (callbacks e) |}
  else e.

(** [this.events]: the own properties of the table object, oldest first.
    Object.entries lists integer-like keys before the others; the only
    traversal of the table ([emit]) keeps the keys that contain an asterisk,
    none of which is integer-like, so insertion order is the order it sees. *)
Definition Events := list (string * DispatcherEvent).

(** The own property [name] of the table. *)
Fixpoint get (name : string) (t : Events) : option DispatcherEvent :=
  match t with
  | [] => None
  | (n, e) :: t' => if String.eqb n name then Some e else get name t'
  end.

(** [events[name] = e]: overwrite in place, or add a new last property. *)
Fixpoint set (name : string) (e : DispatcherEvent) (t : Events) : Events :=
  match t with
  | [] => [(name, e)]
  | (n, e0) :: t' =>
      if String.eqb n name then (n, e) :: t' else (n, e0) :: set name e t'
  end.

(** [delete events[name]] *)
Fixpoint del (name : string) (t : Events) : Events :=
  match t with
  | [] => []
  | (n, e) :: t' => if String.eqb n name then del name t' else (n, e) :: del name t'
  end.

(** What [events[name]] evaluates to: the table is a plain object, so a
    name it does not own is looked up on Object.prototype. *)
Inductive Member :=
| Own (event : DispatcherEvent)
| Inherited
| Undefined.

(** [events[name]] *)
Definition member (name : string) (t : Events) : Member :=
  match get name t with
  | Some event => Own event
  | None => if inherited name then Inherited else Undefined
  end.

(** [name in events] *)
Definition hasEvent (name : string) (t : Events) : bool :=
  match member name t with
  | Own _ | Inherited => true
  | Undefined => false
  end.

(** How a call that updates the table ends: with the table it leaves, or
    with a TypeError raised before anything was changed. *)
Inductive Ended :=
| Leaves (t : Events)
| ThrowsTypeError (message : string).

(** [on(eventName, callback)].  An inherited member is truthy, so no entry
    is created for it, and it has no [registerCallback]. *)
Definition on (name : string) (cb : Callback) (t : Events) : Ended :=
  match member name t with
  | Own event => Leaves (set name (registerCallback cb event) t)
  | Undefined => Leaves (set name (registerCallback cb (new_DispatcherEvent name)) t)
  | Inherited => ThrowsTypeError "event.registerCallback is not a function"
  end.

(** [off(eventName, callback)].  An inherited member is truthy and has no
    [callbacks], so [event.callbacks.indexOf] throws. *)
Definition off (name : string) (cb : Callback) (t : Events) : Ended :=
  match member name t with
  | Own event =>
      if (indexOf cb (callbacks event) >? -1)%Z then
        let event' := unregisterCallback cb event in
        if Nat.eqb (length (callbacks event')) 0
        then Leaves (del name t)
        else Leaves (set name event' t)
      else Leaves t
  | Undefined => Leaves t
  | Inherited => ThrowsTypeError "event.callbacks is undefined"
  end.

(** One call after another: an exception ends the sequence. *)
Definition and_then (r : Ended) (f : Events -> Ended) : Ended :=
  match r with
  | Leaves t => f t
  | ThrowsTypeError message => ThrowsTypeError message
  end.

(** The same call [n] times in a row. *)
Fixpoint times (n : nat) (f : Events -> Ended) (t : Events) : Ended :=
  match n with
  | O => Leaves t
  | S n' => and_then (f t) (times n' f)
  end.

(** The callbacks of the table's own entry [name], oldest first. *)
Definition registered (name : string) (t : Events) : list Callback :=
  match get name t with
  | Some e => callbacks e
  | None => []
  end.

(** [destroyEvent(eventName)]: [delete] removes an own property and is
    silent about any other name. *)
Definition destroyEvent (name : string) (t : Events) : Events := del name t.

(** *** The wildcard test of [emit] *)

(** The character class of
    [/([.*+?^=!:${}()|\[\]\/\\])/g]. *)
Definition is_meta (c : ascii) : bool :=
  existsb (ch_eqb c) (chars ".*+?^=!:${}()|[]/\").

(** [escaped]: [replace] with "\\$1" puts a backslash before each match. *)
Definition escaped (l : list ascii) : list ascii :=
  flat_map (fun c => if is_meta c then ["\"%char; c] else [c]) l.

(** ["^" + name.split("*").map(escaped).join(".*") + "$"] *)
Definition pattern_source (name : list ascii) : list ascii :=
  "^"%char :: join (chars ".*") (map escaped (split "*"%char name)) ++ ["$"%char].

(** The fragment of regular expressions that [pattern_source] produces:
    a literal character, or [.*]. *)
Inductive Atom :=
| Lit (c : ascii)
| AnyRun.

(** SyntaxCharacter of the ECMAScript pattern grammar. *)
Definition is_syntax_char (c : ascii) : bool :=
  existsb (ch_eqb c) (chars "^$\.*+?()[]{}|").

(** Reads the pattern after its leading [^] up to the closing [$].  A
    backslash before a character of [is_meta] is an identity escape; a
    construct outside the fragment gives [None]. *)
Fixpoint parse_pattern (l : list ascii) : option (list Atom) :=
  match l with
  | [] => None
  | c :: l' =>
      if ch_eqb c "$"%char then
        match l' with [] => Some [] | _ => None end
      else if ch_eqb c "\"%char then
        match l' with
        | x :: l'' =>
            if is_meta x then option_map (cons (Lit x)) (parse_pattern l'') else None
        | [] => None
        end
      else if ch_eqb c "."%char then
        match l' with
        | x :: l'' =>
            if ch_eqb x "*"%char then option_map (cons AnyRun) (parse_pattern l'') else None
        | [] => None
        end
      else if is_syntax_char c then None
      else option_map (cons (Lit c)) (parse_pattern l')
  end.

(** Line terminators, which [.] does not match (no [s] flag): LF and CR in
    the 8-bit range. *)
Definition is_line_terminator (c : ascii) : bool :=
  ch_eqb c (ascii_of_nat 10) || ch_eqb c (ascii_of_nat 13).

(** Anchored match of the whole input against a sequence of atoms. *)
Fixpoint matches (atoms : list Atom) (s : list ascii) : bool :=
  match atoms with
  | [] => match s with [] => true | _ :: _ => false end
  | Lit c :: rest =>
      match s with
      | x :: s' => ch_eqb c x && matches rest s'
      | [] => false
      end
  | AnyRun :: rest =>
      (fix run (s : list ascii) : bool :=
         matches rest s
         || match s with
            | x :: s' => negb (is_line_terminator x) && run s'
            | [] => false
            end) s
  end.

(** [new RegExp(source).test(s)] for a source of the fragment. *)
Definition RegExp_test (source s : list ascii) : bool :=
  match source with
  | c :: body =>
      if ch_eqb c "^"%char then
        match parse_pattern body with
        | Some atoms => matches atoms s
        | None => false
        end
      else false
  | [] => false
  end.

(** The condition of the wildcard loop of [emit]. *)
Definition wildcard_test (name eventName : string) : bool :=
  includes "*"%char (chars name)
  && RegExp_test (pattern_source (chars name)) (chars eventName).

End EventTable.

(** ** src/js/core/Dispatcher.js: class Dispatcher *)
Module Dispatcher.
Import JsString.
Export EventTable.

(** The part of a WebSocket the sources read. *)
Record WebSocket := { readyState : Z }.

(** The constants of the WebSocket interface; [socket.OPEN] is the same on
    every instance. *)
Definition CONNECTING : Z := 0.
Definition OPEN : Z := 1.
Definition CLOSING : Z := 2.
Definition CLOSED : Z := 3.

(** The host's [socket.close()]: nothing on a closing or closed socket,
    otherwise the closing handshake starts. *)
Definition WebSocket_close (w : WebSocket) : WebSocket :=
  if (readyState w =? CLOSING)%Z || (readyState w =? CLOSED)%Z then w
  else {| readyState := CLOSING |}.

(** [this.state] *)
Record State := {
  reconnection : bool;
  reconnectionDelay : Z
}.

(** The own data properties of an instance, as the constructor assigns
    them; [wss] is [None] for null. *)
Record Dispatcher := {
  host : string;
  wss : option WebSocket;
  state : State;
  events : Events
}.

(** Whether the handle holds a socket whose readyState is OPEN. *)
Definition is_open (d : Dispatcher) : Prop :=
  exists w, wss d = Some w /\ readyState w = OPEN.

(** A value read off the instance by property name. *)
Inductive Property :=
| PUndefined
| PString (s : string)
| PSocket (w : option WebSocket)
| PState (s : State)
| PEvents (t : Events).

(** [this[name]] for a data property: the four names the constructor
    assigns, and undefined for every other name. *)
Definition this_property (d : Dispatcher) (name : string) : Property :=
  if String.eqb name "host" then PString (host d)
  else if String.eqb name "wss" then PSocket (wss d)
  else if String.eqb name "state" then PState (state d)
  else if String.eqb name "events" then PEvents (events d)
  else PUndefined.

(** What an exception carries. *)
Inductive Error :=
| TypeError (message : string).

(** How a method call ends. *)
Inductive Completion :=
| Normal
| Throw (e : Error).

Section WithData.

(** The values passed to callbacks and to [send]; [None] is undefined. *)
Context {Data : Type}.

(** The host's [JSON.stringify] on these values. *)
Variable JSON_stringify : Data -> string.

(** The calls a method makes on the host, in order. *)
Inductive Effect :=
| NewWebSocket (url : string)
| DocumentEvent (type : string)
| Call (cb : Callback) (data : option Data)
| SetTimeout_connect (delay : Property)
| SocketClose
| SocketSend (text : string).

(** The instance after a method call, what the call did, how it ended. *)
Record Outcome := {
  after : Dispatcher;
  trace : list Effect;
  completion : Completion
}.

Definition with_wss (w : option WebSocket) (d : Dispatcher) : Dispatcher :=
  {| host := host d; wss := w; state := state d; events := events d |}.

Definition with_reconnection (b : bool) (d : Dispatcher) : Dispatcher :=
  {| host := host d; wss := wss d;
     state := {| reconnection := b; reconnectionDelay := reconnectionDelay (state d) |};
     events := events d |}.

Definition with_events (t : Events) (d : Dispatcher) : Dispatcher :=
  {| host := host d; wss := wss d; state := state d; events := t |}.

(** [constructor()], on a page served from [location_host]. *)
Definition constructor (location_host : string) : Dispatcher :=
  {| host := location_host;
     wss := None;
     state := {| reconnection := true; reconnectionDelay := 1000 |};
     events := [] |}.

(** [DispatcherEvent.fire(data)] *)
Definition fire (e : DispatcherEvent) (data : option Data) : list Effect :=
  map (fun callback => Call callback data) (callbacks e).

(** The wildcard loop of [emit], lines 170 to 178. *)
Definition emit_wildcards (t : Events) (name : string) (data : option Data)
  : list Effect :=
  flat_map (fun entry : string * DispatcherEvent =>
              if wildcard_test (fst entry) name then fire (snd entry) data else [])
           t.

(** [emit(eventName, data)]: the calls it makes.  An inherited member is
    truthy and has no [fire]: the call throws before the wildcard loop and
    nothing has been called. *)
Definition emit (t : Events) (name : string) (data : option Data) : list Effect :=
  match member name t with
  | Own event => fire event data ++ emit_wildcards t name data
  | Undefined => emit_wildcards t name data
  | Inherited => []
  end.

(** [emit(eventName, data)]: how it ends. *)
Definition emit_completion (t : Events) (name : string) : Completion :=
  match member name t with
  | Own _ | Undefined => Normal
  | Inherited => Throw (TypeError "event.fire is not a function")
  end.

(** [connect()]: a new socket, in the connecting state, replaces the handle. *)
Definition connect (d : Dispatcher) : Outcome :=
  {| after := with_wss (Some {| readyState := CONNECTING |}) d;
     trace := [NewWebSocket ("wss://" +:+ host d)];
     completion := Normal |}.

(** [this.wss.onopen].  The names the three handlers emit are not names
    of Object.prototype, so their [emit] calls return. *)
Definition onopen (d : Dispatcher) : Outcome :=
  {| after := d;
     trace := DocumentEvent "deck.wss.open" :: emit (events d) "wssConnect" None;
     completion := Normal |}.

(** [this.wss.onclose] *)
Definition onclose (d : Dispatcher) : Outcome :=
  let emitted := DocumentEvent "deck.wss.close" :: emit (events d) "wssDisconnect" None in
  if reconnection (state d)
     && match wss d with
        | None => true
        | Some w => (readyState w =? 3)%Z
        end
  then {| after := d;
          trace := emitted ++ [SetTimeout_connect (this_property d "reconnectionDelay")];
          completion := Normal |}
  else {| after := d; trace := emitted; completion := Normal |}.

(** [this.wss.onerror] *)
Definition onerror (d : Dispatcher) : Outcome :=
  let emitted := DocumentEvent "deck.wss.error" :: emit (events d) "wssDisconnect" None in
  match wss d with
  | Some w =>
      {| after := with_wss (Some (WebSocket_close w)) d;
         trace := emitted ++ [SocketClose];
         completion := Normal |}
  | None =>
      {| after := d; trace := emitted;
         completion := Throw (TypeError "this.wss is null") |}
  end.

(** [this.wss?.readyState] and [this.wss?.OPEN]: undefined ([None]) on a
    null handle. *)
Definition optional_readyState (w : option WebSocket) : option Z :=
  option_map readyState w.

Definition optional_OPEN (w : option WebSocket) : option Z :=
  option_map (fun _ => OPEN) w.

(** [a === b] on a number or undefined. *)
Definition strict_equal (a b : option Z) : bool :=
  match a, b with
  | None, None => true
  | Some x, Some y => (x =? y)%Z
  | _, _ => false
  end.

(** [disconnect()] *)
Definition disconnect (d : Dispatcher) : Outcome :=
  if strict_equal (optional_readyState (wss d)) (optional_OPEN (wss d)) then
    let d1 := with_reconnection false d in
    match wss d1 with
    | Some w =>
        {| after := with_wss (Some (WebSocket_close w)) d1;
           trace := [SocketClose];
           completion := Normal |}
    | None =>
        {| after := d1; trace := [];
           completion := Throw (TypeError "this.wss is null") |}
    end
  else {| after := d; trace := []; completion := Normal |}.

(** [send(data)] *)
Definition send (data : Data) (d : Dispatcher) : Outcome :=
  match wss d with
  | Some w =>
      if (readyState w =? OPEN)%Z
      then {| after := d; trace := [SocketSend (JSON_stringify data)]; completion := Normal |}
      else {| after := d; trace := []; completion := Normal |}
  | None => {| after := d; trace := []; completion := Normal |}
  end.

(** The host closes the connection of the current socket: its readyState
    becomes CLOSED, then its close event runs [onclose]. *)
Definition host_closes (d : Dispatcher) : Outcome :=
  onclose (with_wss (option_map (fun _ => {| readyState := CLOSED |}) (wss d)) d).

End WithData.

End Dispatcher.

(** ** Number conversions of the host: [isNaN] on a string, [parseFloat] *)
Module JsNumber.
Import JsString.

(** A Number value.  A finite value is the exact decimal value read off the
    text; rounding to a double is outside the model. *)
Inductive JSNumber :=
| NaN
| Infinity (negative : bool)
| Finite (q : Q).

Definition in_range (lo hi : nat) (c : ascii) : bool :=
  Nat.leb lo (nat_of_ascii c) && Nat.leb (nat_of_ascii c) hi.

Definition is_digit : ascii -> bool := in_range 48 57.
Definition is_octal_digit : ascii -> bool := in_range 48 55.
Definition is_binary_digit : ascii -> bool := in_range 48 49.
Definition is_hex_digit (c : ascii) : bool :=
  is_digit c || in_range 97 102 c || in_range 65 70 c.

Definition is_sign (c : ascii) : bool := ch_eqb c "+"%char || ch_eqb c "-"%char.
Definition is_exponent_mark (c : ascii) : bool := ch_eqb c "e"%char || ch_eqb c "E"%char.

Definition is_empty (l : list ascii) : bool :=
  match l with [] => true | _ :: _ => false end.

(** The longest prefix of characters satisfying [p], and the rest. *)
Fixpoint span (p : ascii -> bool) (l : list ascii) : list ascii * list ascii :=
  match l with
  | c :: l' =>
      if p c then (c :: fst (span p l'), snd (span p l')) else ([], l)
  | [] => ([], [])
  end.

Fixpoint starts_with (prefix l : list ascii) : bool :=
  match prefix, l with
  | [], _ => true
  | p :: prefix', c :: l' => ch_eqb p c && starts_with prefix' l'
  | _ :: _, [] => false
  end.

Definition strip_sign (l : list ascii) : list ascii :=
  match l with
  | c :: l' => if is_sign c then l' else l
  | [] => []
  end.

Definition is_negative (l : list ascii) : bool :=
  match l with
  | c :: _ => ch_eqb c "-"%char
  | [] => false
  end.

(** One or more characters, all satisfying [p]. *)
Definition some_all (p : ascii -> bool) (l : list ascii) : bool :=
  negb (is_empty l) && forallb p l.

(** ExponentPart: [e] or [E], an optional sign, decimal digits. *)
Definition is_exponent_part (l : list ascii) : bool :=
  match l with
  | c :: l' => is_exponent_mark c && some_all is_digit (strip_sign l')
  | [] => false
  end.

Definition optional_exponent (l : list ascii) : bool :=
  is_empty l || is_exponent_part l.

(** StrUnsignedDecimalLiteral *)
Definition is_unsigned_decimal (l : list ascii) : bool :=
  if String.eqb (str l) "Infinity" then true
  else
    let ip := fst (span is_digit l) in
    match snd (span is_digit l) with
    | [] => negb (is_empty ip)
    | c :: r =>
        if ch_eqb c "."%char then
          let fp := fst (span is_digit r) in
          (negb (is_empty ip) || negb (is_empty fp))
          && optional_exponent (snd (span is_digit r))
        else negb (is_empty ip) && is_exponent_part (c :: r)
    end.

(** NonDecimalIntegerLiteral: 0x, 0o or 0b (either case) and digits. *)
Definition is_non_decimal_integer (l : list ascii) : bool :=
  match l with
  | z :: k :: ds =>
      ch_eqb z "0"%char
      && (((ch_eqb k "x"%char || ch_eqb k "X"%char) && some_all is_hex_digit ds)
          || ((ch_eqb k "o"%char || ch_eqb k "O"%char) && some_all is_octal_digit ds)
          || ((ch_eqb k "b"%char || ch_eqb k "B"%char) && some_all is_binary_digit ds))
  | _ => false
  end.

(** Whether StringToNumber gives a number other than NaN: the text, with
    white space trimmed, is empty or a StrNumericLiteral. *)
Definition string_is_numeric (l : list ascii) : bool :=
  let t := trim l in
  is_empty t || is_non_decimal_integer t || is_unsigned_decimal (strip_sign t).

(** [isNaN(s)] for a string [s]. *)
Definition isNaN (l : list ascii) : bool := negb (string_is_numeric l).

Definition digit_value (c : ascii) : Z := Z.of_nat (nat_of_ascii c) - 48.

Definition digits_value (ds : list ascii) : Z :=
  fold_left (fun acc c => 10 * acc + digit_value c)%Z ds 0%Z.

(** The value of the longest ExponentPart that starts [l], 0 without one. *)
Definition exponent_value (l : list ascii) : Z :=
  match l with
  | c :: l' =>
      if is_exponent_mark c then
        let ds := fst (span is_digit (strip_sign l')) in
        if is_empty ds then 0%Z
        else if is_negative l' then (- digits_value ds)%Z else digits_value ds
      else 0%Z
  | [] => 0%Z
  end.

(** [mantissa * 10^exponent], in lowest terms. *)
Definition decimal (mantissa exponent : Z) : Q :=
  Qred (inject_Z mantissa * Qpower (inject_Z 10) exponent).

(** [parseFloat(s)]: leading white space is skipped, then the longest prefix
    that is a StrDecimalLiteral is read; NaN when there is none.  The
    result is the exact decimal value of that prefix: the rounding to a
    double, and with it the overflow to Infinity, is not modelled. *)
Definition parseFloat (l : list ascii) : JSNumber :=
  let t := trim_start l in
  let u := strip_sign t in
  if starts_with (chars "Infinity") u then Infinity (is_negative t)
  else
    let ip := fst (span is_digit u) in
    let r := snd (span is_digit u) in
    let has_point := match r with c :: _ => ch_eqb c "."%char | [] => false end in
    let fp := if has_point then fst (span is_digit (tl r)) else [] in
    let r' := if has_point then snd (span is_digit (tl r)) else r in
    if is_empty ip && is_empty fp then NaN
    else
      let m := digits_value (ip ++ fp) in
      Finite (decimal (if is_negative t then (- m)%Z else m)
                      (exponent_value r' - Z.of_nat (length fp))).

End JsNumber.

(** ** src/js/components/Component.js and the state store of src/js/core/Deck.js *)
Module Component.
Import JsString JsNumber JsObject.

(** The values an attribute string or a state object holds. *)
Inductive Value :=
| VBoolean (b : bool)
| VNumber (n : JSNumber)
| VString (s : string)
| VArray (items : list string).

(** What a method hands back or throws. *)
Inductive Result (A : Type) :=
| Ok (a : A)
| Raise (e : Dispatcher.Error).
Arguments Ok {A} a.
Arguments Raise {A} e.

(** The part of a DOM element the constructor reads and writes; attribute
    names are kept as given. *)
Record Element := {
  attributes : list (string * string);
  classList : list string
}.

Definition hasAttribute (el : Element) (attr : string) : bool :=
  existsb (fun p => String.eqb (fst p) attr) (attributes el).

Fixpoint lookup_attribute (attr : string) (l : list (string * string)) : option string :=
  match l with
  | [] => None
  | (a, v) :: l' => if String.eqb a attr then Some v else lookup_attribute attr l'
  end.

Definition getAttribute (el : Element) (attr : string) : option string :=
  lookup_attribute attr (attributes el).

(** The branches of the value coercion, lines 77 to 89, in source order. *)
Definition coerce (value : list ascii) : Value :=
  if includes ","%char value then
    VArray (map (fun item => str (trim item)) (split ","%char value))
  else if String.eqb (str (toLowerCase value)) "true" then VBoolean true
  else if String.eqb (str (toLowerCase value)) "false" then VBoolean false
  else if negb (isNaN value) then VNumber (parseFloat value)
  else VString (str value).

(** The body of the reducer, lines 71 to 93: [pair.split(':').map(trim)] is
    destructured into [key] and [value]; with a single piece [value] is
    undefined and [value.includes] throws.  [acc] is a plain object: the
    assignment [acc[key] = ...] stores nothing under the key [__proto__]. *)
Definition reducer (acc : gmap string Value) (kv : list ascii)
  : Result (gmap string Value) :=
  match map trim (split ":"%char kv) with
  | key :: value :: _ => Ok (assign (str key) (coerce value) acc)
  | _ => Raise (Dispatcher.TypeError "value is undefined")
  end.

(** [pairs.reduce(reducer, acc)]; an exception ends the reduction. *)
Fixpoint reduce (pairs : list (list ascii)) (acc : gmap string Value)
  : Result (gmap string Value) :=
  match pairs with
  | [] => Ok acc
  | kv :: pairs' =>
      match reducer acc kv with
      | Ok acc' => reduce pairs' acc'
      | Raise e => Raise e
      end
  end.

(** [value.split(';').map(pair => pair.trim()).filter(Boolean)] *)
Definition keyValuePairs (value : list ascii) : list (list ascii) :=
  List.filter (fun kv => negb (is_empty kv)) (map trim (split ";"%char value)).

(** Lines 68 to 93 on the trimmed attribute value. *)
Definition parse_config (value : string) : Result (gmap string Value) :=
  reduce (keyValuePairs (chars value)) ∅.

(** What [#getConfigAttribute] returns: undefined, false, or the parsed
    object, given by its own properties. *)
Inductive Returned :=
| RUndefined
| RFalse
| RObject (o : gmap string Value).

(** [#getConfigAttribute()] for an instance with the given [element] and
    [name]: what it returns or throws.  (Before returning the object it
    also merges it onto the instance, line 95; the methods embedded below
    are stated for instances whose fields hold what the record says.) *)
Definition getConfigAttribute (element : option Element) (name : string)
  : Result Returned :=
  match element with
  | None => Ok RUndefined
  | Some el =>
      match List.find (hasAttribute el) [name; "data-" +:+ name] with
      | None => Ok RFalse
      | Some attribute =>
          if String.eqb attribute "" then Ok RFalse
          else
            match getAttribute el attribute with
            | None => Ok RUndefined
            | Some v =>
                let value := trim (chars v) in
                if is_empty value then Ok RUndefined
                else
                  match parse_config (str value) with
                  | Ok o => Ok (RObject o)
                  | Raise e => Raise e
                  end
            end
      end
  end.

(** The deck a component refers to: the page has one. *)
Inductive DeckRef := TheDeck.

(** The own properties of an instance that the embedded methods read;
    [config] holds further properties merged in from the attribute
    string. *)
Record Component := {
  name : string;
  element : option Element;
  deck : option DeckRef;
  stateKey : string;
  state : gmap string Value;
  config : gmap string Value
}.

(** *** State: Deck.getState, Deck.setState, initState, updateState *)

(** [{ ...a, ...b }] *)
Definition spread (a b : gmap string Value) : gmap string Value := b ∪ a.

(** The deck's state object (the proxy target), the instances of the page,
    and the instances whose [initState] listener is registered on
    'stateChange', oldest first. *)
Record World := {
  deck_state : gmap string (gmap string Value);
  instances : list Component;
  stateChange_listeners : list nat
}.

(** What a state operation calls, in order. *)
Inductive StateEffect :=
| EmitStateChange (payload : gmap string (gmap string Value))
| OnStateChange (instance : nat) (state : gmap string Value).

Definition with_state (s : gmap string Value) (c : Component) : Component :=
  {| name := name c; element := element c; deck := deck c;
     stateKey := stateKey c; state := s; config := config c |}.

(** [Deck.getState(key)]: the value stored under the key.  (Before
    anything is stored under it, a key that names a member of
    Object.prototype reads as that member, which [initState] spreads to
    the same empty state as it does undefined.) *)
Definition getState (key : string) (w : World) : option (gmap string Value) :=
  deck_state w !! key.

(** What [newState[key]] evaluates to for the emitted [{ [key]: value }],
    a plain object with that one own property: the value, an inherited
    member of Object.prototype, or undefined. *)
Inductive Slice :=
| OwnSlice (slice : gmap string Value)
| InheritedMember
| NoSlice.

Definition read_slice (newState : gmap string (gmap string Value)) (key : string)
  : Slice :=
  match newState !! key with
  | Some slice => OwnSlice slice
  | None => if inherited key then InheritedMember else NoSlice
  end.

(** The listener [initState] registers, lines 126 to 131, run on instance
    [i] with the emitted [newState].  An inherited member is not undefined,
    so the branch runs; spreading it adds nothing, since it has no own
    enumerable property. *)
Definition stateChange_listener (newState : gmap string (gmap string Value))
    (i : nat) (acc : list Component * list StateEffect)
  : list Component * list StateEffect :=
  match fst acc !! i with
  | Some c =>
      match read_slice newState (stateKey c) with
      | OwnSlice slice =>
          let s := spread (state c) slice in
          (<[i := with_state s c]> (fst acc), snd acc ++ [OnStateChange i s])
      | InheritedMember =>
          let s := spread (state c) ∅ in
          (<[i := with_state s c]> (fst acc), snd acc ++ [OnStateChange i s])
      | NoSlice => acc
      end
  | None => acc
  end.

(** [Deck.setState(key, value)]: the proxy's set trap stores the value and
    emits 'stateChange' with [{ [key]: value }].  (Under the key
    [__proto__] the value becomes the prototype of the state object, and
    it is what is read back under that key.) *)
Definition setState (key : string) (value : gmap string Value) (w : World)
  : World * list StateEffect :=
  let payload : gmap string (gmap string Value) := {[ key := value ]} in
  let r := fold_left (fun acc i => stateChange_listener payload i acc)
                     (stateChange_listeners w)
                     (instances w, [EmitStateChange payload]) in
  ({| deck_state := <[key := value]> (deck_state w);
      instances := fst r;
      stateChange_listeners := stateChange_listeners w |},
   snd r).

(** [initState()] on instance [i] *)
Definition initState (i : nat) (w : World) : World :=
  match instances w !! i with
  | Some c =>
      match deck c with
      | Some _ =>
          let initialState := default ∅ (getState (stateKey c) w) in
          {| deck_state := deck_state w;
             instances := <[i := with_state (spread ∅ initialState) c]> (instances w);
             stateChange_listeners := stateChange_listeners w ++ [i] |}
      | None => w
      end
  | None => w
  end.

(** [updateState(newState)] on instance [i] *)
Definition updateState (i : nat) (newState : gmap string Value) (w : World)
  : World * list StateEffect :=
  match instances w !! i with
  | Some c =>
      let updatedState := spread (state c) newState in
      match deck c with
      | Some _ => setState (stateKey c) updatedState w
      | None => (w, [])
      end
  | None => (w, [])
  end.

(** *** dispatchEvent *)

(** What the host reports of [context.dispatchEvent(event)]: the value it
    returned, and [event.defaultPrevented] afterwards. *)
Record HostDispatch := {
  dispatched : bool;
  defaultPrevented : bool
}.

Section WithDetail.

(** The detail values; [None] is null. *)
Context {Detail : Type}.

Inductive EventEffect :=
| DomDispatch (target : Element) (eventName : string) (isCustom : bool)
              (detail : option Detail)
| DeckEmit (eventName : string) (detail : option Detail).

(** [dispatchEvent(eventName, detail, isCustom, context)]: the returned
    value ([None] for undefined) and the calls made. *)
Definition dispatchEvent (c : Component) (eventName : string)
    (detail : option Detail) (isCustom : bool) (context : option Element)
    (host : HostDispatch) : option bool * list EventEffect :=
  match context with
  | None => (None, [])
  | Some target =>
      let fired := DomDispatch target eventName isCustom
                     (if isCustom then detail else None) in
      if negb (dispatched host) || defaultPrevented host then (Some false, [fired])
      else
        match deck c with
        | Some _ => (Some true, [fired; DeckEmit eventName detail])
        | None => (Some true, [fired])
        end
  end.

End WithDetail.

End Component.

(** ** Registration histories, for stating the order in which [emit] calls *)
Module History.
Import JsString.
Export Dispatcher.

(** A history of [on(name, callback)] calls, oldest first. *)
Definition Registrations := list (string * Callback).

(** The calls of a history on a new instance, one after the other. *)
Definition register_all (regs : Registrations) : Ended :=
  fold_left (fun r reg => and_then r (on (fst reg) (snd reg))) regs (Leaves []).

(** No name of the history is a name of Object.prototype. *)
Definition ordinary_names (regs : Registrations) : bool :=
  forallb (fun reg => negb (inherited (fst reg))) regs.

(** The callbacks a history registers under exactly [name], in
    registration order. *)
Definition under (name : string) (regs : Registrations) : list Callback :=
  map snd (List.filter (fun r => String.eqb (fst r) name) regs).

Definition add_name (n : string) (seen : list string) : list string :=
  if existsb (String.eqb n) seen then seen else seen ++ [n].

(** The distinct names of a history, in the order of their first
    registration. *)
Definition names (regs : Registrations) : list string :=
  fold_left (fun seen r => add_name (fst r) seen) regs [].

(** The wildcard callbacks for [name] taken pattern by pattern: the matching
    patterns in the order of their first registration, and under each
    pattern its callbacks in registration order. *)
Definition wildcards_by_pattern (name : string) (regs : Registrations) : list Callback :=
  flat_map (fun p => under p regs)
           (List.filter (fun p => wildcard_test p name) (names regs)).

(** The wildcard callbacks for [name] in plain registration order. *)
Definition wildcards_in_registration_order (name : string) (regs : Registrations)
  : list Callback :=
  map snd (List.filter (fun r => wildcard_test (fst r) name) regs).

(** The entry a history leaves under the name [p]. *)
Definition entry_of (regs : Registrations) (p : string) : string * DispatcherEvent :=
  (p, {| eventName := p; callbacks := under p regs |}).

(** Calling each of [cbs] in turn with [data]. *)
Definition calls {Data : Type} (data : option Data) (cbs : list Callback)
  : list (@Effect Data) :=
  map (fun cb => Call cb data) cbs.

(** The atoms a registered name stands for: [.*] for an asterisk, the
    character itself otherwise. *)
Definition atoms_of (name : list ascii) : list Atom :=
  map (fun c => if ch_eqb c "*"%char then AnyRun else Lit c) name.

(** What [escaped] and [join] put in the pattern for one character of the
    name. *)
Definition source_of_char (c : ascii) : list ascii :=
  if ch_eqb c "*"%char then chars ".*"
  else if is_meta c then ["\"%char; c] else [c].

(** What [*] stands for in a registered name: [Glob pattern s] when [s] is
    the pattern with each asterisk replaced by a run of characters that
    holds no line terminator. *)
Inductive Glob : list ascii -> list ascii -> Prop :=
| Glob_nil : Glob [] []
| Glob_char c p s : c <> "*"%char -> Glob p s -> Glob (c :: p) (c :: s)
| Glob_star_end p s : Glob p s -> Glob ("*"%char :: p) s
| Glob_star_more c p s :
    is_line_terminator c = false ->
    Glob ("*"%char :: p) s -> Glob ("*"%char :: p) (c :: s).

End History.

(** ** The attribute mini-format as the specification words it *)
Module ConfigSpec.
Import JsString JsNumber Component.

(** The coercion in the order of the specification's sentence: a boolean
    for true or false in any case, a number for a numeric text, an array of
    trimmed strings for a text with a comma, else the string. *)
Definition coerce_as_specified (value : list ascii) : Value :=
  if String.eqb (str (toLowerCase value)) "true" then VBoolean true
  else if String.eqb (str (toLowerCase value)) "false" then VBoolean false
  else if string_is_numeric value then VNumber (parseFloat value)
  else if includes ","%char value then
    VArray (map (fun item => str (trim item)) (split ","%char value))
  else VString (str value).

(** [key:value] *)
Definition pair_text (kv : string * string) : list ascii :=
  chars (fst kv) ++ ":"%char :: chars (snd kv).

(** The pairs joined with semicolons. *)
Definition attribute_text (kvs : list (string * string)) : string :=
  str (join [";"%char] (map pair_text kvs)).

(** A key or a value that holds neither separator. *)
Definition plain (s : string) : bool :=
  negb (includes ";"%char (chars s)) && negb (includes ":"%char (chars s)).

Definition well_formed (kvs : list (string * string)) : bool :=
  forallb (fun kv => plain (fst kv) && plain (snd kv)) kvs.

(** The object the specification describes for the pairs: each trimmed key
    bound to the coerced trimmed value, a later pair overriding an earlier
    one with the same key. *)
Definition object_of (kvs : list (string * string)) : gmap string Value :=
  fold_left (fun acc kv =>
               <[str (trim (chars (fst kv))) :=
                   coerce_as_specified (trim (chars (snd kv)))]> acc)
            kvs ∅.

(** The key a pair is stored under. *)
Definition key_of (kv : list ascii) : string :=
  str (trim (hd [] (split ":"%char kv))).

(** The text a pair's value is read from: what stands between its first
    and its second colon, trimmed. *)
Definition value_of (kv : list ascii) : list ascii :=
  trim (nth 1 (split ":"%char kv) []).

(** Every pair of the attribute value that is not blank holds a colon. *)
Definition all_pairs_have_colon (value : string) : bool :=
  forallb (includes ":"%char) (keyValuePairs (chars value)).

(** No key of the pairs is [__proto__] once trimmed. *)
Definition no_proto_key (kvs : list (string * string)) : bool :=
  forallb (fun kv => negb (String.eqb (str (trim (chars (fst kv)))) "__proto__")) kvs.

(** The value the last pair with the key [k] gives, if any pair has that
    key. *)
Fixpoint stored (k : string) (pairs : list (list ascii)) : option Value :=
  match pairs with
  | [] => None
  | kv :: rest =>
      match stored k rest with
      | Some v => Some v
      | None => if String.eqb (key_of kv) k then Some (coerce (value_of kv)) else None
      end
  end.

End ConfigSpec.

(** ** Reference functions for the event table *)
Module EventTableSpec.
Import JsString.
Export EventTable.

(** A list without the first occurrence of [cb]. *)
Fixpoint remove_first (cb : Callback) (l : list Callback) : list Callback :=
  match l with
  | [] => []
  | x :: l' => if Nat.eqb x cb then l' else x :: remove_first cb l'
  end.

(** No character of the text is a line terminator. *)
Definition on_one_line (l : list ascii) : bool :=
  forallb (fun c => negb (is_line_terminator c)) l.

End EventTableSpec.

(** ** src/js/core/Dispatcher.js: the remaining connection methods, and runs
       of calls and socket events *)
Module Connection.
Import JsString.
Export Dispatcher.

(** What a call hands back, or the exception it ends with. *)
Inductive Returned (A : Type) :=
| Returns (a : A)
| Throws (e : Error).
Arguments Returns {A} a.
Arguments Throws {A} e.

(** [isConnected()]: [return this.wss.readyState !== this.wss.OPEN] *)
Definition isConnected (d : Dispatcher) : Returned bool :=
  match wss d with
  | Some w => Returns (negb (readyState w =? OPEN)%Z)
  | None => Throws (TypeError "this.wss is null")
  end.

(** [wssState()]: [return this.wss.readyState] *)
Definition wssState (d : Dispatcher) : Returned Z :=
  match wss d with
  | Some w => Returns (readyState w)
  | None => Throws (TypeError "this.wss is null")
  end.

Section WithData.
Context {Data : Type}.
Variable JSON_stringify : Data -> string.

(** The host opens the connection of the current socket: its readyState
    becomes OPEN, then its open event runs [onopen]. *)
Definition host_opens (d : Dispatcher) : @Outcome Data :=
  onopen (with_wss (option_map (fun _ => {| readyState := OPEN |}) (wss d)) d).

(** What can happen to an instance: a call of a public method, the timer
    of [onclose] running its [connect], or an event of the current
    socket. *)
Inductive Action :=
| CallConnect
| CallDisconnect
| CallSend (data : Data)
| TimerFires
| SocketOpens
| SocketErrors
| SocketCloses.

Definition step (a : Action) (d : Dispatcher) : @Outcome Data :=
  match a with
  | CallConnect => connect d
  | CallDisconnect => disconnect d
  | CallSend data => send JSON_stringify data d
  | TimerFires => connect d
  | SocketOpens => host_opens d
  | SocketErrors => onerror d
  | SocketCloses => host_closes d
  end.

(** A run of actions: the instance at the end and everything that was
    called on the way.  An exception ends the call that raised it, not the
    run. *)
Fixpoint run (actions : list Action) (d : Dispatcher) : Dispatcher * list (@Effect Data) :=
  match actions with
  | [] => (d, [])
  | a :: rest =>
      let o := step a d in
      let r := run rest (after o) in
      (fst r, trace o ++ snd r)
  end.

(** One failed attempt: the socket closes, then the timer that [onclose]
    set runs [connect]. *)
Definition failed_attempt (d : Dispatcher) : Dispatcher :=
  after (@connect Data (after (@host_closes Data d))).

End WithData.

End Connection.

(** ** src/js/core/Dispatcher.js: the message handler of [connect] *)
Module Inbound.
Import JsString.
Export Dispatcher.

(** What [e.data] is: a string, or anything else (a Blob, an
    ArrayBuffer). *)
Inductive Frame :=
| Text (s : string)
| Binary.

Section WithNumbers.

(** The Number values of the host, with [Number::toString] and
    truthiness (false for zero). *)
Variable Num : Type.
Variable Num_toString : Num -> string.
Variable Num_truthy : Num -> bool.

(** What [JSON.parse] can return. *)
#[warnings="-register-all"]
Inductive Json :=
| JNull
| JBoolean (b : bool)
| JNumber (n : Num)
| JString (s : string)
| JArray (items : list Json)
| JObject (fields : list (string * Json)).

(** The host's [JSON.parse]; [None] when it throws a SyntaxError. *)
Variable JSON_parse : string -> option Json.

Fixpoint lookup_field (key : string) (fields : list (string * Json)) : option Json :=
  match fields with
  | [] => None
  | (k, v) :: rest => if String.eqb k key then Some v else lookup_field key rest
  end.

(** [datum[key]] for one of the keys the handler reads (channel, event,
    data): a TypeError on null, the field of an object, undefined ([None])
    on every other value. *)
Definition get_field (datum : Json) (key : string) : option (option Json) :=
  match datum with
  | JNull => None
  | JObject fields => Some (lookup_field key fields)
  | _ => Some None
  end.

(** ToBoolean, as the [if] applies it; [None] is undefined. *)
Definition truthy (v : option Json) : bool :=
  match v with
  | None => false
  | Some JNull => false
  | Some (JBoolean b) => b
  | Some (JNumber n) => Num_truthy n
  | Some (JString s) => negb (String.eqb s "")
  | Some (JArray _) => true
  | Some (JObject _) => true
  end.

(** ToString, as [this.events[eventName]] and [RegExp.test(eventName)]
    apply it to the first argument of [emit]. *)
Fixpoint toString (v : Json) : string :=
  match v with
  | JNull => "null"
  | JBoolean true => "true"
  | JBoolean false => "false"
  | JNumber n => Num_toString n
  | JString s => s
  | JArray items =>
      str (join [","%char]
             (map (fun x => match x with
                            | JNull => []
                            | _ => chars (toString x)
                            end) items))
  | JObject _ => "[object Object]"
  end.

Definition name_of (v : option Json) : string :=
  match v with
  | None => "undefined"
  | Some x => toString x
  end.

(** What the handler did: the callbacks it called, the notifications it
    asked for, how it ended. *)
Record Handled := {
  called : list (@Effect Json);
  said : list (string * string);
  ended : Completion
}.

(** The [catch] block: [this.say('Unknown signal', 'danger')].  Only Deck
    defines [say]; on an instance without it the call itself throws. *)
Definition catch_block (has_say : bool) : Handled :=
  if has_say
  then {| called := []; said := [("Unknown signal", "danger")]; ended := Normal |}
  else {| called := []; said := [];
          ended := Throw (TypeError "this.say is not a function") |}.

(** The name the handler emits a parsed message under: its channel when
    that is truthy, else its event; [None] for null, whose fields cannot
    be read. *)
Definition routed_name (datum : Json) : option string :=
  match get_field datum "channel" with
  | None => None
  | Some channel =>
      if truthy channel then Some (name_of channel)
      else option_map name_of (get_field datum "event")
  end.

(** The data that goes with it: the whole message for a channel, else
    its [data]. *)
Definition routed_data (datum : Json) : option Json :=
  match get_field datum "channel" with
  | None => None
  | Some channel =>
      if truthy channel then Some datum
      else match get_field datum "data" with
           | Some data => data
           | None => None
           end
  end.

(** A frame is refused when it is a string that does not parse, or parses
    to null, or is routed to a name that the event table inherits from
    Object.prototype and does not own. *)
Definition refused (t : Events) (frame : Frame) : Prop :=
  exists s, frame = Text s
            /\ (JSON_parse s = None
                \/ JSON_parse s = Some JNull
                \/ exists datum name,
                     JSON_parse s = Some datum /\ routed_name datum = Some name
                     /\ member name t = Inherited).

(** [this.emit(name, data)] inside the [try]: what [emit] throws is
    caught. *)
Definition try_emit (has_say : bool) (t : Events) (name : string)
    (data : option Json) : Handled :=
  match emit_completion t name with
  | Normal => {| called := emit t name data; said := []; ended := Normal |}
  | Throw _ =>
      {| called := emit t name data ++ called (catch_block has_say);
         said := said (catch_block has_say);
         ended := ended (catch_block has_say) |}
  end.

(** [this.wss.onmessage] *)
Definition onmessage (has_say : bool) (frame : Frame) (d : Dispatcher) : Handled :=
  match frame with
  | Binary => {| called := []; said := []; ended := Normal |}
  | Text s =>
      match JSON_parse s with
      | None => catch_block has_say
      | Some datum =>
          match get_field datum "channel" with
          | None => catch_block has_say
          | Some channel =>
              if truthy channel then
                try_emit has_say (events d) (name_of channel) (Some datum)
              else
                match get_field datum "event", get_field datum "data" with
                | Some event, Some data =>
                    try_emit has_say (events d) (name_of event) data
                | _, _ => catch_block has_say
                end
          end
      end
  end.

End WithNumbers.

Arguments JNull {Num}.
Arguments JBoolean {Num} b.
Arguments JNumber {Num} n.
Arguments JString {Num} s.
Arguments JArray {Num} items.
Arguments JObject {Num} fields.
Arguments lookup_field {Num} key fields.
Arguments get_field {Num} datum key.
Arguments called {Num} h.
Arguments said {Num} h.
Arguments ended {Num} h.
Arguments routed_name {Num} Num_toString Num_truthy datum.
Arguments routed_data {Num} Num_truthy datum.
Arguments refused {Num} Num_toString Num_truthy JSON_parse t frame.
Arguments try_emit {Num} has_say t name data.
Arguments catch_block {Num} has_say.
Arguments onmessage {Num} Num_toString Num_truthy JSON_parse has_say frame d.

End Inbound.

(** ** Reference functions for the attribute parser *)
Module ConfigMore.
Import JsString JsNumber Component.

(** The decimal text of a natural number, as the standard library prints
    it. *)
Definition decimal_text (n : nat) : list ascii :=
  chars (DecimalString.NilEmpty.string_of_uint (Nat.to_uint n)).

(** The value text of the last pair whose trimmed key is [k]. *)
Fixpoint last_value (k : string) (kvs : list (string * string)) : option string :=
  match kvs with
  | [] => None
  | kv :: rest =>
      match last_value k rest with
      | Some v => Some v
      | None => if String.eqb (str (trim (chars (fst kv)))) k then Some (snd kv) else None
      end
  end.

(** How many times [c] occurs in the text. *)
Definition count_char (c : ascii) (l : list ascii) : nat :=
  length (List.filter (ch_eqb c) l).

(** An element that carries exactly one attribute. *)
Definition element_with (attr value : string) : Element :=
  {| attributes := [(attr, value)]; classList := [] |}.

End ConfigMore.

(** ** Runs of state updates *)
Module StateRuns.
Export Component.

(** [updateState] called on instance [i] with each of [partials] in turn. *)
Definition update_all (i : nat) (partials : list (gmap string Value)) (w : World) : World :=
  fold_left (fun w p => fst (updateState i p w)) partials w.

(** The partial states merged one after the other onto [s]. *)
Definition spread_all (s : gmap string Value) (partials : list (gmap string Value))
  : gmap string Value :=
  fold_left spread partials s.

End StateRuns.

(** ** util/Queue.js *)
Module Queue.

(** [document.visibilityState] as the page reports it. *)
Definition visible : string := "visible".
Definition hidden : string := "hidden".

(** An interval timer the queue has started: the function or the event
    name it serves, and its interval. *)
Inductive Timer :=
| CallbackTimer (cb : nat) (interval : Z)
| EventTimer (ev : string) (interval : Z).

Definition is_callback_timer (t : Timer) : bool :=
  match t with CallbackTimer _ _ => true | EventTimer _ _ => false end.

Definition is_event_timer (t : Timer) : bool :=
  match t with CallbackTimer _ _ => false | EventTimer _ _ => true end.

(** A string is truthy unless it is empty. *)
Definition truthy (s : string) : bool := negb (String.eqb s "").

Section WithItems.
Variable Item : Type.

Record Queue := {
  queue : list Item;
  queue_size : Z;
  auto : bool;
  callback : bool;
  event : bool
}.

Definition with_queue (l : list Item) (q : Queue) : Queue :=
  {| queue := l; queue_size := queue_size q; auto := auto q;
     callback := callback q; event := event q |}.

(** [get size()], line 61. *)
Definition size (q : Queue) : Z := Z.of_nat (length (queue q)).

(** [get isEmpty()], line 70. *)
Definition isEmpty (q : Queue) : bool := (size q =? 0)%Z.

(** [enqueue(item)], line 78: [push] appends. *)
Definition enqueue (item : Item) (q : Queue) : Queue :=
  with_queue (queue q ++ [item]) q.

(** [get peek()], line 87; [None] is [undefined]. *)
Definition peek (q : Queue) : option Item :=
  if (size q >? 0)%Z then head (queue q) else None.

(** [shift()], line 95: the item handed back and the queue left. *)
Definition shift (q : Queue) : option Item * Queue :=
  if (size q >? 0)%Z then (head (queue q), with_queue (tail (queue q)) q)
  else (None, q).

(** [run(callback, interval)], lines 104 to 113: the queue and the timers
    started. *)
Definition run (cb : nat) (interval : Z) (q : Queue) : Queue * list Timer :=
  if auto q && negb (callback q) then
    ({| queue := queue q; queue_size := queue_size q; auto := auto q;
        callback := true; event := event q |},
     [CallbackTimer cb interval])
  else (q, []).

(** [fire(event, interval)], lines 121 to 130. *)
Definition fire (ev : string) (interval : Z) (q : Queue) : Queue * list Timer :=
  if auto q && negb (event q) then
    ({| queue := queue q; queue_size := queue_size q; auto := auto q;
        callback := callback q; event := true |},
     [EventTimer ev interval])
  else (q, []).

(** The constructor, lines 12 to 53; a missing callback or event name is
    [None] (the default [null]). *)
Definition constructor (queue_size : Z) (cb : option nat) (ev : option string)
    (time : Z) : Queue * list Timer :=
  let q0 := {| queue := []; queue_size := queue_size;
               auto := match cb with
                       | Some _ => true
                       | None => match ev with Some e => truthy e | None => false end
                       end;
               callback := false; event := false |} in
  let r1 := match cb with Some f => run f time q0 | None => (q0, []) end in
  let r2 := match ev with
            | Some e => if truthy e then fire e time (fst r1) else (fst r1, [])
            | None => (fst r1, [])
            end in
  (fst r2, snd r1 ++ snd r2).

(** [shouldProcess()], lines 137 to 141. *)
Definition shouldProcess (visibilityState : string) (q : Queue) : bool :=
  let visible := String.eqb visibilityState visible in
  let hiddenAndOverflowing :=
    String.eqb visibilityState hidden && (size q >? queue_size q)%Z in
  (size q >? 0)%Z && (visible || hiddenAndOverflowing).

(** What a timer hands over when it processes an item: a call of the
    callback, or a [CustomEvent] dispatched on the global [deck] with the
    item as detail. *)
Inductive Delivery :=
| Callback (cb : nat) (item : option Item)
| Dispatch (ev : string) (item : option Item).

Definition item_of (d : Delivery) : option Item :=
  match d with Callback _ item => item | Dispatch _ item => item end.

(** One firing of an interval timer, lines 107 to 111 and 124 to 128. *)
Definition tick (t : Timer) (visibilityState : string) (q : Queue)
  : Queue * list Delivery :=
  if shouldProcess visibilityState q then
    let r := shift q in
    (snd r, [match t with
             | CallbackTimer cb _ => Callback cb (fst r)
             | EventTimer ev _ => Dispatch ev (fst r)
             end])
  else (q, []).

(** [k] firings of one timer while the page stays in one visibility
    state. *)
Fixpoint ticks (k : nat) (t : Timer) (visibilityState : string) (q : Queue)
  : Queue * list Delivery :=
  match k with
  | O => (q, [])
  | S k' =>
      let r := tick t visibilityState q in
      let r' := ticks k' t visibilityState (fst r) in
      (fst r', snd r ++ snd r')
  end.

(** What happens to a queue over time. *)
Inductive Action :=
| Enqueue (item : Item)
| Shift
| Tick (t : Timer) (visibilityState : string).

(** The items an action hands out. *)
Definition step (a : Action) (q : Queue) : Queue * list Item :=
  match a with
  | Enqueue item => (enqueue item q, [])
  | Shift => let r := shift q in (snd r, option_list (fst r))
  | Tick t v =>
      let r := tick t v q in
      (fst r, omap item_of (snd r))
  end.

Fixpoint steps (actions : list Action) (q : Queue) : Queue * list Item :=
  match actions with
  | [] => (q, [])
  | a :: rest =>
      let r := step a q in
      let r' := steps rest (fst r) in
      (fst r', snd r ++ snd r')
  end.

(** The items a list of actions puts in. *)
Definition enqueued (actions : list Action) : list Item :=
  omap (fun a => match a with Enqueue item => Some item | _ => None end) actions.

(** Later calls of [run] and [fire]. *)
Inductive Start :=
| Run (cb : nat) (interval : Z)
| Fire (ev : string) (interval : Z).

Definition start (s : Start) (q : Queue) : Queue * list Timer :=
  match s with
  | Run cb interval => run cb interval q
  | Fire ev interval => fire ev interval q
  end.

Fixpoint starts (calls : list Start) (q : Queue) : Queue * list Timer :=
  match calls with
  | [] => (q, [])
  | s :: rest =>
      let r := start s q in
      let r' := starts rest (fst r) in
      (fst r', snd r ++ snd r')
  end.

(** How many items a timer may take while the page stays in the given
    visibility state. *)
Definition budget (visibilityState : string) (q : Queue) : nat :=
  if String.eqb visibilityState visible then length (queue q)
  else if String.eqb visibilityState hidden then
    length (queue q) - Z.to_nat (queue_size q)
  else 0.

End WithItems.

Arguments queue {Item} q.
Arguments queue_size {Item} q.
Arguments auto {Item} q.
Arguments callback {Item} q.
Arguments event {Item} q.
Arguments with_queue {Item} l q.
Arguments size {Item} q.
Arguments isEmpty {Item} q.
Arguments enqueue {Item} item q.
Arguments peek {Item} q.
Arguments shift {Item} q.
Arguments run {Item} cb interval q.
Arguments fire {Item} ev interval q.
Arguments shouldProcess {Item} visibilityState q.
Arguments Callback {Item} cb item.
Arguments Dispatch {Item} ev item.
Arguments item_of {Item} d.
Arguments tick {Item} t visibilityState q.
Arguments ticks {Item} k t visibilityState q.
Arguments Enqueue {Item} item.
Arguments Shift {Item}.
Arguments Tick {Item} t visibilityState.
Arguments step {Item} a q.
Arguments steps {Item} actions q.
Arguments enqueued {Item} actions.
Arguments start {Item} s q.
Arguments starts {Item} calls q.
Arguments budget {Item} visibilityState q.

End Queue.

(** ** Component.js: storage and the timeout slot *)
Module ComponentHost.

(** What [this.storage] holds: the default [false], a string given by the
    context or the attribute, or the object [#initStorage] puts there. *)
Inductive StorageField :=
| SFalse
| SString (s : string)
| SApi.

(** A template literal's text for the field. *)
Definition to_text (f : StorageField) : string :=
  match f with
  | SFalse => "false"
  | SString s => s
  | SApi => "[object Object]"
  end.

(** A web storage area, and the properties of [window] that hold one. *)
Definition WebStorage := gmap string string.
Definition Window := gmap string WebStorage.

Record Instance := {
  name : string;
  storage : StorageField
}.

(** [#initStorage()], lines 139 to 157: the flag is replaced by the
    object of three closures when it is one of the two area names. *)
Definition initStorage (c : Instance) : Instance :=
  match storage c with
  | SString s =>
      if String.eqb s "local" || String.eqb s "session" then
        {| name := name c; storage := SApi |}
      else c
  | _ => c
  end.

(** The property of [window] a closure reads when it is called: the
    template literal is evaluated then, on the field as it is then. *)
Definition area_name (c : Instance) : string := to_text (storage c) +:+ "Storage".

Definition prefixed (c : Instance) (key : string) : string := name c +:+ "_" +:+ key.

Definition not_a_function : Dispatcher.Error :=
  Dispatcher.TypeError "this.storage method is not a function".
Definition no_such_area : Dispatcher.Error :=
  Dispatcher.TypeError "window property is undefined".

(** [this.storage.set(key, value)], lines 144 to 147. *)
Definition storage_set (key value : string) (c : Instance) (window : Window)
  : Component.Result Window :=
  match storage c with
  | SApi =>
      match window !! area_name c with
      | Some area =>
          Component.Ok (<[area_name c := <[prefixed c key := value]> area]> window)
      | None => Component.Raise no_such_area
      end
  | _ => Component.Raise not_a_function
  end.

(** [this.storage.get(key)], lines 148 to 151; [getItem] gives [null]
    for a missing key. *)
Definition storage_get (key : string) (c : Instance) (window : Window)
  : Component.Result (option string) :=
  match storage c with
  | SApi =>
      match window !! area_name c with
      | Some area => Component.Ok (area !! prefixed c key)
      | None => Component.Raise no_such_area
      end
  | _ => Component.Raise not_a_function
  end.

(** [this.storage.remove(key)], lines 152 to 155. *)
Definition storage_remove (key : string) (c : Instance) (window : Window)
  : Component.Result Window :=
  match storage c with
  | SApi =>
      match window !! area_name c with
      | Some area =>
          Component.Ok (<[area_name c := delete (prefixed c key) area]> window)
      | None => Component.Raise no_such_area
      end
  | _ => Component.Raise not_a_function
  end.

(** The host's active timers, by id, each with the handler it will
    call. *)
Definition Timers := gmap Z nat.

(** [clearTimeout(x)]: nothing for [undefined] or an id that is not
    active. *)
Definition clearTimeout (x : option Z) (timers : Timers) : Timers :=
  match x with
  | Some id => delete id timers
  | None => timers
  end.

(** [setTimeout = (handler, timeout) => ...], lines 217 to 220, on the
    value of [this.timeout] and the host's timers.  The host picks the
    new id among those not active. *)
Inductive setTimeout (handler : nat) : option Z * Timers → option Z * Timers → Prop :=
| SetTimeout slot timers id :
    clearTimeout slot timers !! id = None →
    setTimeout handler (slot, timers)
                       (Some id, <[id := handler]> (clearTimeout slot timers)).

(** Calls of [setTimeout], one handler after the other, while no timer
    fires. *)
Inductive setTimeouts : list nat → option Z * Timers → option Z * Timers → Prop :=
| NoCall s : setTimeouts [] s s
| OneMore handler handlers s s' s'' :
    setTimeout handler s s' →
    setTimeouts handlers s' s'' →
    setTimeouts (handler :: handlers) s s''.

End ComponentHost.

(** ** core/Deck.js: instances *)
Module DeckInstances.

(** The part of a deck [autoload] and [getInstance] use: the names under
    [this.components], in the order [Object.keys] lists them, and
    [this.instances]. *)
Record Deck (Instance : Type) := {
  components : list string;
  instances : gmap string Instance
}.
Arguments components {Instance} d.
Arguments instances {Instance} d.

(** [element.dataset.dci] of the elements, by element. *)
Definition Dataset := gmap nat string.

(** The [filter] argument: an array of names, or anything else. *)
Inductive Filter :=
| Names (names : list string)
| NotAnArray.

(** The argument of [getInstance]. *)
Inductive Input :=
| ByString (s : string)
| ByElement (element : nat)
| Neither.

Section WithHost.
Variable Instance : Type.
(** [instance.dci]. *)
Variable dci : Instance → string.
(** The elements [context.querySelectorAll] finds for a component name,
    in document order. *)
Variable querySelectorAll : string → list nat.
(** What [this.components[component](element)] hands to the two lines
    that follow it: for a registered name the new instance, for a name
    that only Object.prototype defines whatever that member returns;
    [None] when the call throws, or when [dci] cannot be read off its
    result. *)
Variable construct : string → nat → option Instance.

(** [this.components[component](element)], line 98: [this.components] is
    a plain object, so the member is the registered factory or what
    Object.prototype holds under the name; for any other name it is
    undefined, and calling it throws. *)
Definition factory (d : Deck Instance) (component : string) (element : nat)
  : option Instance :=
  if existsb (String.eqb component) (components d) || JsObject.inherited component
  then construct component element
  else None.

(** The body of the inner loop, lines 97 to 104; what is thrown is
    caught and logged. *)
Definition load (component : string) (acc : Deck Instance * Dataset) (element : nat)
  : Deck Instance * Dataset :=
  match factory (fst acc) component element with
  | Some instance =>
      let dataset := <[element := dci instance]> (snd acc) in
      ({| components := components (fst acc);
          instances := <[dci instance := instance]> (instances (fst acc)) |},
       dataset)
  | None => acc
  end.

(** [autoload(filter, context)], lines 88 to 107. *)
Definition autoload (filter : Filter) (d : Deck Instance) (dataset : Dataset)
  : Deck Instance * Dataset :=
  let names := match filter with Names l => l | NotAnArray => components d end in
  fold_left (fun acc component =>
               fold_left (load component) (querySelectorAll component) acc)
            names (d, dataset).

(** [getInstance(input)], lines 116 to 126; [None] is [null]. *)
Definition getInstance (input : Input) (d : Deck Instance) (dataset : Dataset)
  : option Instance :=
  let dci := match input with
             | ByString s => Some s
             | ByElement element => dataset !! element
             | Neither => None
             end in
  match dci with
  | Some key => if Queue.truthy key then instances d !! key else None
  | None => None
  end.

(** One construction [autoload] attempts. *)
Definition load_attempt (acc : Deck Instance * Dataset) (a : string * nat)
  : Deck Instance * Dataset :=
  load (fst a) acc (snd a).

(** The constructions [autoload] attempts, in order. *)
Definition attempts (filter : Filter) (d : Deck Instance) : list (string * nat) :=
  let names := match filter with Names l => l | NotAnArray => components d end in
  flat_map (fun component => map (fun element => (component, element))
                                 (querySelectorAll component)) names.

(** The instances [autoload] gets, in order. *)
Definition loaded (filter : Filter) (d : Deck Instance) : list Instance :=
  omap (fun a => factory d (fst a) (snd a)) (attempts filter d).

End WithHost.

Arguments factory {Instance} construct d component element.
Arguments load {Instance} dci construct component acc element.
Arguments autoload {Instance} dci querySelectorAll construct filter d dataset.
Arguments getInstance {Instance} input d dataset.
Arguments load_attempt {Instance} dci construct acc a.
Arguments attempts {Instance} querySelectorAll filter d.
Arguments loaded {Instance} querySelectorAll construct filter d.

End DeckInstances.

(** * Properties *)

(** ** The string built-ins *)
Module JsStringFacts.
Import JsString.

Lemma chars_str l : chars (str l) = l.
Proof. apply list_ascii_of_string_of_list_ascii. Qed.

Lemma str_chars s : str (chars s) = s.
Proof. apply string_of_list_ascii_of_string. Qed.

Lemma ch_eqb_true a b : ch_eqb a b = true ↔ a = b.
Proof. apply Ascii.eqb_eq. Qed.

Lemma ch_eqb_false a b : ch_eqb a b = false ↔ a ≠ b.
Proof. apply Ascii.eqb_neq. Qed.

Lemma ch_eqb_refl a : ch_eqb a a = true.
Proof. by apply ch_eqb_true. Qed.

Lemma includes_app c a b : includes c (a ++ b) = includes c a || includes c b.
Proof. apply existsb_app. Qed.

Lemma includes_cons c x l : includes c (x :: l) = ch_eqb c x || includes c l.
Proof. done. Qed.

Lemma includes_rev c l : includes c (rev l) = includes c l.
Proof.
  induction l as [|x l IH]; simpl; [done|].
  rewrite includes_app, IH. simpl. rewrite orb_false_r. apply orb_comm.
Qed.

Lemma includes_In c l : includes c l = true ↔ In c l.
Proof.
  unfold includes. rewrite existsb_exists. split.
  - intros (x & Hin & Heq). apply ch_eqb_true in Heq. by subst.
  - intros Hin. exists c. split; [done|apply ch_eqb_refl].
Qed.

Lemma split_not_nil c l : split c l ≠ [].
Proof.
  destruct l as [|x l]; simpl; [done|].
  destruct (ch_eqb x c); [done|]. by destruct (split c l).
Qed.

Lemma split_none c l : includes c l = false → split c l = [l].
Proof.
  induction l as [|x l IH]; simpl; [done|].
  intros H. apply orb_false_elim in H as [Hx Hl].
  unfold ch_eqb in *. rewrite (Ascii.eqb_sym x c), Hx. by rewrite IH.
Qed.

Lemma split_app c a b :
  includes c a = false → split c (a ++ c :: b) = a :: split c b.
Proof.
  induction a as [|x a IH]; simpl.
  - intros _. by rewrite ch_eqb_refl.
  - intros H. apply orb_false_elim in H as [Hx Ha].
    unfold ch_eqb in *. rewrite (Ascii.eqb_sym x c), Hx. by rewrite IH.
Qed.

Lemma split_join c ps :
  ps ≠ [] → forallb (fun p => negb (includes c p)) ps = true →
  split c (join [c] ps) = ps.
Proof.
  induction ps as [|p ps IH]; [done|]. intros _ H. simpl in H.
  apply andb_prop in H as [Hp Hps]. apply negb_true_iff in Hp.
  destruct ps as [|q ps].
  - simpl. by apply split_none.
  - change (join [c] (p :: q :: ps)) with (p ++ c :: join [c] (q :: ps)).
    rewrite split_app by done. by rewrite IH.
Qed.

Lemma trim_start_white l : forallb is_white_space l = true → trim_start l = [].
Proof.
  induction l as [|x l IH]; simpl; [done|].
  intros H. apply andb_prop in H as [Hx Hl]. rewrite Hx. by apply IH.
Qed.

Lemma trim_start_again l : trim_start (trim_start l) = trim_start l.
Proof.
  induction l as [|x l IH]; simpl; [done|].
  destruct (is_white_space x) eqn:E; [done|]. simpl. by rewrite E.
Qed.

Lemma trim_start_app c a b :
  is_white_space c = false → trim_start (a ++ c :: b) = trim_start a ++ c :: b.
Proof.
  intros Hc. induction a as [|x a IH]; simpl; [by rewrite Hc|].
  by destruct (is_white_space x).
Qed.

Lemma trim_end_app c a b :
  is_white_space c = false → trim_end (a ++ c :: b) = a ++ c :: trim_end b.
Proof.
  intros Hc. unfold trim_end. rewrite rev_app_distr. simpl.
  rewrite <- app_assoc. simpl. rewrite trim_start_app by done.
  rewrite rev_app_distr. simpl. rewrite rev_involutive.
  by rewrite <- app_assoc.
Qed.

Lemma trim_end_white l : forallb is_white_space l = true → trim_end l = [].
Proof.
  intros H. unfold trim_end. rewrite trim_start_white; [done|].
  apply forallb_forall. intros x Hx. apply in_rev in Hx.
  by apply (proj1 (forallb_forall _ _) H).
Qed.

Lemma trim_end_again l : trim_end (trim_end l) = trim_end l.
Proof. unfold trim_end. by rewrite rev_involutive, trim_start_again. Qed.

(** A text that is not all white space, cut at its first other character. *)
Lemma first_not_white l :
  forallb is_white_space l = false →
  ∃ a c b, l = a ++ c :: b ∧ forallb is_white_space a = true
           ∧ is_white_space c = false.
Proof.
  induction l as [|x l IH]; simpl; [done|].
  destruct (is_white_space x) eqn:E; simpl.
  - intros H. destruct (IH H) as (a & c & b & -> & Ha & Hc).
    exists (x :: a), c, b. simpl. by rewrite E.
  - intros _. by exists [], x, l.
Qed.

Lemma trim_start_trim_end l : trim_start (trim_end l) = trim_end (trim_start l).
Proof.
  destruct (forallb is_white_space l) eqn:E.
  - rewrite (trim_end_white l E), (trim_start_white l E). done.
  - destruct (first_not_white l E) as (a & c & b & -> & Ha & Hc).
    rewrite trim_end_app, !trim_start_app by done.
    rewrite (trim_start_white a Ha). simpl.
    symmetry. by apply (trim_end_app c []).
Qed.

Lemma trim_trim_start l : trim (trim_start l) = trim l.
Proof. unfold trim. by rewrite trim_start_again. Qed.

Lemma trim_trim_end l : trim (trim_end l) = trim l.
Proof. unfold trim. by rewrite trim_start_trim_end, trim_end_again. Qed.

(** A pair around a separator that is not white space. *)
Lemma trim_around c a b :
  is_white_space c = false → trim (a ++ c :: b) = trim_start a ++ c :: trim_end b.
Proof.
  intros Hc. unfold trim. by rewrite trim_start_app, trim_end_app.
Qed.

Lemma includes_trim_start c l :
  includes c l = false → includes c (trim_start l) = false.
Proof.
  induction l as [|x l IH]; simpl; [done|].
  intros H. destruct (is_white_space x); [|done].
  apply orb_false_elim in H as [_ H]. by apply IH.
Qed.

Lemma includes_trim_end c l :
  includes c l = false → includes c (trim_end l) = false.
Proof.
  intros H. unfold trim_end. rewrite includes_rev.
  apply includes_trim_start. by rewrite includes_rev.
Qed.

(** Trimming keeps every occurrence of a character that is not white
    space. *)
Lemma includes_trim_start_keep c l :
  is_white_space c = false → includes c (trim_start l) = includes c l.
Proof.
  intros Hc. induction l as [|x l IH]; simpl; [done|].
  destruct (is_white_space x) eqn:E; [|done].
  rewrite IH. destruct (ch_eqb c x) eqn:E'; [|done].
  apply ch_eqb_true in E'. congruence.
Qed.

Lemma includes_trim_keep c l :
  is_white_space c = false → includes c (trim l) = includes c l.
Proof.
  intros Hc. unfold trim, trim_end.
  by rewrite includes_rev, includes_trim_start_keep, includes_rev,
             includes_trim_start_keep.
Qed.

End JsStringFacts.


(** ** The number grammar never accepts a comma *)
Module JsNumberFacts.
Import JsString JsNumber JsStringFacts.

Lemma no_comma_forallb (p : ascii → bool) l :
  p comma = false → forallb p l = true → includes comma l = false.
Proof.
  intros Hp. induction l as [|x l IH]; simpl; [done|].
  intros H. apply andb_prop in H as [Hx Hl]. rewrite (IH Hl), orb_false_r.
  apply ch_eqb_false. intros <-. congruence.
Qed.

Lemma no_comma_when (p : ascii → bool) c :
  p comma = false → p c = true → ch_eqb comma c = false.
Proof. intros Hp Hc. apply ch_eqb_false. intros <-. congruence. Qed.

Lemma span_app p l : fst (span p l) ++ snd (span p l) = l.
Proof.
  induction l as [|x l IH]; simpl; [done|].
  destruct (p x); simpl; [by rewrite IH|done].
Qed.

Lemma span_all p l : forallb p (fst (span p l)) = true.
Proof.
  induction l as [|x l IH]; simpl; [done|].
  destruct (p x) eqn:E; simpl; [by rewrite E|done].
Qed.

Lemma some_all_all p l : some_all p l = true → forallb p l = true.
Proof. unfold some_all. intros H. by apply andb_prop in H as [_ H]. Qed.

Lemma strip_sign_no_comma l :
  includes comma (strip_sign l) = false → includes comma l = false.
Proof.
  destruct l as [|c l]; simpl; [done|].
  destruct (is_sign c) eqn:E; [|done].
  intros H. rewrite H, orb_false_r. by apply (no_comma_when is_sign).
Qed.

Lemma exponent_no_comma l : is_exponent_part l = true → includes comma l = false.
Proof.
  destruct l as [|c l]; simpl; [done|].
  intros H. apply andb_prop in H as [Hc Hl].
  rewrite (no_comma_when is_exponent_mark c) by done. simpl.
  apply strip_sign_no_comma. apply (no_comma_forallb is_digit); [done|].
  by apply some_all_all.
Qed.

Lemma optional_exponent_no_comma l :
  optional_exponent l = true → includes comma l = false.
Proof.
  unfold optional_exponent. destruct l as [|c l]; [done|]. simpl is_empty.
  rewrite orb_false_l. apply exponent_no_comma.
Qed.

Lemma unsigned_decimal_no_comma l :
  is_unsigned_decimal l = true → includes comma l = false.
Proof.
  unfold is_unsigned_decimal.
  destruct (String.eqb (str l) "Infinity") eqn:E.
  - intros _. apply String.eqb_eq in E.
    apply (f_equal chars) in E. rewrite chars_str in E. by subst.
  - intros H. rewrite <- (span_app is_digit l), includes_app.
    rewrite (no_comma_forallb is_digit _ eq_refl (span_all is_digit l)).
    rewrite orb_false_l. cbv zeta in H.
    destruct (snd (span is_digit l)) as [|c r]; [done|].
    destruct (ch_eqb c "."%char) eqn:Ec.
    + apply ch_eqb_true in Ec. subst c.
      apply andb_prop in H as [_ H].
      rewrite includes_cons. rewrite <- (span_app is_digit r), includes_app.
      rewrite (no_comma_forallb is_digit _ eq_refl (span_all is_digit r)).
      by rewrite (optional_exponent_no_comma _ H).
    + apply andb_prop in H as [_ H]. by apply exponent_no_comma.
Qed.

Lemma non_decimal_no_comma l :
  is_non_decimal_integer l = true → includes comma l = false.
Proof.
  destruct l as [|z [|k ds]]; [done..|]. unfold is_non_decimal_integer.
  intros H. apply andb_prop in H as [Hz H].
  apply ch_eqb_true in Hz. subst z. rewrite !includes_cons.
  change (ch_eqb comma "0"%char) with false. rewrite orb_false_l.
  repeat (apply orb_prop in H as [H|H]);
    apply andb_prop in H as [Hk Hd];
    (apply orb_prop in Hk as [Hk|Hk]; apply ch_eqb_true in Hk; subst k;
     [ rewrite (no_comma_forallb _ _ eq_refl (some_all_all _ _ Hd)); done
     | rewrite (no_comma_forallb _ _ eq_refl (some_all_all _ _ Hd)); done ]).
Qed.

(** A text that converts to a number holds no comma. *)
Lemma numeric_no_comma l : string_is_numeric l = true → includes comma l = false.
Proof.
  unfold string_is_numeric. rewrite <- (includes_trim_keep comma l eq_refl).
  intros H. apply orb_prop in H as [H|H]; [apply orb_prop in H as [H|H]|].
  - by destruct (trim l).
  - by apply non_decimal_no_comma.
  - apply strip_sign_no_comma. by apply unsigned_decimal_no_comma.
Qed.

Lemma lower_comma l : includes comma (toLowerCase l) = includes comma l.
Proof.
  induction l as [|x l IH]; [done|].
  change (toLowerCase (x :: l)) with (lower_char x :: toLowerCase l).
  rewrite !includes_cons, IH. f_equal.
  destruct (ch_eqb comma x) eqn:E.
  - apply ch_eqb_true in E. by subst x.
  - apply ch_eqb_false. intros H. apply ch_eqb_false in E. apply E.
    unfold lower_char in H.
    destruct ((Nat.leb 65 (nat_of_ascii x) && Nat.leb (nat_of_ascii x) 90)
              || (Nat.leb 192 (nat_of_ascii x) && Nat.leb (nat_of_ascii x) 222
                  && negb (Nat.eqb (nat_of_ascii x) 215))) eqn:Er; [|done].
    exfalso.
    assert (Hr : (65 ≤ nat_of_ascii x ≤ 222)%nat).
    { apply orb_prop in Er as [Er|Er].
      - apply andb_prop in Er as [Er1 Er2].
        apply Nat.leb_le in Er1, Er2. lia.
      - apply andb_prop in Er as [Er _]. apply andb_prop in Er as [Er1 Er2].
        apply Nat.leb_le in Er1, Er2. lia. }
    apply (f_equal nat_of_ascii) in H.
    rewrite nat_ascii_embedding in H by lia.
    change (nat_of_ascii comma) with 44 in H. lia.
Qed.

End JsNumberFacts.

(** ** The event table: [on], [off] and the entry of a name *)
Module EventTableFacts.
Import JsString EventTable.

Lemma get_set_eq name e t : get name (set name e t) = Some e.
Proof.
  induction t as [|[n e0] t IH]; simpl.
  - by rewrite String.eqb_refl.
  - destruct (String.eqb n name) eqn:E; simpl; rewrite E; auto.
Qed.

Lemma get_set_ne name name' e t :
  name ≠ name' → get name' (set name e t) = get name' t.
Proof.
  intros Hne. induction t as [|[n e0] t IH]; simpl.
  - destruct (String.eqb name name') eqn:E; auto.
    apply String.eqb_eq in E. contradiction.
  - destruct (String.eqb n name) eqn:E; simpl.
    + apply String.eqb_eq in E. subst n.
      destruct (String.eqb name name') eqn:E'; auto.
      apply String.eqb_eq in E'. contradiction.
    + destruct (String.eqb n name'); auto.
Qed.

Lemma get_del_eq name t : get name (del name t) = None.
Proof.
  induction t as [|[n e] t IH]; simpl; auto.
  destruct (String.eqb n name) eqn:E; simpl; auto. by rewrite E.
Qed.

Lemma get_del_ne name name' t :
  name ≠ name' → get name' (del name t) = get name' t.
Proof.
  intros Hne. induction t as [|[n e] t IH]; simpl; auto.
  destruct (String.eqb n name) eqn:E; simpl.
  - apply String.eqb_eq in E. subst n.
    destruct (String.eqb name name') eqn:E'; auto.
    apply String.eqb_eq in E'. contradiction.
  - destruct (String.eqb n name'); auto.
Qed.

Lemma del_absent name t : get name t = None → del name t = t.
Proof.
  induction t as [|[n e] t IH]; simpl; auto.
  destruct (String.eqb n name); [discriminate|].
  intros H. by rewrite IH.
Qed.

Lemma del_set_absent name e t : get name t = None → del name (set name e t) = t.
Proof.
  induction t as [|[n e0] t IH]; simpl.
  - by rewrite String.eqb_refl.
  - destruct (String.eqb n name) eqn:E; [discriminate|].
    intros H. simpl. rewrite E. by rewrite IH.
Qed.

Lemma indexOf_lower cb l : (-1 ≤ indexOf cb l)%Z.
Proof.
  induction l as [|x l IH]; simpl; [lia|].
  destruct (Nat.eqb x cb); [lia|].
  destruct (indexOf cb l <? 0)%Z eqn:E; lia.
Qed.

Lemma indexOf_app_last cb l : (indexOf cb (l ++ [cb]) >? -1)%Z = true.
Proof.
  induction l as [|x l IH]; simpl.
  - by rewrite Nat.eqb_refl.
  - destruct (Nat.eqb x cb); [done|].
    apply Z.gtb_lt in IH.
    destruct (indexOf cb (l ++ [cb]) <? 0)%Z eqn:E.
    + apply Z.ltb_lt in E. lia.
    + apply Z.gtb_lt. lia.
Qed.

Lemma indexOf_head cb l : indexOf cb (cb :: l) = 0%Z.
Proof. simpl. by rewrite Nat.eqb_refl. Qed.

(** Looking a name up finds the own entry first; only a name that
    Object.prototype defines and the table does not own is inherited. *)
Lemma member_cases name t :
  (∃ event, get name t = Some event ∧ member name t = Own event)
  ∨ (get name t = None ∧ inherited name = true ∧ member name t = Inherited)
  ∨ (get name t = None ∧ inherited name = false ∧ member name t = Undefined).
Proof.
  unfold member. destruct (get name t) as [event|]; [left; by exists event|].
  destruct (inherited name); [right; left|right; right]; done.
Qed.

Lemma member_ordinary name t :
  inherited name = false →
  member name t = match get name t with Some event => Own event | None => Undefined end.
Proof. intros H. unfold member. by rewrite H. Qed.

Lemma hasEvent_ordinary name t :
  inherited name = false → hasEvent name t = bool_decide (is_Some (get name t)).
Proof.
  intros H. unfold hasEvent. rewrite member_ordinary by done.
  destruct (get name t) as [event|].
  - symmetry. apply bool_decide_eq_true_2. by exists event.
  - symmetry. apply bool_decide_eq_false_2. by intros [? ?].
Qed.

(** [on] under a name that Object.prototype does not define returns, with
    the callback appended to the entry of the name. *)
Lemma on_leaves name cb t :
  inherited name = false →
  on name cb t
  = Leaves (set name (registerCallback cb (default (new_DispatcherEvent name)
                                                   (get name t))) t).
Proof.
  intros H. unfold on. rewrite member_ordinary by done. by destruct (get name t).
Qed.

Lemma on_inv name cb t t' :
  on name cb t = Leaves t' →
  t' = set name (registerCallback cb (default (new_DispatcherEvent name) (get name t))) t.
Proof.
  unfold on. destruct (member_cases name t)
    as [(event & Hg & ->)|[(Hg & _ & ->)|(Hg & _ & ->)]]; rewrite Hg; simpl;
    by intros [= <-].
Qed.

(** [on] appends the callback to what is registered under the name. *)
Lemma registered_on name cb t t' :
  on name cb t = Leaves t' → registered name t' = registered name t ++ [cb].
Proof.
  intros H. apply on_inv in H as ->. unfold registered.
  rewrite get_set_eq. by destruct (get name t).
Qed.

Lemma registered_on_ne name name' cb t t' :
  on name cb t = Leaves t' → name ≠ name' → get name' t' = get name' t.
Proof. intros H Hne. apply on_inv in H as ->. by apply get_set_ne. Qed.

(** [off] of the oldest registered callback: the entry goes when it was the
    only one, otherwise the rest stays registered. *)
Lemma off_head name cb rest t :
  registered name t = cb :: rest →
  ∃ t', off name cb t = Leaves t'
        ∧ match rest with
          | [] => get name t' = None
          | _ :: _ => registered name t' = rest
          end.
Proof.
  unfold registered, off, member.
  destruct (get name t) as [e|] eqn:E; [|discriminate].
  intros Hc. unfold unregisterCallback. rewrite Hc, indexOf_head. simpl.
  destruct rest as [|r rest]; simpl; eexists; (split; [reflexivity|]).
  - apply get_del_eq.
  - by rewrite get_set_eq.
Qed.

Lemma times_on name cb n t :
  inherited name = false →
  ∃ t', times n (on name cb) t = Leaves t'
        ∧ registered name t' = registered name t ++ repeat cb n.
Proof.
  intros Hn. revert t. induction n as [|n IH]; intros t; simpl.
  - exists t. by rewrite app_nil_r.
  - rewrite on_leaves by done. simpl.
    destruct (IH (set name (registerCallback cb (default (new_DispatcherEvent name)
                                                        (get name t))) t))
      as (t' & Ht & Hr).
    exists t'. split; [done|]. rewrite Hr.
    rewrite (registered_on name cb t); [|by apply on_leaves].
    by rewrite <- app_assoc.
Qed.

Lemma times_off_repeat name cb n t :
  registered name t = repeat cb (S n) →
  ∃ t', times (S n) (off name cb) t = Leaves t' ∧ get name t' = None.
Proof.
  revert t. induction n as [|n IH]; intros t H.
  - destruct (off_head name cb [] t H) as (t' & Ht & Hg).
    exists t'. simpl. by rewrite Ht.
  - destruct (off_head name cb (repeat cb (S n)) t H) as (t1 & Ht1 & Hr).
    destruct (IH t1 Hr) as (t' & Ht' & Hg).
    exists t'. split; [|done].
    change (times (S (S n)) (off name cb) t)
      with (and_then (off name cb t) (times (S n) (off name cb))).
    by rewrite Ht1.
Qed.




End EventTableFacts.

(** ** [emit]: which callbacks are called, and in which order *)
Module EmitFacts.
Import JsString History JsStringFacts EventTableFacts.

Section WithData.
Context {Data : Type}.

Lemma strings_in_existsb n (l : list string) :
  existsb (String.eqb n) l = true ↔ In n l.
Proof.
  rewrite existsb_exists. split.
  - intros (x & Hin & Heq). apply String.eqb_eq in Heq. by subst.
  - intros Hin. exists n. split; [done|apply String.eqb_refl].
Qed.

Lemma strings_notin_existsb n (l : list string) :
  existsb (String.eqb n) l = false ↔ ¬ In n l.
Proof.
  rewrite <- strings_in_existsb. destruct (existsb _ l); split; congruence.
Qed.

Lemma names_snoc regs r : names (regs ++ [r]) = add_name (fst r) (names regs).
Proof. unfold names. by rewrite fold_left_app. Qed.

Lemma under_snoc p regs r :
  under p (regs ++ [r]) =
  under p regs ++ (if String.eqb (fst r) p then [snd r] else []).
Proof.
  unfold under. rewrite List.filter_app, map_app. simpl.
  by destruct (String.eqb (fst r) p).
Qed.

Lemma names_NoDup regs : NoDup (names regs).
Proof.
  induction regs as [|r regs IH] using rev_ind; [constructor|].
  rewrite names_snoc. unfold add_name.
  destruct (existsb (String.eqb (fst r)) (names regs)) eqn:E; [done|].
  apply strings_notin_existsb in E.
  apply NoDup_app. split; [done|]. split; [|apply NoDup_singleton].
  intros x Hx Hx'. apply list_elem_of_In in Hx.
  apply list_elem_of_singleton in Hx'. by subst.
Qed.

Lemma under_not_named p regs : ¬ In p (names regs) → under p regs = [].
Proof.
  induction regs as [|r regs IH] using rev_ind; [done|].
  rewrite names_snoc, under_snoc. unfold add_name.
  destruct (existsb (String.eqb (fst r)) (names regs)) eqn:E.
  - intros Hn. rewrite (IH Hn). apply strings_in_existsb in E.
    destruct (String.eqb (fst r) p) eqn:E'; [|done].
    apply String.eqb_eq in E'. subst p. contradiction.
  - intros Hn. rewrite in_app_iff in Hn. simpl in Hn.
    rewrite IH by tauto.
    destruct (String.eqb (fst r) p) eqn:E'; [|done].
    apply String.eqb_eq in E'. tauto.
Qed.

Lemma get_tabulate (f : string → DispatcherEvent) n ps :
  get n (map (fun p => (p, f p)) ps) =
  if existsb (String.eqb n) ps then Some (f n) else None.
Proof.
  induction ps as [|p ps IH]; simpl; [done|].
  rewrite (String.eqb_sym n p).
  destruct (String.eqb p n) eqn:E; simpl; [|done].
  apply String.eqb_eq in E. by subst.
Qed.

Lemma set_tabulate_fresh (f : string → DispatcherEvent) n e ps :
  ¬ In n ps →
  set n e (map (fun p => (p, f p)) ps) = map (fun p => (p, f p)) ps ++ [(n, e)].
Proof.
  induction ps as [|p ps IH]; simpl; [done|].
  intros Hn. destruct (String.eqb p n) eqn:E.
  - apply String.eqb_eq in E. tauto.
  - rewrite IH by tauto. done.
Qed.

Lemma map_tabulate_ext (f g : string → DispatcherEvent) ps :
  (∀ p, In p ps → f p = g p) →
  map (fun p => (p, f p)) ps = map (fun p => (p, g p)) ps.
Proof.
  intros H. apply map_ext_in. intros p Hp. by rewrite H.
Qed.

Lemma set_tabulate_present (f g : string → DispatcherEvent) n ps :
  NoDup ps → In n ps → (∀ p, p ≠ n → g p = f p) →
  set n (g n) (map (fun p => (p, f p)) ps) = map (fun p => (p, g p)) ps.
Proof.
  intros Hnd Hin Hg. induction ps as [|p ps IH]; simpl; [done|].
  apply NoDup_cons in Hnd as [Hp Hnd']. rewrite list_elem_of_In in Hp.
  destruct (String.eqb p n) eqn:E.
  - apply String.eqb_eq in E. subst p. f_equal.
    apply map_tabulate_ext. intros q Hq. symmetry. apply Hg.
    intros ->. contradiction.
  - apply String.eqb_neq in E. rewrite (Hg p) by done. f_equal.
    apply IH; [done|]. destruct Hin; [contradiction|done].
Qed.

(** The table of a history: one entry per distinct name, in the order of
    first registration, holding the callbacks registered under it. *)
Lemma register_all_table regs :
  ordinary_names regs = true →
  register_all regs = Leaves (map (entry_of regs) (names regs)).
Proof.
  induction regs as [|[n cb] regs IH] using rev_ind; [done|].
  unfold ordinary_names. rewrite forallb_app. intros Ho.
  apply andb_prop in Ho as [Ho Hn]. simpl in Hn. rewrite andb_true_r in Hn.
  apply negb_true_iff in Hn.
  unfold register_all in *. rewrite fold_left_app. simpl. rewrite (IH Ho).
  simpl. rewrite on_leaves by done. f_equal.
  rewrite names_snoc. simpl. unfold add_name, entry_of.
  rewrite (get_tabulate (fun p => {| eventName := p; callbacks := under p regs |})).
  destruct (existsb (String.eqb n) (names regs)) eqn:E; simpl.
  - apply strings_in_existsb in E.
    replace (registerCallback cb {| eventName := n; callbacks := under n regs |})
      with {| eventName := n; callbacks := under n (regs ++ [(n, cb)]) |}.
    2:{ unfold registerCallback. simpl. rewrite under_snoc. simpl.
        by rewrite String.eqb_refl. }
    apply (set_tabulate_present
             (fun p => {| eventName := p; callbacks := under p regs |})
             (fun p => {| eventName := p; callbacks := under p (regs ++ [(n, cb)]) |}));
      [apply names_NoDup|done|].
    intros p Hp. rewrite under_snoc. simpl.
    destruct (String.eqb n p) eqn:E'; [|by rewrite app_nil_r].
    apply String.eqb_eq in E'. by subst.
  - apply strings_notin_existsb in E.
    rewrite (set_tabulate_fresh
               (fun p => {| eventName := p; callbacks := under p regs |})) by done.
    rewrite map_app. simpl. f_equal.
    + apply map_tabulate_ext. intros p Hp. f_equal. rewrite under_snoc. simpl.
      destruct (String.eqb n p) eqn:E'; [|by rewrite app_nil_r].
      apply String.eqb_eq in E'. by subst.
    + unfold registerCallback. simpl. rewrite under_snoc. simpl.
      rewrite String.eqb_refl. by rewrite (under_not_named n regs E).
Qed.

Lemma wildcard_loop_tabulate (f : string → list Callback) name (data : option Data) ps :
  flat_map (fun entry : string * DispatcherEvent =>
              if wildcard_test (fst entry) name then fire (snd entry) data else [])
           (map (fun p => (p, {| eventName := p; callbacks := f p |})) ps)
  = calls data (flat_map f (List.filter (fun p => wildcard_test p name) ps)).
Proof.
  induction ps as [|p ps IH]; simpl; [done|].
  rewrite IH. destruct (wildcard_test p name); simpl; [|done].
  unfold calls, fire. simpl. by rewrite map_app.
Qed.

Lemma emit_wildcards_table (t : Events) name (data : option Data) :
  emit_wildcards t name data =
  calls data (flat_map (fun entry => callbacks (snd entry))
                (List.filter (fun entry => wildcard_test (fst entry) name) t)).
Proof.
  unfold emit_wildcards, calls.
  induction t as [|[n e] t IH]; simpl; [done|].
  rewrite IH. destruct (wildcard_test n name); simpl; [|done].
  by rewrite map_app.
Qed.

(** On any table, for a name that is not looked up on Object.prototype:
    the callbacks of the entry of the name, then those of each entry whose
    name passes the wildcard test, entry by entry. *)
Lemma emit_table (t : Events) name (data : option Data) :
  member name t ≠ Inherited →
  emit t name data =
  calls data (registered name t
              ++ flat_map (fun entry => callbacks (snd entry))
                   (List.filter (fun entry => wildcard_test (fst entry) name) t)).
Proof.
  intros Hm. unfold emit, registered.
  destruct (member_cases name t)
    as [(event & Hg & He)|[(Hg & _ & He)|(Hg & _ & He)]]; rewrite He, Hg;
    [| congruence |].
  - rewrite emit_wildcards_table. unfold calls, fire. symmetry. apply List.map_app.
  - by rewrite emit_wildcards_table.
Qed.

(** [emit] throws exactly when the name is found on Object.prototype, and
    then it has called nothing. *)
Lemma emit_throws (t : Events) name (data : option Data) :
  (member name t = Inherited
   ∧ emit t name data = []
   ∧ emit_completion t name = Throw (TypeError "event.fire is not a function"))
  ∨ (member name t ≠ Inherited ∧ emit_completion t name = Normal).
Proof.
  unfold emit, emit_completion.
  destruct (member name t); [right|left|right]; done.
Qed.

Lemma ordinary_member name t : inherited name = false → member name t ≠ Inherited.
Proof. intros H. rewrite member_ordinary by done. by destruct (get name t). Qed.

(** A name that holds an asterisk is not a name of Object.prototype. *)
Lemma asterisk_ordinary name : In "*"%char (chars name) → inherited name = false.
Proof.
  intros Hin. destruct (inherited name) eqn:E; [|done].
  unfold inherited in E. apply existsb_exists in E as (x & Hx & Heq).
  apply String.eqb_eq in Heq. subst x.
  simpl in Hx.
  repeat (destruct Hx as [<-|Hx];
          [simpl in Hin; repeat (destruct Hin as [Hin|Hin]; [discriminate Hin|]); done|]).
  done.
Qed.

Lemma emit_history regs name (data : option Data) :
  inherited name = false →
  emit (map (entry_of regs) (names regs)) name data =
  calls data (under name regs ++ wildcards_by_pattern name regs).
Proof.
  intros Hn. unfold emit. rewrite member_ordinary by done.
  unfold emit_wildcards, entry_of.
  rewrite (wildcard_loop_tabulate (fun p => under p regs)).
  rewrite (get_tabulate (fun p => {| eventName := p; callbacks := under p regs |})).
  destruct (existsb (String.eqb name) (names regs)) eqn:E.
  - unfold calls, fire, wildcards_by_pattern. simpl. symmetry. apply List.map_app.
  - apply strings_notin_existsb in E. by rewrite under_not_named.
Qed.

Lemma in_names regs n : In n (names regs) ↔ In n (map fst regs).
Proof.
  revert n. induction regs as [|r regs IH] using rev_ind; intros n; [done|].
  rewrite names_snoc, map_app, in_app_iff. simpl. unfold add_name.
  destruct (existsb (String.eqb (fst r)) (names regs)) eqn:E.
  - apply strings_in_existsb in E. apply IH in E. rewrite IH.
    split; [tauto|]. intros [H|[H|[]]]; [exact H|]. by subst.
  - rewrite in_app_iff, IH. simpl. tauto.
Qed.

Lemma in_under regs n cb : In cb (under n regs) ↔ In (n, cb) regs.
Proof.
  unfold under. rewrite in_map_iff. split.
  - intros ([n' cb'] & Hcb & Hin). simpl in Hcb. subst cb'.
    apply filter_In in Hin as [Hin Heq]. simpl in Heq.
    apply String.eqb_eq in Heq. by subst.
  - intros Hin. exists (n, cb). split; [done|].
    apply filter_In. split; [done|]. simpl. apply String.eqb_refl.
Qed.

(** A callback is called exactly when it is registered under the emitted
    name or under a name that passes the wildcard test. *)
Lemma emit_history_calls regs name (data : option Data) cb :
  inherited name = false →
  In (Call cb data) (emit (map (entry_of regs) (names regs)) name data)
  ↔ ∃ n, In (n, cb) regs ∧ (n = name ∨ wildcard_test n name = true).
Proof.
  intros Ho. rewrite emit_history by done. unfold calls. rewrite in_map_iff. split.
  - intros (cb' & Heq & Hin). injection Heq as ->.
    apply in_app_iff in Hin as [Hin|Hin].
    + exists name. split; [by apply in_under|by left].
    + unfold wildcards_by_pattern in Hin. apply in_flat_map in Hin as (p & Hp & Hin).
      apply filter_In in Hp as [_ Hp]. exists p. split; [by apply in_under|by right].
  - intros (n & Hin & Hn). exists cb. split; [done|]. apply in_app_iff.
    destruct Hn as [->|Hn]; [left; by apply in_under|right].
    unfold wildcards_by_pattern. apply in_flat_map. exists n.
    split; [|by apply in_under]. apply filter_In. split; [|done].
    apply in_names. apply in_map_iff. by exists (n, cb).
Qed.

End WithData.

(** *** The pattern built by [emit] and what it matches *)

Lemma join_head sep a p ps : join sep ((a ++ p) :: ps) = a ++ join sep (p :: ps).
Proof. destruct ps; simpl; [done|]. by rewrite <- app_assoc. Qed.

(** Splitting at the asterisks, escaping and joining with [.*] rewrites the
    name character by character. *)
Lemma pattern_body name :
  join (chars ".*") (map escaped (split "*"%char name))
  = flat_map source_of_char name.
Proof.
  induction name as [|c name IH]; [done|].
  simpl. unfold source_of_char at 1. destruct (ch_eqb c "*"%char) eqn:E.
  - destruct (split "*"%char name) as [|p ps] eqn:Es.
    + by apply split_not_nil in Es.
    + rewrite <- IH. done.
  - destruct (split "*"%char name) as [|p ps] eqn:Es.
    + by apply split_not_nil in Es.
    + rewrite <- IH. simpl map.
      change (escaped (c :: p))
        with ((if is_meta c then ["\"%char; c] else [c]) ++ escaped p).
      by rewrite join_head.
Qed.

Lemma meta_of_syntax c : is_syntax_char c = true → is_meta c = true.
Proof.
  unfold is_syntax_char, is_meta. rewrite !existsb_exists.
  intros (x & Hin & Hx). apply ch_eqb_true in Hx. subst x.
  exists c. split; [|apply ch_eqb_refl].
  simpl in Hin. simpl. intuition.
Qed.

(** The pattern always reads back as the atoms of the name: escaping makes
    every character but the asterisk a literal. *)
Lemma parse_pattern_source name :
  parse_pattern (flat_map source_of_char name ++ ["$"%char]) = Some (atoms_of name).
Proof.
  induction name as [|c name IH].
  - done.
  - simpl flat_map. unfold source_of_char at 1, atoms_of. simpl map.
    fold (atoms_of name). destruct (ch_eqb c "*"%char) eqn:Estar.
    + simpl. by rewrite IH.
    + destruct (is_meta c) eqn:Em.
      * simpl. rewrite Em. by rewrite IH.
      * assert (Hne : ∀ x, is_meta x = true → ch_eqb c x = false).
        { intros x Hx. apply ch_eqb_false. intros <-. congruence. }
        simpl. rewrite (Hne "$"%char eq_refl), (Hne "\"%char eq_refl),
                       (Hne "."%char eq_refl).
        destruct (is_syntax_char c) eqn:Es.
        { apply meta_of_syntax in Es. congruence. }
        by rewrite IH.
Qed.

Lemma glob_star_inv p s :
  Glob ("*"%char :: p) s ↔
  Glob p s ∨ ∃ c s', s = c :: s' ∧ is_line_terminator c = false
                     ∧ Glob ("*"%char :: p) s'.
Proof.
  split.
  - intros H. inversion H; subst; [done|by left|right; by eauto].
  - intros [H|(c & s' & -> & Hc & H)]; [by apply Glob_star_end|].
    by apply Glob_star_more.
Qed.

Lemma matches_glob name s : matches (atoms_of name) s = true ↔ Glob name s.
Proof.
  revert s. induction name as [|c name IH]; intros s.
  - simpl. destruct s; split; try done; [constructor|inversion 1].
  - unfold atoms_of. simpl map. fold (atoms_of name).
    destruct (ch_eqb c "*"%char) eqn:E.
    + apply ch_eqb_true in E. subst c.
      induction s as [|x s IHs].
      * simpl. rewrite orb_false_r, IH, glob_star_inv.
        split; [by left|]. intros [H|(? & ? & ? & _)]; [done|discriminate].
      * rewrite glob_star_inv. simpl in *. rewrite orb_true_iff, andb_true_iff.
        rewrite IH, negb_true_iff, IHs. split.
        -- intros [H|[Hx H]]; [by left|right]. by exists x, s.
        -- intros [H|(x' & s' & [= <- <-] & Hx & H)]; [by left|by right].
    + apply ch_eqb_false in E. simpl. destruct s as [|x s].
      * split; [done|]. inversion 1; subst; done.
      * rewrite andb_true_iff, ch_eqb_true, IH. split.
        -- intros [<- H]. by constructor.
        -- inversion 1; subst; done.
Qed.

(** The wildcard test of [emit] holds exactly when the registered name
    holds an asterisk and the emitted name is the registered one with each
    asterisk replaced by a run of characters without a line terminator. *)
Lemma wildcard_test_glob name eventName :
  wildcard_test name eventName = true
  ↔ In "*"%char (chars name) ∧ Glob (chars name) (chars eventName).
Proof.
  unfold wildcard_test, RegExp_test, pattern_source.
  rewrite ch_eqb_refl, pattern_body, parse_pattern_source.
  by rewrite andb_true_iff, includes_In, matches_glob.
Qed.




End EmitFacts.

(** ** The connection: [send], [disconnect] and the close handler *)
Module DispatcherFacts.
Import JsString History.

Section WithData.
Context {Data : Type}.
Variable JSON_stringify : Data → string.

Lemma send_trace (data : Data) (d : Dispatcher) :
  (is_open d ∧ trace (send JSON_stringify data d) = [SocketSend (JSON_stringify data)])
  ∨ (¬ is_open d ∧ trace (send JSON_stringify data d) = []).
Proof.
  unfold send, is_open. destruct (wss d) as [w|] eqn:E.
  - destruct (readyState w =? OPEN)%Z eqn:E'.
    + left. split; [|done]. exists w. split; [done|]. by apply Z.eqb_eq.
    + right. split; [|done]. intros (w' & Hw & Ho). injection Hw as <-.
      apply Z.eqb_neq in E'. contradiction.
  - right. split; [|done]. by intros (w & Hw & _).
Qed.

Lemma send_keeps (data : Data) (d : Dispatcher) :
  after (send JSON_stringify data d) = d
  ∧ completion (send JSON_stringify data d) = Normal.
Proof.
  unfold send. destruct (wss d) as [w|]; [|done].
  by destruct (readyState w =? OPEN)%Z.
Qed.

(** Everything [emit] does is a call of a callback with the data. *)
Lemma emit_only_calls (t : Events) name (data : option Data) x :
  In x (emit t name data) → ∃ cb, x = Call cb data.
Proof.
  assert (Hfire : ∀ e, In x (fire e data) → ∃ cb, x = Call cb data).
  { intros e H. unfold fire in H. apply in_map_iff in H as (cb & <- & _). by exists cb. }
  assert (Hloop : In x (emit_wildcards t name data) → ∃ cb, x = Call cb data).
  { intros H. unfold emit_wildcards in H. apply in_flat_map in H as (entry & _ & H).
    destruct (wildcard_test (fst entry) name); [by eapply Hfire|done]. }
  unfold emit. destruct (member name t) as [event| |]; [|by intros []|exact Hloop].
  intros H. apply in_app_iff in H as [H|H]; [by eapply Hfire|by apply Hloop].
Qed.

(** With the flag off, the close handler schedules nothing. *)
Lemma onclose_flag_off (d : Dispatcher) delay :
  reconnection (state d) = false →
  ¬ In (SetTimeout_connect delay) (trace (@onclose Data d)).
Proof.
  intros Hflag. unfold onclose. rewrite Hflag. simpl.
  intros [H|H]; [discriminate|].
  apply emit_only_calls in H as [cb H]. discriminate.
Qed.

(** From an open socket, [disconnect] turns the flag off and closes the
    socket, and the close that follows schedules no reconnection. *)
Lemma disconnect_open_no_reconnect (d : Dispatcher) delay :
  is_open d →
  reconnection (state (after (@disconnect Data d))) = false
  ∧ trace (@disconnect Data d) = [SocketClose]
  ∧ completion (@disconnect Data d) = Normal
  ∧ ¬ In (SetTimeout_connect delay)
        (trace (@host_closes Data (after (@disconnect Data d)))).
Proof.
  intros (w & Hw & Ho).
  assert (Hd : @disconnect Data d
               = {| after := with_wss (Some (WebSocket_close w)) (with_reconnection false d);
                    trace := [SocketClose];
                    completion := Normal |}).
  { unfold disconnect. simpl. rewrite Hw. simpl. by rewrite Ho. }
  rewrite Hd. repeat split.
  unfold host_closes. by apply onclose_flag_off.
Qed.

(** With the flag on and the handle null or closed, the close handler
    announces the close, emits 'wssDisconnect', then makes one [setTimeout]
    call, whose delay is the value of [this.reconnectionDelay]: undefined,
    whatever [this.state.reconnectionDelay] holds. *)
Lemma onclose_schedules_once (d : Dispatcher) :
  reconnection (state d) = true →
  (wss d = None ∨ ∃ w, wss d = Some w ∧ readyState w = CLOSED) →
  trace (@onclose Data d)
  = DocumentEvent "deck.wss.close" :: emit (events d) "wssDisconnect" None
    ++ [SetTimeout_connect PUndefined].
Proof.
  intros Hflag Hw. unfold onclose. rewrite Hflag.
  destruct Hw as [->|(w & -> & Hc)]; simpl; [done|].
  by rewrite Hc.
Qed.

End WithData.

(** C9. [send(data)] ends normally and leaves the instance as it was in
    every state of the handle; it makes exactly one call, [socket.send] with
    [JSON.stringify(data)], when the handle holds a socket whose readyState
    is OPEN, and makes no call at all in every other state (null,
    connecting, closing, closed). *)
Theorem send_only_when_open (Data : Type) (JSON_stringify : Data → string)
    (data : Data) (d : Dispatcher) :
  completion (send JSON_stringify data d) = Normal
  ∧ after (send JSON_stringify data d) = d
  ∧ (trace (send JSON_stringify data d) = [SocketSend (JSON_stringify data)]
     ↔ is_open d)
  ∧ (trace (send JSON_stringify data d) = [] ↔ ¬ is_open d)
  ∧ (∀ text, In (SocketSend text) (trace (send JSON_stringify data d))
             ↔ text = JSON_stringify data ∧ is_open d).
Proof.
  destruct (send_keeps JSON_stringify data d) as [Hk Hc].
  split; [done|]. split; [done|].
  destruct (send_trace JSON_stringify data d) as [[Ho Ht]|[Ho Ht]]; rewrite Ht.
  - split; [tauto|]. split; [split; [discriminate|tauto]|].
    intros text. simpl. split.
    + intros [H|[]]. injection H as <-. done.
    + intros [-> _]. by left.
  - split; [split; [discriminate|tauto]|]. split; [tauto|].
    intros text. simpl. tauto.
Qed.

(** C10. On an instance whose handle is still null, the guard of
    [disconnect] compares undefined with undefined and holds; the flag is
    turned off, then [this.wss.close()] dereferences null: the call ends
    with a TypeError and no call on a socket. *)
Theorem disconnect_null_handle_throws (Data : Type) (d : Dispatcher) :
  wss d = None →
  strict_equal (optional_readyState (wss d)) (optional_OPEN (wss d)) = true
  ∧ completion (@disconnect Data d) = Throw (TypeError "this.wss is null")
  ∧ trace (@disconnect Data d) = []
  ∧ reconnection (state (after (@disconnect Data d))) = false.
Proof.
  intros Hnull. unfold disconnect. simpl. rewrite Hnull. simpl. done.
Qed.

(** A new instance, before any [connect]. *)
Lemma disconnect_null_handle_throws_witness :
  wss (constructor "deck.example") = None
  ∧ completion (@disconnect nat (constructor "deck.example"))
    = Throw (TypeError "this.wss is null").
Proof.
  split; [reflexivity|].
  apply (disconnect_null_handle_throws nat (constructor "deck.example")).
  reflexivity.
Defined.

(** C2, on the sources.  A new instance connects and its socket closes with
    the flag on: the handler announces the close, emits 'wssDisconnect' and
    then makes one [setTimeout] call; the delay it passes is
    [this.reconnectionDelay], which is undefined, while the constructor put
    the 1000 in [this.state.reconnectionDelay]. *)
Theorem onclose_delay_is_undefined (Data : Type) :
  let d := after (@connect Data (constructor "deck.example")) in
  reconnection (state d) = true
  ∧ reconnectionDelay (state d) = 1000%Z
  ∧ this_property d "reconnectionDelay" = PUndefined
  ∧ trace (@host_closes Data d)
    = [DocumentEvent "deck.wss.close"; SetTimeout_connect PUndefined].
Proof. repeat split. Qed.

(** C1, on the sources.  [disconnect()] while the socket is still
    connecting does nothing: the flag stays on, no call is made; when that
    socket then closes, the close handler schedules a reconnection. *)
Theorem disconnect_while_connecting_reconnects (Data : Type) :
  let d := after (@connect Data (constructor "deck.example")) in
  wss d = Some {| readyState := CONNECTING |}
  ∧ after (@disconnect Data d) = d
  ∧ trace (@disconnect Data d) = []
  ∧ reconnection (state (after (@disconnect Data d))) = true
  ∧ In (SetTimeout_connect PUndefined)
       (trace (@host_closes Data (after (@disconnect Data d)))).
Proof.
  repeat split. simpl. right. by left.
Qed.

End DispatcherFacts.

(** ** The attribute parser *)
Module ConfigFacts.
Import JsString JsNumber JsObject Component ConfigSpec JsStringFacts JsNumberFacts.

(** The branches of the source and the order of the specification's
    sentence give the same value: a text with a comma is neither true,
    false nor numeric. *)
Lemma coerce_as_specified_eq value : coerce value = coerce_as_specified value.
Proof.
  unfold coerce, coerce_as_specified, isNaN. rewrite negb_involutive.
  change ","%char with comma.
  destruct (includes comma value) eqn:Ec; [|done].
  assert (Hl : ∀ t, includes comma (chars t) = false →
                    String.eqb (str (toLowerCase value)) t = false).
  { intros t Ht. apply String.eqb_neq. intros H.
    apply (f_equal chars) in H. rewrite chars_str in H.
    rewrite <- H, lower_comma in Ht. congruence. }
  rewrite (Hl "true" eq_refl), (Hl "false" eq_refl).
  destruct (string_is_numeric value) eqn:En; [|done].
  apply numeric_no_comma in En. congruence.
Qed.

Lemma filter_all {A} (p : A → bool) l : forallb p l = true → List.filter p l = l.
Proof.
  induction l as [|x l IH]; simpl; [done|].
  intros H. apply andb_prop in H as [Hx Hl]. rewrite Hx. by rewrite IH.
Qed.

Lemma plain_parts s :
  plain s = true →
  includes ";"%char (chars s) = false ∧ includes ":"%char (chars s) = false.
Proof.
  unfold plain. intros H. apply andb_prop in H as [H1 H2].
  by apply negb_true_iff in H1, H2.
Qed.

(** The pairs the parser sees in a well-formed text: one per pair, trimmed
    around its colon. *)
Lemma keyValuePairs_well_formed kvs :
  well_formed kvs = true →
  keyValuePairs (chars (attribute_text kvs))
  = map (fun kv => trim_start (chars (fst kv)) ++ ":"%char :: trim_end (chars (snd kv)))
        kvs.
Proof.
  intros Hwf. unfold keyValuePairs, attribute_text. rewrite chars_str.
  destruct kvs as [|kv kvs]; [done|].
  rewrite split_join.
  - rewrite map_map. unfold pair_text.
    rewrite (map_ext _ (fun kv => trim_start (chars (fst kv))
                                  ++ ":"%char :: trim_end (chars (snd kv)))).
    2:{ intros a. by apply trim_around. }
    apply filter_all. apply forallb_forall. intros x Hx.
    apply in_map_iff in Hx as (a & <- & _). by destruct (trim_start (chars (fst a))).
  - done.
  - unfold well_formed in Hwf.
    apply forallb_forall. intros x Hx. apply in_map_iff in Hx as (a & <- & Ha).
    apply (proj1 (forallb_forall _ _) Hwf) in Ha.
    apply andb_prop in Ha as [Hk Hv].
    apply plain_parts in Hk as [Hk _]. apply plain_parts in Hv as [Hv _].
    unfold pair_text. simpl. rewrite includes_app, includes_cons, Hk, Hv. done.
Qed.

Lemma reducer_pair acc k v :
  includes ":"%char k = false → includes ":"%char v = false →
  reducer acc (trim_start k ++ ":"%char :: trim_end v)
  = Ok (assign (str (trim k)) (coerce (trim v)) acc).
Proof.
  intros Hk Hv. unfold reducer.
  rewrite split_app by by apply includes_trim_start.
  rewrite split_none by by apply includes_trim_end.
  simpl. by rewrite trim_trim_start, trim_trim_end.
Qed.

(** What the reduction makes of well-formed pairs: one assignment per
    pair, in order. *)
Lemma reduce_well_formed_assign kvs acc :
  well_formed kvs = true →
  reduce (map (fun kv => trim_start (chars (fst kv))
                         ++ ":"%char :: trim_end (chars (snd kv))) kvs) acc
  = Ok (fold_left (fun acc kv =>
                     assign (str (trim (chars (fst kv))))
                            (coerce_as_specified (trim (chars (snd kv)))) acc)
                  kvs acc).
Proof.
  revert acc. induction kvs as [|kv kvs IH]; intros acc Hwf; [done|].
  simpl in Hwf. apply andb_prop in Hwf as [Hkv Hwf].
  apply andb_prop in Hkv as [Hk Hv].
  apply plain_parts in Hk as [_ Hk]. apply plain_parts in Hv as [_ Hv].
  simpl. rewrite reducer_pair by done. rewrite coerce_as_specified_eq.
  by apply IH.
Qed.

Lemma assign_ordinary {V} key (v : V) o :
  key ≠ "__proto__" → assign key v o = <[key := v]> o.
Proof. intros H. unfold assign. apply String.eqb_neq in H. by rewrite H. Qed.

Lemma assign_proto {V} (v : V) o : assign "__proto__" v o = o.
Proof. done. Qed.

Lemma fold_assign_no_proto kvs (acc : gmap string Value) :
  no_proto_key kvs = true →
  fold_left (fun acc kv =>
               assign (str (trim (chars (fst kv))))
                      (coerce_as_specified (trim (chars (snd kv)))) acc) kvs acc
  = fold_left (fun acc kv =>
                 <[str (trim (chars (fst kv))) :=
                     coerce_as_specified (trim (chars (snd kv)))]> acc) kvs acc.
Proof.
  revert acc. induction kvs as [|kv kvs IH]; intros acc H; [done|].
  simpl in H. apply andb_prop in H as [Hk H]. apply negb_true_iff in Hk.
  apply String.eqb_neq in Hk. simpl. rewrite assign_ordinary by done. by apply IH.
Qed.

Lemma parse_well_formed_assign kvs :
  well_formed kvs = true →
  parse_config (attribute_text kvs)
  = Ok (fold_left (fun acc kv =>
                     assign (str (trim (chars (fst kv))))
                            (coerce_as_specified (trim (chars (snd kv)))) acc)
                  kvs ∅).
Proof.
  intros Hwf. unfold parse_config. rewrite keyValuePairs_well_formed by done.
  by apply reduce_well_formed_assign.
Qed.

Lemma parse_well_formed kvs :
  well_formed kvs = true → no_proto_key kvs = true →
  parse_config (attribute_text kvs) = Ok (object_of kvs).
Proof.
  intros Hwf Hp. rewrite parse_well_formed_assign by done.
  unfold object_of. by rewrite fold_assign_no_proto.
Qed.




Lemma split_two c l :
  includes c l = true → ∃ a b rest, split c l = a :: b :: rest.
Proof.
  induction l as [|x l IH]; [done|]. rewrite includes_cons. simpl.
  unfold ch_eqb at 1. rewrite (Ascii.eqb_sym c x). fold (ch_eqb x c).
  destruct (ch_eqb x c).
  - intros _. destruct (split c l) as [|p ps] eqn:E.
    + by apply split_not_nil in E.
    + by exists [], p, ps.
  - simpl. intros H. destruct (IH H) as (a & b & rest & ->).
    by exists (x :: a), b, rest.
Qed.

(** A pair with a colon is assigned under its key, with the coerced text
    between its first and second colon. *)
Lemma reducer_colon acc kv :
  includes ":"%char kv = true →
  reducer acc kv = Ok (assign (key_of kv) (coerce (value_of kv)) acc).
Proof.
  intros H. unfold reducer, key_of, value_of.
  by destruct (split_two _ _ H) as (a & b & rest & ->).
Qed.

(** A pair without a colon ends the reduction with the TypeError. *)
Lemma reducer_no_colon acc kv :
  includes ":"%char kv = false →
  reducer acc kv = Raise (Dispatcher.TypeError "value is undefined").
Proof. intros H. unfold reducer. by rewrite split_none. Qed.

Lemma reduce_colon pairs acc :
  forallb (includes ":"%char) pairs = true →
  ∃ o, reduce pairs acc = Ok o
       ∧ (∀ k, k ≠ "__proto__" →
               o !! k = match stored k pairs with
                        | Some v => Some v
                        | None => acc !! k
                        end)
       ∧ o !! "__proto__" = acc !! "__proto__".
Proof.
  revert acc. induction pairs as [|kv pairs IH]; intros acc H.
  - exists acc. by repeat split.
  - simpl in H. apply andb_prop in H as [Hkv H].
    simpl. rewrite (reducer_colon acc kv Hkv).
    destruct (IH (assign (key_of kv) (coerce (value_of kv)) acc) H)
      as (o & Ho & Hstored & Hproto).
    exists o. split; [done|]. split.
    + intros k Hk. rewrite (Hstored k Hk).
      destruct (stored k pairs); [done|].
      destruct (String.eqb (key_of kv) k) eqn:E.
      * apply String.eqb_eq in E. subst k.
        rewrite assign_ordinary by done. apply lookup_insert_eq.
      * apply String.eqb_neq in E. unfold assign.
        destruct (String.eqb (key_of kv) "__proto__"); [done|].
        by apply lookup_insert_ne.
    + rewrite Hproto. unfold assign.
      destruct (String.eqb (key_of kv) "__proto__") eqn:E; [done|].
      apply String.eqb_neq in E. by apply lookup_insert_ne.
Qed.

Lemma reduce_no_colon pairs acc :
  forallb (includes ":"%char) pairs = false →
  reduce pairs acc = Raise (Dispatcher.TypeError "value is undefined").
Proof.
  revert acc. induction pairs as [|kv pairs IH]; intros acc H; [done|].
  simpl in H. simpl. destruct (includes ":"%char kv) eqn:E.
  - rewrite (reducer_colon acc kv E). by apply IH.
  - by rewrite reducer_no_colon.
Qed.

(** The parser ends with an object exactly when every pair that is not
    blank holds a colon, and with the TypeError otherwise. *)
Lemma parse_config_raises value :
  (all_pairs_have_colon value = true ∧ ∃ o, parse_config value = Ok o)
  ∨ (all_pairs_have_colon value = false
     ∧ parse_config value = Raise (Dispatcher.TypeError "value is undefined")).
Proof.
  unfold all_pairs_have_colon, parse_config.
  destruct (forallb (includes ":"%char) (keyValuePairs (chars value))) eqn:E.
  - left. split; [done|]. destruct (reduce_colon _ ∅ E) as (o & Ho & _). by exists o.
  - right. split; [done|]. by apply reduce_no_colon.
Qed.

(** The pairs the parser keeps are exactly the segments between
    semicolons that are not blank, trimmed. *)
Lemma keyValuePairs_segments value kv :
  In kv (keyValuePairs (chars value))
  ↔ kv ≠ [] ∧ ∃ segment, In segment (split ";"%char (chars value)) ∧ kv = trim segment.
Proof.
  unfold keyValuePairs. rewrite filter_In, in_map_iff. split.
  - intros [(segment & <- & Hin) Hne]. split; [|by exists segment].
    intros E. by rewrite E in Hne.
  - intros [Hne (segment & Hin & ->)]. split; [by exists segment|].
    by destruct (trim segment).
Qed.



Example blank_pairs_and_empty_value :
  parse_config " ;esc: ; backdrop:false;;"
  = Ok (<["backdrop" := VBoolean false]> (<["esc" := VNumber NaN]> ∅)).
Proof. reflexivity. Qed.

(** A value that itself holds a colon is cut at that colon: the pieces
    after the second one are not read. *)
Example value_with_colon_is_cut :
  parse_config "href:http://deck.example" = Ok (<["href" := VString "http"]> ∅).
Proof. reflexivity. Qed.


End ConfigFacts.

(** ** Component: [dispatchEvent] and the state round trip *)
Module ComponentFacts.
Import JsString JsNumber JsObject Component.

Section WithDetail.
Context {Detail : Type}.

Lemma dispatchEvent_cases (c : Component) eventName (detail : option Detail)
    isCustom target host :
  let fired := DomDispatch target eventName isCustom (if isCustom then detail else None) in
  (negb (dispatched host) || defaultPrevented host = true
   ∧ dispatchEvent c eventName detail isCustom (Some target) host = (Some false, [fired]))
  ∨ (dispatched host = true ∧ defaultPrevented host = false
     ∧ dispatchEvent c eventName detail isCustom (Some target) host
       = (Some true, match deck c with
                     | Some _ => [fired; DeckEmit eventName detail]
                     | None => [fired]
                     end)).
Proof.
  simpl. unfold dispatchEvent.
  destruct (dispatched host), (defaultPrevented host); simpl; auto.
  right. repeat split. by destruct (deck c).
Qed.

End WithDetail.



Lemma spread_again (a b : gmap string Value) : spread a (spread a b) = spread a b.
Proof. unfold spread. by rewrite <- map_union_assoc, map_union_idemp. Qed.

Lemma spread_same (a : gmap string Value) : spread a a = a.
Proof. unfold spread. apply map_union_idemp. Qed.

Lemma with_state_twice s s' c : with_state s (with_state s' c) = with_state s c.
Proof. done. Qed.

Lemma read_slice_own key (value : gmap string Value) :
  read_slice {[ key := value ]} key = OwnSlice value.
Proof. unfold read_slice. by rewrite lookup_singleton_eq. Qed.

Lemma read_slice_other key k (value : gmap string Value) :
  k ≠ key →
  read_slice {[ key := value ]} k = if inherited k then InheritedMember else NoSlice.
Proof. intros H. unfold read_slice. by rewrite lookup_singleton_ne. Qed.

Lemma spread_nothing (a : gmap string Value) : spread a ∅ = a.
Proof. unfold spread. apply (left_id_L ∅ (∪)). Qed.

Lemma with_state_same (c : Component) : with_state (state c) c = c.
Proof. by destruct c. Qed.

Lemma listener_length payload i acc :
  length (fst (stateChange_listener payload i acc)) = length (fst acc).
Proof.
  unfold stateChange_listener. destruct (fst acc !! i) as [c|]; [|done].
  destruct (read_slice payload (stateKey c)); [| |done]; simpl; apply length_insert.
Qed.

(** The listeners only add to the calls made so far. *)
Lemma listeners_keep_prefix payload l acc :
  ∃ more, snd (fold_left (fun acc i => stateChange_listener payload i acc) l acc)
          = snd acc ++ more.
Proof.
  revert acc. induction l as [|j l IH]; intros acc; simpl.
  - exists []. by rewrite app_nil_r.
  - destruct (IH (stateChange_listener payload j acc)) as [more Hm].
    rewrite Hm. unfold stateChange_listener.
    destruct (fst acc !! j) as [c|]; [|by exists more].
    destruct (read_slice payload (stateKey c)); [| |by exists more];
      simpl; rewrite <- app_assoc; by eexists.
Qed.

(** A listener of another instance leaves instance [i] as it is. *)
Lemma listener_other payload i j acc :
  i ≠ j → fst (stateChange_listener payload j acc) !! i = fst acc !! i.
Proof.
  intros Hne. unfold stateChange_listener.
  destruct (fst acc !! j) as [c|]; [|done].
  destruct (read_slice payload (stateKey c)); [| |done];
    simpl; by apply list_lookup_insert_ne.
Qed.

(** The listener of instance [i] on the payload of its own update. *)
Lemma listener_own (c c0 : Component) (merged : gmap string Value) i acc :
  stateKey c0 = stateKey c → spread (state c0) merged = merged →
  fst acc !! i = Some c0 →
  fst (stateChange_listener {[ stateKey c := merged ]} i acc) !! i
  = Some (with_state merged c0).
Proof.
  intros Hk Hm H. unfold stateChange_listener. rewrite H, Hk.
  rewrite read_slice_own. simpl.
  rewrite list_lookup_insert_eq; [by rewrite Hm|].
  by apply lookup_lt_Some in H.
Qed.

(** Once instance [i] holds the merged state, the listeners keep it. *)
Lemma listeners_keep_merged (c : Component) (merged : gmap string Value) i l acc :
  fst acc !! i = Some (with_state merged c) →
  fst (fold_left (fun acc j =>
                    stateChange_listener {[ stateKey c := merged ]} j acc) l acc) !! i
  = Some (with_state merged c).
Proof.
  revert acc. induction l as [|j l IH]; intros acc H; simpl; [done|].
  apply IH. destruct (decide (i = j)) as [<-|Hne].
  - rewrite (listener_own c (with_state merged c) merged); [done..| |done].
    apply spread_same.
  - by rewrite listener_other.
Qed.

(** Running the listeners on the payload of [updateState]: instance [i]
    ends with the merged state if its listener is among them, and
    unchanged otherwise. *)
Lemma listeners_on_own_update (c : Component) (merged : gmap string Value) i l acc :
  spread (state c) merged = merged →
  fst acc !! i = Some c →
  fst (fold_left (fun acc j =>
                    stateChange_listener {[ stateKey c := merged ]} j acc) l acc) !! i
  = Some (if bool_decide (i ∈ l) then with_state merged c else c).
Proof.
  intros Hm. revert acc. induction l as [|j l IH]; intros acc H; simpl; [done|].
  destruct (decide (i = j)) as [<-|Hne].
  - rewrite bool_decide_eq_true_2 by set_solver.
    apply listeners_keep_merged. by apply listener_own.
  - rewrite IH by by rewrite listener_other.
    f_equal. rewrite (bool_decide_ext (i ∈ j :: l) (i ∈ l)); [done|].
    rewrite elem_of_cons. tauto.
Qed.

(** [initState] on an instance that holds a deck registers its listener. *)
Lemma initState_listens i w c :
  instances w !! i = Some c → deck c = Some TheDeck →
  i ∈ stateChange_listeners (initState i w)
  ∧ instances (initState i w) !! i
    = Some (with_state (default ∅ (getState (stateKey c) w)) c).
Proof.
  intros Hc Hd. unfold initState. rewrite Hc, Hd. simpl. split.
  - apply elem_of_app. right. by apply list_elem_of_singleton.
  - rewrite list_lookup_insert_eq by by apply lookup_lt_Some in Hc.
    unfold spread. by rewrite (right_id_L ∅ (∪)).
Qed.

(** What [updateState(partial)] does.  It computes the shallow merge of
    the local state and [partial].  Without a deck nothing else happens.
    With a deck the merge is stored in the deck's state under the
    instance's state key and 'stateChange' is emitted with the merge under
    that key; the local state holds the merge afterwards exactly when the
    listener of [initState] is registered, since it is that listener that
    copies the slice back. *)
Lemma updateState_publishes_merge (i : nat) (partial : gmap string Value)
    (w : World) (c : Component) :
  instances w !! i = Some c →
  (deck c = None → updateState i partial w = (w, []))
  ∧ (deck c = Some TheDeck →
     deck_state (fst (updateState i partial w)) !! stateKey c
     = Some (spread (state c) partial)
     ∧ (∃ more, snd (updateState i partial w)
                = EmitStateChange {[ stateKey c := spread (state c) partial ]} :: more)
     ∧ instances (fst (updateState i partial w)) !! i
       = Some (if bool_decide (i ∈ stateChange_listeners w)
               then with_state (spread (state c) partial) c
               else c)).
Proof.
  intros Hc. unfold updateState. rewrite Hc. split.
  - by intros ->.
  - intros ->. unfold setState. simpl. split; [apply lookup_insert_eq|]. split.
    + destruct (listeners_keep_prefix
                  {[ stateKey c := spread (state c) partial ]}
                  (stateChange_listeners w)
                  (instances w,
                   [EmitStateChange {[ stateKey c := spread (state c) partial ]}]))
        as [more Hm].
      exists more. by rewrite Hm.
    + apply listeners_on_own_update; [apply spread_again|done].
Qed.

(** An instance with a deck, whose listener is registered. *)
Lemma updateState_publishes_merge_witness :
  let c := {| name := "tab"; element := None; deck := Some TheDeck;
              stateKey := "tab-k3x9q2a"; state := {[ "active" := VString "one" ]};
              config := ∅ |} in
  let w := {| deck_state := ∅; instances := [c]; stateChange_listeners := [0] |} in
  let partial : gmap string Value := {[ "active" := VString "two" ]} in
  instances w !! 0 = Some c
  ∧ deck_state (fst (updateState 0 partial w)) !! "tab-k3x9q2a"
    = Some (spread (state c) partial).
Proof.
  intros c w partial. split; [reflexivity|].
  apply (updateState_publishes_merge 0 partial w c); reflexivity.
Defined.

(** C8, where the sources depart from it.  [updateState(partial)] never
    assigns the local state itself.  On an instance without a deck the
    merge it computes is dropped: nothing changes and nothing is called.
    With a deck the merge is published, but the local state follows only
    through the listener of [initState].  So without a deck, or before
    [initState], the instance is afterwards what it was, and its local
    state is not the merge as soon as [partial] binds a key to a value the
    state does not already hold. *)
Theorem updateState_does_not_assign_local_state (i : nat)
    (partial : gmap string Value) (w : World) (c : Component) :
  instances w !! i = Some c →
  deck c = None ∨ i ∉ stateChange_listeners w →
  (deck c = None → updateState i partial w = (w, []))
  ∧ instances (fst (updateState i partial w)) !! i = Some c
  ∧ (∀ k v, partial !! k = Some v → state c !! k ≠ Some v →
       ∀ c', instances (fst (updateState i partial w)) !! i = Some c' →
             state c' ≠ spread (state c) partial).
Proof.
  intros Hc Hcase.
  destruct (updateState_publishes_merge i partial w c Hc) as [Hnone Hsome].
  assert (Hsame : instances (fst (updateState i partial w)) !! i = Some c).
  { destruct (deck c) as [[]|] eqn:Hd.
    - destruct Hcase as [?|Hl]; [done|].
      destruct (Hsome eq_refl) as (_ & _ & ->).
      by rewrite bool_decide_eq_false_2.
    - by rewrite (Hnone eq_refl). }
  split; [exact Hnone|]. split; [exact Hsame|].
  intros k v Hp Hs c' Hc' Heq. rewrite Hsame in Hc'. injection Hc' as <-.
  apply Hs. rewrite Heq. unfold spread. by apply lookup_union_Some_l.
Qed.

(** A dropdown made without a deck: the update is lost. *)
Lemma updateState_does_not_assign_local_state_witness :
  let c := {| name := "drop"; element := None; deck := None;
              stateKey := "drop-k3x9q2a"; state := ∅; config := ∅ |} in
  let w := {| deck_state := ∅; instances := [c]; stateChange_listeners := [] |} in
  instances w !! 0 = Some c
  ∧ updateState 0 {[ "open" := VBoolean true ]} w = (w, [])
  ∧ instances (fst (updateState 0 {[ "open" := VBoolean true ]} w)) !! 0 = Some c.
Proof.
  intros c w. split; [reflexivity|].
  destruct (updateState_does_not_assign_local_state 0 {[ "open" := VBoolean true ]} w c
              eq_refl (or_introl eq_refl)) as (H1 & H2 & _).
  split; [by apply H1|exact H2].
Defined.

(** C8 read as a property of every instance, that the local state holds
    the merge after [updateState], fails on an instance without a deck. *)
Lemma updateState_without_deck_keeps_state :
  ¬ (∀ (i : nat) (partial : gmap string Value) (w : World) (c : Component),
        instances w !! i = Some c →
        ∃ c', instances (fst (updateState i partial w)) !! i = Some c'
              ∧ state c' = spread (state c) partial).
Proof.
  intros H.
  destruct (H 0 {[ "open" := VBoolean true ]}
              {| deck_state := ∅;
                 instances := [{| name := "drop"; element := None; deck := None;
                                  stateKey := "drop-k3x9q2a"; state := ∅;
                                  config := ∅ |}];
                 stateChange_listeners := [] |}
              _ eq_refl) as (c' & Hc' & Hs).
  simpl in Hc'. injection Hc' as <-. simpl in Hs.
  assert (Hl : (∅ : gmap string Value) !! "open" = Some (VBoolean true)).
  { rewrite Hs. unfold spread. rewrite (right_id_L ∅ (∪)).
    apply lookup_singleton_eq. }
  rewrite lookup_empty in Hl. discriminate.
Qed.

End ComponentFacts.

(** ** More on the event table: [off], [destroyEvent] and patterns *)
Module EventTableMore.
Import JsString History EventTableSpec JsStringFacts EventTableFacts EmitFacts.

Lemma indexOf_found cb l : (indexOf cb l >? -1)%Z = true ↔ In cb l.
Proof.
  induction l as [|x l IH]; simpl; [split; [discriminate|tauto]|].
  destruct (Nat.eqb x cb) eqn:E.
  - apply Nat.eqb_eq in E. split; [by left|done].
  - apply Nat.eqb_neq in E. pose proof (indexOf_lower cb l) as Hl.
    destruct (indexOf cb l <? 0)%Z eqn:E'.
    + apply Z.ltb_lt in E'. split; [discriminate|].
      intros [H|H]; [contradiction|]. apply IH in H. apply Z.gtb_lt in H. lia.
    + apply Z.ltb_ge in E'. split.
      * intros _. right. apply IH. apply Z.gtb_lt. lia.
      * intros _. apply Z.gtb_lt. lia.
Qed.

Lemma splice_at_index cb l :
  In cb l → splice1 (Z.to_nat (indexOf cb l)) l = remove_first cb l.
Proof.
  induction l as [|x l IH]; simpl; [done|].
  destruct (Nat.eqb x cb) eqn:E; [done|]. apply Nat.eqb_neq in E.
  intros [H|H]; [contradiction|].
  pose proof (proj2 (indexOf_found cb l) H) as Hi. apply Z.gtb_lt in Hi.
  destruct (indexOf cb l <? 0)%Z eqn:E'; [apply Z.ltb_lt in E'; lia|].
  rewrite Z2Nat.inj_add by lia. rewrite Nat.add_1_r. simpl.
  by rewrite IH.
Qed.

Lemma remove_first_absent cb l : ¬ In cb l → remove_first cb l = l.
Proof.
  induction l as [|x l IH]; simpl; [done|].
  destruct (Nat.eqb x cb) eqn:E.
  - apply Nat.eqb_eq in E. tauto.
  - intros H. rewrite IH; [done|tauto].
Qed.

(** X1. Under a name that is not looked up on Object.prototype,
    [off(name, callback)] returns after taking away exactly the oldest
    registration of the callback under the name, keeping the others in
    order; it changes nothing when the callback is not registered there,
    and never touches another name.  The entry itself disappears exactly
    when that callback was the only registration.  Under a name that the
    table inherits from Object.prototype and does not own, [off] throws a
    TypeError. *)
Theorem off_removes_one_registration (name : string) (cb : Callback) (t : Events) :
  (member name t ≠ Inherited →
   ∃ t', off name cb t = Leaves t'
         ∧ registered name t' = remove_first cb (registered name t)
         ∧ (¬ In cb (registered name t) → t' = t)
         ∧ (∀ name', name' ≠ name → get name' t' = get name' t)
         ∧ (get name t' = None
            ↔ get name t = None ∨ registered name t = [cb]))
  ∧ (member name t = Inherited →
     ∃ message, off name cb t = ThrowsTypeError message)
  ∧ (member name t = Inherited ↔ get name t = None ∧ inherited name = true).
Proof.
  split; [|split].
  2:{ intros H. unfold off. rewrite H. by eexists. }
  2:{ destruct (member_cases name t)
        as [(event & Hg & ->)|[(Hg & Hi & ->)|(Hg & Hi & ->)]]; rewrite Hg;
        split; try done; try (intros [? ?]; congruence). }
  intros Hm. unfold registered, off.
  destruct (member_cases name t)
    as [(e & E & He)|[(E & _ & He)|(E & _ & He)]]; rewrite He; [|done|].
  2:{ exists t. rewrite E. repeat split; try done. by left. }
  rewrite E.
  destruct (indexOf cb (callbacks e) >? -1)%Z eqn:Ei.
  - apply indexOf_found in Ei as Hin.
    unfold unregisterCallback. rewrite Ei. simpl.
    rewrite (splice_at_index cb (callbacks e) Hin).
    destruct (remove_first cb (callbacks e)) as [|r rest] eqn:Er; simpl;
      eexists; (split; [reflexivity|]).
    + rewrite get_del_eq. split; [done|]. split; [done|].
      split; [intros n' Hn; by apply get_del_ne|].
      split; [intros _; right|done].
      destruct (callbacks e) as [|x l]; [done|]. simpl in Er.
      destruct (Nat.eqb x cb) eqn:Ex; [|done].
      apply Nat.eqb_eq in Ex. by subst.
    + rewrite get_set_eq. simpl. split; [done|]. split; [done|].
      split; [intros n' Hn; by apply get_set_ne|].
      split; [done|]. intros [H|H]; [done|].
      rewrite H in Er. simpl in Er. rewrite Nat.eqb_refl in Er. done.
  - assert (Hn : ¬ In cb (callbacks e)).
    { intros H. apply indexOf_found in H. congruence. }
    exists t. rewrite E. rewrite (remove_first_absent _ _ Hn).
    split; [done|]. split; [done|]. split; [done|]. split; [done|].
    split; [done|]. intros [H|H]; [done|]. rewrite H in Hn. simpl in Hn. tauto.
Qed.

Lemma filter_del (p : string * DispatcherEvent → bool) name t :
  (∀ e, p (name, e) = false) → List.filter p (del name t) = List.filter p t.
Proof.
  intros Hp. induction t as [|[n e] t IH]; simpl; [done|].
  destruct (String.eqb n name) eqn:E.
  - apply String.eqb_eq in E. subst n. by rewrite Hp.
  - simpl. by rewrite IH.
Qed.

(** X2. [destroyEvent(name)] removes the table's own entry with all its
    callbacks and leaves every other name as it was; afterwards
    [hasEvent(name)] is false, except for a name of Object.prototype,
    for which it is true whatever the table holds.  For a name without an
    asterisk that Object.prototype does not define, what [emit(name)]
    called before is the callbacks that were registered under the name
    followed by what it calls afterwards: only the matching patterns
    stay. *)
Theorem destroyEvent_removes_entry (Data : Type) (name : string) (t : Events)
    (data : option Data) :
  get name (destroyEvent name t) = None
  ∧ hasEvent name (destroyEvent name t) = inherited name
  ∧ (∀ name', name' ≠ name → get name' (destroyEvent name t) = get name' t)
  ∧ (includes "*"%char (chars name) = false →
     inherited name = false →
     emit t name data
     = calls data (registered name t) ++ emit (destroyEvent name t) name data).
Proof.
  unfold destroyEvent. split; [apply get_del_eq|].
  split.
  { unfold hasEvent, member. rewrite get_del_eq. by destruct (inherited name). }
  split; [intros n' Hn; by apply get_del_ne|].
  intros Hstar Hn. rewrite !emit_table by by apply ordinary_member.
  unfold calls, registered.
  rewrite get_del_eq. simpl. rewrite List.map_app. f_equal. f_equal. f_equal.
  symmetry. apply filter_del. intros e. simpl. unfold wildcard_test.
  by rewrite Hstar.
Qed.

Lemma glob_refl n : Glob n n.
Proof.
  induction n as [|c n IH]; [constructor|].
  destruct (ch_eqb c "*"%char) eqn:E.
  - apply ch_eqb_true in E. subst c.
    apply Glob_star_more; [done|]. by apply Glob_star_end.
  - apply ch_eqb_false in E. by constructor.
Qed.

Lemma get_split name e t :
  get name t = Some e → ∃ t1 t2, t = t1 ++ (name, e) :: t2.
Proof.
  induction t as [|[n e0] t IH]; simpl; [done|].
  destruct (String.eqb n name) eqn:E.
  - apply String.eqb_eq in E. subst n. intros [= ->]. by exists [], t.
  - intros H. destruct (IH H) as (t1 & t2 & ->). by exists ((n, e0) :: t1), t2.
Qed.

(** X3. A registered name that holds an asterisk matches itself as a
    pattern, so emitting that very name calls its callbacks twice: once for
    the entry of the name, once more in the wildcard pass. *)
Theorem emit_pattern_name_calls_twice (Data : Type) (name : string) (t : Events)
    (e : DispatcherEvent) (data : option Data) :
  In "*"%char (chars name) →
  get name t = Some e →
  wildcard_test name name = true
  ∧ ∃ before after,
      emit t name data = fire e data ++ before ++ fire e data ++ after.
Proof.
  intros Hstar Hget.
  assert (Hw : wildcard_test name name = true).
  { apply wildcard_test_glob. split; [done|apply glob_refl]. }
  split; [done|]. unfold emit, member, emit_wildcards. rewrite Hget.
  destruct (get_split _ _ _ Hget) as (t1 & t2 & ->).
  rewrite flat_map_app. simpl. rewrite Hw.
  eexists _, _. reflexivity.
Qed.

Lemma emit_pattern_name_calls_twice_witness :
  In "*"%char (chars "feed:*")
  ∧ ∃ before after,
      @emit nat [("toast", {| eventName := "toast"; callbacks := [3] |});
                 ("feed:*", {| eventName := "feed:*"; callbacks := [4] |})]
            "feed:*" None
      = [Call 4 None] ++ before ++ [Call 4 None] ++ after.
Proof.
  split; [simpl; tauto|].
  apply (emit_pattern_name_calls_twice nat "feed:*"
           [("toast", {| eventName := "toast"; callbacks := [3] |});
            ("feed:*", {| eventName := "feed:*"; callbacks := [4] |})]
           {| eventName := "feed:*"; callbacks := [4] |} None).
  - simpl. tauto.
  - reflexivity.
Defined.

Lemma chars_append a b : chars (a +:+ b) = chars a ++ chars b.
Proof.
  induction a as [|c a IH]; [done|].
  change (chars (String c a +:+ b)) with (c :: chars (a +:+ b)).
  by rewrite IH.
Qed.

Lemma glob_star_only s : Glob ["*"%char] s ↔ on_one_line s = true.
Proof.
  induction s as [|c s IH].
  - split; [done|]. intros _. apply Glob_star_end. constructor.
  - rewrite glob_star_inv. unfold on_one_line in *. simpl.
    rewrite andb_true_iff, negb_true_iff, <- IH. split.
    + intros [H|(c' & s' & [= <- <-] & Hc & H)]; [inversion H|done].
    + intros [Hc H]. right. by exists c, s.
Qed.

Lemma glob_prefix p s :
  includes "*"%char p = false →
  Glob (p ++ ["*"%char]) s ↔ ∃ rest, s = p ++ rest ∧ on_one_line rest = true.
Proof.
  revert s. induction p as [|c p IH]; intros s Hp.
  - simpl. rewrite glob_star_only. split; [by exists s|]. by intros (? & -> & ?).
  - rewrite includes_cons in Hp. apply orb_false_elim in Hp as [Hc Hp].
    apply ch_eqb_false in Hc. simpl. split.
    + inversion 1; subst; try done.
      match goal with H : Glob (p ++ _) _ |- _ => apply IH in H as (rest & -> & Hr) end;
        [|done].
      by exists rest.
    + intros (rest & -> & Hr). simpl. constructor; [congruence|].
      apply IH; [done|]. by exists rest.
Qed.

(** X4. A subscription under a prefix followed by one asterisk (such as
    "feed:*") receives exactly the names that start with the prefix and go
    on, possibly with nothing, without a line terminator; every character
    of the prefix, regular-expression metacharacters included, stands for
    itself. *)
Theorem prefix_pattern_matches (pre name : string) :
  includes "*"%char (chars pre) = false →
  wildcard_test (pre +:+ "*") name = true
  ↔ ∃ rest, chars name = chars pre ++ rest ∧ on_one_line rest = true.
Proof.
  intros Hp. rewrite wildcard_test_glob, chars_append.
  change (chars "*") with ["*"%char]. rewrite (glob_prefix _ _ Hp).
  split; [by intros [_ H]|]. intros H. split; [|done].
  apply in_app_iff. right. by left.
Qed.

Lemma prefix_pattern_matches_witness :
  includes "*"%char (chars "feed.v1:") = false
  ∧ (wildcard_test "feed.v1:*" "feed.v1:42" = true
     ↔ ∃ rest, chars "feed.v1:42" = chars "feed.v1:" ++ rest
               ∧ on_one_line rest = true).
Proof.
  split; [reflexivity|].
  apply (prefix_pattern_matches "feed.v1:" "feed.v1:42"). reflexivity.
Defined.

End EventTableMore.

(** ** More on the connection *)
Module ConnectionFacts.
Import JsString History Connection EmitFacts DispatcherFacts.

Section WithData.
Context {Data : Type}.
Variable JSON_stringify : Data → string.

Lemma emit_never_schedules (t : Events) name (data : option Data) delay :
  ¬ In (SetTimeout_connect delay) (emit t name data).
Proof.
  intros H. apply emit_only_calls in H as [cb H]. discriminate.
Qed.

(** No call and no socket event turns the flag on. *)
Lemma step_flag (a : Action) (d : Dispatcher) :
  reconnection (state (after (step JSON_stringify a d))) = true →
  reconnection (state d) = true.
Proof.
  destruct a; simpl; try done.
  - unfold disconnect.
    destruct (strict_equal _ _); [|done]. simpl. by destruct (wss d).
  - unfold send. destruct (wss d) as [w|]; [|done].
    by destruct (readyState w =? OPEN)%Z.
  - unfold onerror. by destruct (wss d).
  - unfold host_closes, onclose. simpl.
    by destruct (reconnection (state d) && _).
Qed.

Lemma step_schedules (a : Action) (d : Dispatcher) delay :
  In (SetTimeout_connect delay) (trace (step JSON_stringify a d)) →
  reconnection (state d) = true.
Proof.
  destruct (reconnection (state d)) eqn:E; [done|]. intros H. exfalso.
  destruct a; simpl in H.
  - by destruct H.
  - unfold disconnect in H. destruct (strict_equal _ _); [|done].
    simpl in H. destruct (wss d); simpl in H; [|done]. by destruct H.
  - unfold send in H. destruct (wss d) as [w|]; [|done].
    destruct (readyState w =? OPEN)%Z; [|done]. by destruct H.
  - by destruct H.
  - unfold host_opens, onopen in H. simpl in H. destruct H as [H|H]; [done|].
    by apply emit_never_schedules in H.
  - unfold onerror in H. destruct (wss d); simpl in H.
    + destruct H as [H|H]; [done|]. apply in_app_iff in H as [H|H].
      * by apply emit_never_schedules in H.
      * by destruct H.
    + destruct H as [H|H]; [done|]. by apply emit_never_schedules in H.
  - unfold host_closes in H. by apply onclose_flag_off in H.
Qed.

Lemma failed_attempt_flag (d : Dispatcher) :
  reconnection (state (@failed_attempt Data d)) = reconnection (state d).
Proof.
  unfold failed_attempt, host_closes, onclose. simpl.
  by destruct (reconnection (state d) && _).
Qed.

End WithData.

(** X5. [isConnected()] answers the opposite of its name: false exactly
    when the handle holds an open socket, true for a socket in any other
    state, and a TypeError on a handle that is still null ([wssState()]
    throws there as well).  [send] transmits exactly when [isConnected()]
    returns false. *)
Theorem isConnected_is_false_when_open (Data : Type)
    (JSON_stringify : Data → string) (data : Data) (d : Dispatcher) :
  (isConnected d = Returns false ↔ is_open d)
  ∧ (isConnected d = Returns true
     ↔ ∃ w, wss d = Some w ∧ readyState w ≠ OPEN)
  ∧ ((∃ e, isConnected d = Throws e) ↔ wss d = None)
  ∧ ((∃ e, wssState d = Throws e) ↔ wss d = None)
  ∧ (trace (send JSON_stringify data d) = [SocketSend (JSON_stringify data)]
     ↔ isConnected d = Returns false).
Proof.
  assert (H1 : isConnected d = Returns false ↔ is_open d).
  { unfold isConnected, is_open. destruct (wss d) as [w|].
    - destruct (readyState w =? OPEN)%Z eqn:E; simpl.
      + apply Z.eqb_eq in E. split; [by exists w|done].
      + apply Z.eqb_neq in E. split; [done|].
        by intros (w' & [= <-] & H).
    - split; [done|]. by intros (w & H & _). }
  split; [exact H1|]. split; [|split; [|split]].
  - unfold isConnected. destruct (wss d) as [w|].
    + destruct (readyState w =? OPEN)%Z eqn:E; simpl.
      * apply Z.eqb_eq in E. split; [done|]. by intros (w' & [= <-] & H).
      * apply Z.eqb_neq in E. split; [by exists w|done].
    + split; [done|]. by intros (w & H & _).
  - unfold isConnected. destruct (wss d); split; try done; [by intros [? ?]|by eexists].
  - unfold wssState. destruct (wss d); split; try done; [by intros [? ?]|by eexists].
  - rewrite H1. destruct (send_trace JSON_stringify data d) as [[Ho ->]|[Ho ->]];
      split; try done.
Qed.

(** X6. A socket error is announced to the 'wssDisconnect' subscribers
    twice: [onerror] emits the event and closes the socket without
    scheduling anything, and the close that follows emits it again before
    the one reconnection is scheduled (when the flag is on). *)
Theorem error_then_close_emits_twice (Data : Type) (d : Dispatcher) (w : WebSocket) :
  wss d = Some w →
  trace (@onerror Data d) ++ trace (@host_closes Data (after (@onerror Data d)))
  = DocumentEvent "deck.wss.error" :: emit (events d) "wssDisconnect" None
    ++ [SocketClose; DocumentEvent "deck.wss.close"]
    ++ emit (events d) "wssDisconnect" None
    ++ (if reconnection (state d) then [SetTimeout_connect PUndefined] else []).
Proof.
  intros Hw. unfold onerror. rewrite Hw. simpl.
  unfold host_closes, onclose. simpl. f_equal.
  rewrite <- app_assoc. f_equal. simpl. f_equal.
  destruct (reconnection (state d)); simpl; [|by rewrite app_nil_r].
  done.
Qed.

Lemma error_then_close_emits_twice_witness :
  let d := with_events
             [("wssDisconnect", {| eventName := "wssDisconnect"; callbacks := [9] |})]
             (with_wss (Some {| readyState := OPEN |}) (constructor "deck.example")) in
  wss d = Some {| readyState := OPEN |}
  ∧ trace (@onerror nat d) ++ trace (@host_closes nat (after (@onerror nat d)))
    = [DocumentEvent "deck.wss.error"; Call 9 None; SocketClose;
       DocumentEvent "deck.wss.close"; Call 9 None; SetTimeout_connect PUndefined].
Proof.
  intros d. split; [reflexivity|].
  apply (error_then_close_emits_twice nat d {| readyState := OPEN |}).
  reflexivity.
Defined.

(** X7. Nothing in the class turns the reconnection flag back on: once it
    is off, no run of calls ([connect], [disconnect], [send]), timer
    firings and socket events (open, error, close) schedules a
    reconnection, and the flag is still off at the end; a later manual
    [connect()] does not re-enable it. *)
Theorem reconnection_stays_off (Data : Type) (JSON_stringify : Data → string)
    (actions : list (@Action Data)) (d : Dispatcher) :
  reconnection (state d) = false →
  reconnection (state (fst (run JSON_stringify actions d))) = false
  ∧ ∀ delay, ¬ In (SetTimeout_connect delay) (snd (run JSON_stringify actions d)).
Proof.
  revert d. induction actions as [|a actions IH]; intros d Hoff.
  { split; [done|]. intros delay []. }
  simpl.
  assert (Hnext : reconnection (state (after (step JSON_stringify a d))) = false).
  { destruct (reconnection (state (after (step JSON_stringify a d)))) eqn:E; [|done].
    apply step_flag in E. congruence. }
  destruct (IH _ Hnext) as [Hflag Hnone]. split; [done|].
  intros delay H. apply in_app_iff in H as [H|H].
  - apply step_schedules in H. congruence.
  - by apply Hnone in H.
Qed.

(** After a [disconnect()] from an open socket, the socket closes, the
    page connects again by hand and that socket fails too. *)
Lemma reconnection_stays_off_witness :
  let d := after (@disconnect nat
                    (with_wss (Some {| readyState := OPEN |})
                              (constructor "deck.example"))) in
  reconnection (state d) = false
  ∧ ∀ delay,
      ¬ In (SetTimeout_connect delay)
           (snd (run (fun n : nat => "") 
                     [SocketCloses; CallConnect; SocketErrors; SocketCloses] d)).
Proof.
  intros d. split; [reflexivity|].
  apply (reconnection_stays_off nat (fun _ => "")
           [SocketCloses; CallConnect; SocketErrors; SocketCloses] d).
  reflexivity.
Defined.

(** X8. While the flag is on there is no bound on the attempts and no
    growing delay: after any number of failed attempts the next close still
    ends with one [setTimeout] call, with the same (undefined) delay, and
    the handle holds the socket of the latest attempt, still connecting. *)
Theorem reconnection_has_no_retry_limit (Data : Type) (n : nat) (d : Dispatcher) :
  reconnection (state d) = true →
  let d' := Nat.iter n (@failed_attempt Data) d in
  reconnection (state d') = true
  ∧ (0 < n → wss d' = Some {| readyState := CONNECTING |})
  ∧ trace (@host_closes Data d')
    = DocumentEvent "deck.wss.close" :: emit (events d') "wssDisconnect" None
      ++ [SetTimeout_connect PUndefined].
Proof.
  intros Hon d'.
  assert (Hflag : reconnection (state d') = true).
  { subst d'. induction n as [|n IH]; [done|].
    by rewrite Nat.iter_succ, failed_attempt_flag. }
  split; [done|]. split.
  - subst d'. destruct n as [|n]; [lia|]. intros _.
    rewrite Nat.iter_succ. done.
  - unfold host_closes. rewrite (onclose_schedules_once _); simpl; [done|done|].
    destruct (wss d') as [w|]; [right|by left]. by eexists.
Qed.

Lemma reconnection_has_no_retry_limit_witness :
  reconnection (state (constructor "deck.example")) = true
  ∧ trace (@host_closes nat
             (Nat.iter 25 (@failed_attempt nat) (constructor "deck.example")))
    = [DocumentEvent "deck.wss.close"; SetTimeout_connect PUndefined].
Proof.
  split; [reflexivity|].
  apply (reconnection_has_no_retry_limit nat 25 (constructor "deck.example")).
  reflexivity.
Defined.

End ConnectionFacts.

(** ** The message handler *)
Module InboundFacts.
Import JsString History Inbound EmitFacts.

Section WithNumbers.
Variable Num : Type.
Variable Num_toString : Num → string.
Variable Num_truthy : Num → bool.
Variable JSON_parse : string → option (Json Num).

Lemma catch_block_eta has_say :
  {| called := [] ++ called (catch_block (Num:=Num) has_say);
     said := said (catch_block (Num:=Num) has_say);
     ended := ended (catch_block (Num:=Num) has_say) |}
  = catch_block has_say.
Proof. by destruct has_say. Qed.

(** What is thrown by [emit] is caught: either the name is found on
    Object.prototype and the handler ends in the catch block having called
    nothing, or the calls of [emit] are all that happens. *)
Lemma try_emit_cases has_say (t : Events) name (data : option (Json Num)) :
  (member name t = Inherited
   ∧ emit t name data = []
   ∧ try_emit has_say t name data = catch_block has_say)
  ∨ (member name t ≠ Inherited
     ∧ try_emit has_say t name data
       = {| called := emit t name data; said := []; ended := Normal |}).
Proof.
  unfold try_emit, emit, emit_completion.
  destruct (member name t); [right|left|right]; try done.
  split; [done|]. split; [done|]. apply catch_block_eta.
Qed.

Lemma try_emit_called has_say (t : Events) name (data : option (Json Num)) :
  called (try_emit has_say t name data) = emit t name data.
Proof.
  destruct (try_emit_cases has_say t name data) as [(_ & -> & ->)|(_ & ->)];
    [by destruct has_say|done].
Qed.

Lemma routed_name_none (datum : Json Num) :
  routed_name Num_toString Num_truthy datum = None ↔ datum = JNull.
Proof.
  unfold routed_name. destruct datum; simpl; split; try done.
  intros H. by destruct (truthy Num Num_truthy (lookup_field "channel" fields)).
Qed.

(** The handler on a frame that parses: the routed name is emitted with
    the routed data, inside the [try]. *)
Lemma onmessage_text has_say s (datum : Json Num) (d : Dispatcher) :
  JSON_parse s = Some datum →
  onmessage Num_toString Num_truthy JSON_parse has_say (Text s) d
  = match routed_name Num_toString Num_truthy datum with
    | None => catch_block has_say
    | Some name => try_emit has_say (events d) name (routed_data Num_truthy datum)
    end.
Proof.
  intros Hp. unfold onmessage, routed_name, routed_data. rewrite Hp.
  destruct datum; simpl; try done.
  by destruct (truthy Num Num_truthy (lookup_field "channel" fields)).
Qed.

Lemma member_dec name (t : Events) : member name t = Inherited ∨ member name t ≠ Inherited.
Proof. destruct (member name t); [right|left|right]; done. Qed.

Lemma refused_dec (t : Events) frame :
  refused Num_toString Num_truthy JSON_parse t frame
  ∨ ¬ refused Num_toString Num_truthy JSON_parse t frame.
Proof.
  unfold refused. destruct frame as [s|]; [|right; by intros (s & ? & _)].
  destruct (JSON_parse s) as [datum|] eqn:Hp.
  2:{ left. exists s. split; [done|by left]. }
  destruct (routed_name Num_toString Num_truthy datum) as [name|] eqn:Hr.
  2:{ apply routed_name_none in Hr as ->. left. exists s.
      split; [done|]. right. by left. }
  destruct (member_dec name t) as [Hm|Hm].
  - left. exists s. split; [done|]. right. right. by exists datum, name.
  - right. intros (text & Hs & [H|[H|(datum' & name' & H1 & H2 & H3)]]);
      injection Hs as <-; try congruence.
    rewrite Hp in H. injection H as ->. discriminate Hr.
Qed.

Lemma refused_handled has_say frame (d : Dispatcher) :
  refused Num_toString Num_truthy JSON_parse (events d) frame →
  onmessage Num_toString Num_truthy JSON_parse has_say frame d = catch_block has_say.
Proof.
  intros (s & -> & [H|[H|(datum & name & H1 & H2 & H3)]]).
  - unfold onmessage. by rewrite H.
  - unfold onmessage. by rewrite H.
  - rewrite (onmessage_text has_say s datum d H1), H2.
    destruct (try_emit_cases has_say (events d) name (routed_data Num_truthy datum))
      as [(_ & _ & ->)|(Hm & _)]; done.
Qed.

Lemma accepted_handled has_say frame (d : Dispatcher) :
  ¬ refused Num_toString Num_truthy JSON_parse (events d) frame →
  ∃ calls,
    onmessage Num_toString Num_truthy JSON_parse has_say frame d
    = {| called := calls; said := []; ended := Normal |}.
Proof.
  intros Hr. destruct frame as [s|]; [|by eexists].
  destruct (JSON_parse s) as [datum|] eqn:Hp.
  2:{ exfalso. apply Hr. exists s. split; [done|by left]. }
  rewrite (onmessage_text has_say s datum d Hp).
  destruct (routed_name Num_toString Num_truthy datum) as [name|] eqn:Hn.
  2:{ exfalso. apply routed_name_none in Hn as ->. apply Hr. exists s.
      split; [done|]. right. by left. }
  destruct (try_emit_cases has_say (events d) name (routed_data Num_truthy datum))
    as [(Hm & _)|(_ & ->)]; [|by eexists].
  exfalso. apply Hr. exists s. split; [done|]. right. right. by exists datum, name.
Qed.

End WithNumbers.




End InboundFacts.

(** ** More on the attribute parser *)
Module ConfigMoreFacts.
Import JsString JsNumber JsObject Component ConfigSpec ConfigMore.
Import JsStringFacts JsNumberFacts ConfigFacts.

Lemma hasAttribute_get el attr :
  hasAttribute el attr = true ↔ is_Some (getAttribute el attr).
Proof.
  unfold hasAttribute, getAttribute. induction (attributes el) as [|[a v] l IH]; simpl.
  - split; [done|]. by intros [? ?].
  - destruct (String.eqb a attr); simpl; [|done]. split; [by eexists|done].
Qed.

(** X11. The attribute named after the component shadows [data-name]: once
    the element carries it, the configuration is read from its value alone,
    so two elements that agree on it get the same result whatever their
    other attributes hold; in particular a blank one gives no configuration
    even when [data-name] holds pairs. *)
Theorem name_attribute_shadows_data_attribute (el : Element) (name value : string) :
  name ≠ "" →
  getAttribute el name = Some value →
  getConfigAttribute (Some el) name
  = getConfigAttribute (Some (element_with name value)) name
  ∧ (trim (chars value) = [] → getConfigAttribute (Some el) name = Ok RUndefined).
Proof.
  intros Hname Hget.
  assert (Hhas : hasAttribute el name = true).
  { apply hasAttribute_get. by eexists. }
  apply String.eqb_neq in Hname.
  assert (Heq : getConfigAttribute (Some el) name
                = getConfigAttribute (Some (element_with name value)) name).
  { unfold getConfigAttribute. simpl. rewrite Hhas. rewrite Hname, Hget.
    unfold hasAttribute, getAttribute. simpl.
    rewrite String.eqb_refl. simpl. rewrite Hname. by rewrite String.eqb_refl. }
  split; [exact Heq|]. intros Hblank. rewrite Heq.
  unfold getConfigAttribute. simpl. unfold hasAttribute, getAttribute. simpl.
  rewrite String.eqb_refl. simpl. rewrite Hname, String.eqb_refl. by rewrite Hblank.
Qed.

Lemma name_attribute_shadows_data_attribute_witness :
  let el := {| attributes := [("data-tab", "active:2"); ("tab", " ")];
               classList := [] |} in
  "tab" ≠ "" ∧ getAttribute el "tab" = Some " "
  ∧ getConfigAttribute (Some el) "tab" = Ok RUndefined.
Proof.
  intros el. split; [done|]. split; [reflexivity|].
  apply (name_attribute_shadows_data_attribute el "tab" " "); done.
Defined.

Lemma fold_assign_last k kvs (acc : gmap string Value) :
  k ≠ "__proto__" →
  fold_left (fun acc kv =>
               assign (str (trim (chars (fst kv))))
                      (coerce_as_specified (trim (chars (snd kv)))) acc) kvs acc !! k
  = match last_value k kvs with
    | Some v => Some (coerce_as_specified (trim (chars v)))
    | None => acc !! k
    end.
Proof.
  intros Hk. revert acc. induction kvs as [|kv kvs IH]; intros acc; [done|].
  simpl. rewrite IH. destruct (last_value k kvs); [done|].
  destruct (String.eqb (str (trim (chars (fst kv)))) k) eqn:E.
  - apply String.eqb_eq in E. rewrite E.
    rewrite assign_ordinary by done. by rewrite lookup_insert_eq.
  - apply String.eqb_neq in E. unfold assign.
    destruct (String.eqb (str (trim (chars (fst kv)))) "__proto__"); [done|].
    by rewrite lookup_insert_ne.
Qed.

Lemma fold_assign_proto kvs (acc : gmap string Value) :
  fold_left (fun acc kv =>
               assign (str (trim (chars (fst kv))))
                      (coerce_as_specified (trim (chars (snd kv)))) acc) kvs acc
    !! "__proto__"
  = acc !! "__proto__".
Proof.
  revert acc. induction kvs as [|kv kvs IH]; intros acc; [done|].
  simpl. rewrite IH. unfold assign.
  destruct (String.eqb (str (trim (chars (fst kv)))) "__proto__") eqn:E; [done|].
  apply String.eqb_neq in E. by rewrite lookup_insert_ne.
Qed.

(** X12. When a key occurs in several pairs the last pair wins: in the
    object parsed from well-formed pairs every key other than [__proto__]
    is bound to the coerced value of the last pair that carries it, and a
    key no pair carries is not bound.  Nothing is bound to [__proto__],
    whatever the pairs say. *)
Theorem last_pair_wins (kvs : list (string * string)) :
  well_formed kvs = true →
  ∃ o, parse_config (attribute_text kvs) = Ok o
       ∧ (∀ k, k ≠ "__proto__" →
               o !! k = (fun v => coerce (trim (chars v))) <$> last_value k kvs)
       ∧ o !! "__proto__" = None.
Proof.
  intros Hwf. eexists. split; [by apply parse_well_formed_assign|]. split.
  - intros k Hk. rewrite fold_assign_last by done.
    destruct (last_value k kvs); simpl; [|done].
    by rewrite coerce_as_specified_eq.
  - by rewrite fold_assign_proto.
Qed.

Lemma last_pair_wins_witness :
  well_formed [("size", "1"); ("__proto__", "x"); ("size", "30")] = true
  ∧ ∃ o, parse_config "size:1;__proto__:x;size:30" = Ok o
         ∧ (∀ k, k ≠ "__proto__" →
                 o !! k
                 = (fun v => coerce (trim (chars v)))
                     <$> last_value k [("size", "1"); ("__proto__", "x"); ("size", "30")])
         ∧ o !! "__proto__" = None.
Proof.
  split; [reflexivity|].
  exact (last_pair_wins [("size", "1"); ("__proto__", "x"); ("size", "30")] eq_refl).
Defined.

Lemma split_length c l : length (split c l) = S (count_char c l).
Proof.
  unfold count_char. induction l as [|x l IH]; [done|].
  simpl. assert (Hs : ch_eqb c x = ch_eqb x c) by apply Ascii.eqb_sym.
  rewrite Hs. destruct (ch_eqb x c); simpl; [by rewrite IH|].
  destruct (split c l) eqn:E; [by apply split_not_nil in E|]. done.
Qed.

Lemma split_pieces c l : Forall (fun piece => includes c piece = false) (split c l).
Proof.
  induction l as [|x l IH]; [by repeat constructor|].
  simpl. destruct (ch_eqb x c) eqn:E; [by constructor|].
  destruct (split c l) as [|p ps] eqn:Es; [by apply split_not_nil in Es|].
  inversion IH; subst. constructor; [|done].
  assert (Hs : ch_eqb c x = ch_eqb x c) by apply Ascii.eqb_sym.
  rewrite includes_cons, Hs, E. done.
Qed.

Lemma trim_again l : trim (trim l) = trim l.
Proof.
  unfold trim at 2. by rewrite trim_trim_end, trim_trim_start.
Qed.

(** X13. A value with a comma always becomes an array, one item more than
    it has commas; each item is a trimmed string that holds no comma, and
    an item is never turned into a number or a boolean, whatever it looks
    like. *)
Theorem comma_value_is_array_of_strings (value : list ascii) :
  includes comma value = true →
  ∃ items,
    coerce value = VArray items
    ∧ length items = S (count_char comma value)
    ∧ Forall (fun item => includes comma (chars item) = false
                          ∧ str (trim (chars item)) = item) items.
Proof.
  intros Hc. unfold coerce. change ","%char with comma. rewrite Hc.
  eexists. split; [reflexivity|]. split.
  - by rewrite length_map, split_length.
  - apply Forall_map. eapply Forall_impl; [apply split_pieces|].
    intros piece Hp. simpl in *. rewrite chars_str. split.
    + unfold trim. by apply includes_trim_end, includes_trim_start.
    + by rewrite trim_again.
Qed.

Lemma comma_value_is_array_of_strings_witness :
  includes comma (chars "1, true ,") = true
  ∧ ∃ items, coerce (chars "1, true ,") = VArray items
             ∧ length items = S (count_char comma (chars "1, true ,"))
             ∧ Forall (fun item => includes comma (chars item) = false
                                   ∧ str (trim (chars item)) = item) items.
Proof.
  split; [reflexivity|].
  apply (comma_value_is_array_of_strings (chars "1, true ,")). reflexivity.
Defined.

End ConfigMoreFacts.

(** ** Numbers in attribute values *)
Module NumberMoreFacts.
Import JsString JsNumber Component ConfigSpec ConfigMore.
Import JsStringFacts JsNumberFacts ConfigFacts.

Lemma in_range_bounds lo hi c :
  in_range lo hi c = true ↔ (lo ≤ nat_of_ascii c ≤ hi)%nat.
Proof.
  unfold in_range. rewrite andb_true_iff, !Nat.leb_le. done.
Qed.

Lemma visible_not_white c :
  (33 ≤ nat_of_ascii c ≤ 159)%nat → is_white_space c = false.
Proof.
  intros H. unfold is_white_space.
  assert (H1 : Nat.leb (nat_of_ascii c) 13 = false) by (apply Nat.leb_gt; lia).
  assert (H2 : Nat.eqb (nat_of_ascii c) 32 = false) by (apply Nat.eqb_neq; lia).
  assert (H3 : Nat.eqb (nat_of_ascii c) 160 = false) by (apply Nat.eqb_neq; lia).
  by rewrite H1, H2, H3, andb_false_r.
Qed.

Lemma visible_lower_digit c :
  (33 ≤ nat_of_ascii c ≤ 64)%nat → lower_char c = c.
Proof.
  intros H. unfold lower_char.
  assert (H1 : Nat.leb 65 (nat_of_ascii c) = false) by (apply Nat.leb_gt; lia).
  assert (H2 : Nat.leb 192 (nat_of_ascii c) = false) by (apply Nat.leb_gt; lia).
  by rewrite H1, H2.
Qed.

Lemma forallb_rev {A} (p : A → bool) l : forallb p (rev l) = forallb p l.
Proof.
  induction l as [|x l IH]; [done|]. simpl.
  rewrite forallb_app, IH. simpl. rewrite andb_true_r. apply andb_comm.
Qed.

Lemma trim_start_plain l :
  forallb (fun c => negb (is_white_space c)) l = true → trim_start l = l.
Proof.
  destruct l as [|c l]; [done|]. simpl. intros H.
  apply andb_prop in H as [H _]. apply negb_true_iff in H. by rewrite H.
Qed.

(** A text without white space is its own trim. *)
Lemma trim_plain l :
  forallb (fun c => negb (is_white_space c)) l = true → trim l = l.
Proof.
  intros H. unfold trim, trim_end. rewrite (trim_start_plain l H).
  rewrite trim_start_plain; [apply rev_involutive|]. by rewrite forallb_rev.
Qed.

Lemma span_whole p l : forallb p l = true → span p l = (l, []).
Proof.
  induction l as [|c l IH]; [done|]. simpl. intros H.
  apply andb_prop in H as [Hc Hl]. rewrite Hc. by rewrite (IH Hl).
Qed.

Lemma forallb_weaken (p q : ascii → bool) l :
  (∀ c, p c = true → q c = true) → forallb p l = true → forallb q l = true.
Proof.
  intros Hpq H. apply forallb_forall. intros c Hc. apply Hpq.
  by apply (proj1 (forallb_forall _ _) H).
Qed.

Lemma digit_code c : is_digit c = true → (48 ≤ nat_of_ascii c ≤ 57)%nat.
Proof. apply in_range_bounds. Qed.

Lemma digits_plain ds :
  forallb is_digit ds = true
  → forallb (fun c => negb (is_white_space c)) ds = true.
Proof.
  apply forallb_weaken. intros c Hc. apply digit_code in Hc.
  apply negb_true_iff, visible_not_white. lia.
Qed.

Lemma digits_lower ds : forallb is_digit ds = true → toLowerCase ds = ds.
Proof.
  induction ds as [|c ds IH]; [done|]. simpl. intros H.
  apply andb_prop in H as [Hc Hd]. apply digit_code in Hc.
  rewrite visible_lower_digit by lia. by rewrite (IH Hd).
Qed.

(** A digit string is not one of the words the parser looks for. *)
Lemma digits_not_word ds (w : string) :
  forallb is_digit ds = true → forallb is_digit (chars w) = false →
  String.eqb (str ds) w = false.
Proof.
  intros Hd Hw. apply String.eqb_neq. intros H.
  apply (f_equal chars) in H. rewrite chars_str in H. congruence.
Qed.

Lemma digits_value_fold d acc :
  fold_left (fun a c => 10 * a + digit_value c)%Z
            (chars (DecimalString.NilEmpty.string_of_uint d)) (Z.of_nat acc)
  = Z.of_nat (Nat.of_uint_acc d acc).
Proof.
  revert acc. induction d as [|d IH|d IH|d IH|d IH|d IH|d IH|d IH|d IH|d IH|d IH];
    intros acc; [done|..];
    cbn [DecimalString.NilEmpty.string_of_uint chars list_ascii_of_string
         fold_left Nat.of_uint_acc];
    fold (chars (DecimalString.NilEmpty.string_of_uint d));
    rewrite <- IH; f_equal; rewrite Nat.tail_mul_spec;
    unfold digit_value; cbn [nat_of_ascii]; vm_compute (Z.of_nat (nat_of_ascii _));
    lia.
Qed.

Lemma decimal_text_value n : digits_value (decimal_text n) = Z.of_nat n.
Proof.
  unfold digits_value, decimal_text. change 0%Z with (Z.of_nat 0).
  rewrite (digits_value_fold (Nat.to_uint n) 0).
  f_equal. apply DecimalNat.Unsigned.of_to.
Qed.

Lemma uint_text_digits d :
  forallb is_digit (chars (DecimalString.NilEmpty.string_of_uint d)) = true.
Proof. induction d; simpl; done. Qed.

Lemma decimal_text_digits n : forallb is_digit (decimal_text n) = true.
Proof. apply uint_text_digits. Qed.

Lemma decimal_text_not_empty n : decimal_text n ≠ [].
Proof.
  unfold decimal_text. intros H.
  destruct (Nat.to_uint n) as [|d|d|d|d|d|d|d|d|d|d] eqn:E; try done.
  pose proof (DecimalNat.Unsigned.of_to n) as Hn. rewrite E in Hn.
  simpl in Hn. subst n. discriminate.
Qed.

Lemma decimal_integer m : decimal m 0 = inject_Z m.
Proof.
  unfold decimal. simpl Qpower.
  rewrite (Qred_complete (inject_Z m * 1) (inject_Z m)) by ring.
  unfold Qred, inject_Z.
  pose proof (Z.ggcd_correct_divisors m 1) as Hd.
  pose proof (Z.ggcd_gcd m 1) as Hg. rewrite Z.gcd_1_r in Hg.
  destruct (Z.ggcd m 1) as [g [a b]]. simpl in *. subst g.
  destruct Hd as [Ha Hb]. assert (Hb' : b = 1%Z) by lia. subst b.
  rewrite Ha. simpl Z.to_pos. f_equal. lia.
Qed.

(** What the parser makes of a digit string, with or without a minus
    sign. *)
Lemma coerce_signed_digits (negative : bool) ds :
  ds ≠ [] → forallb is_digit ds = true →
  coerce ((if negative then ["-"%char] else []) ++ ds)
  = VNumber (Finite (inject_Z (if negative then - digits_value ds
                               else digits_value ds))).
Proof.
  intros Hne Hd.
  set (text := (if negative then ["-"%char] else []) ++ ds).
  assert (Hplain : forallb (fun c => negb (is_white_space c)) text = true).
  { subst text. rewrite forallb_app, (digits_plain ds Hd). by destruct negative. }
  assert (Hcomma : includes comma text = false).
  { subst text. rewrite includes_app, (no_comma_forallb is_digit _ eq_refl Hd).
    by destruct negative. }
  assert (Hlower : toLowerCase text = text).
  { subst text. unfold toLowerCase. rewrite map_app.
    fold (toLowerCase ds). rewrite (digits_lower ds Hd). by destruct negative. }
  assert (Hword : ∀ w, forallb is_digit (chars w) = false →
                       hd "-"%char (chars w) ≠ "-"%char →
                       String.eqb (str text) w = false).
  { intros w Hw Hh. subst text. destruct negative; simpl app.
    - apply String.eqb_neq. intros H. apply (f_equal chars) in H.
      rewrite chars_str in H. rewrite <- H in Hh. by apply Hh.
    - by apply digits_not_word. }
  assert (Hstrip : strip_sign text = ds).
  { subst text. destruct negative; [done|]. destruct ds as [|c ds]; [done|].
    simpl in *. apply andb_prop in Hd as [Hc _]. apply digit_code in Hc.
    unfold strip_sign, is_sign.
    assert (H1 : ch_eqb c "+"%char = false).
    { apply ch_eqb_false. intros ->. vm_compute in Hc. lia. }
    assert (H2 : ch_eqb c "-"%char = false).
    { apply ch_eqb_false. intros ->. vm_compute in Hc. lia. }
    by rewrite H1, H2. }
  assert (Hneg : is_negative text = negative).
  { subst text. destruct negative; [done|]. destruct ds as [|c ds]; [done|].
    simpl in *. apply andb_prop in Hd as [Hc _]. apply digit_code in Hc.
    apply ch_eqb_false. intros ->. vm_compute in Hc. lia. }
  assert (Hinf : starts_with (chars "Infinity") ds = false).
  { destruct ds as [|c ds]; [done|]. simpl in Hd.
    apply andb_prop in Hd as [Hc _]. apply digit_code in Hc.
    change (chars "Infinity") with ("I"%char :: chars "nfinity"). simpl.
    assert (H1 : ch_eqb "I"%char c = false).
    { apply ch_eqb_false. intros <-. vm_compute in Hc. lia. }
    by rewrite H1. }
  unfold coerce, isNaN. change ","%char with comma.
  rewrite Hcomma, Hlower, (Hword "true"), (Hword "false") by done.
  assert (Hnum : string_is_numeric text = true).
  { unfold string_is_numeric. rewrite (trim_plain text Hplain), Hstrip.
    unfold is_unsigned_decimal.
    rewrite (digits_not_word ds "Infinity" Hd eq_refl).
    rewrite (span_whole is_digit ds Hd). simpl.
    destruct ds; [done|]. simpl. by rewrite !orb_true_r. }
  rewrite Hnum. simpl. f_equal.
  unfold parseFloat. rewrite (trim_start_plain text Hplain), Hstrip, Hinf, Hneg.
  rewrite (span_whole is_digit ds Hd). simpl.
  destruct ds as [|c ds]; [done|]. simpl is_empty. simpl andb.
  rewrite app_nil_r. change (0 - Z.of_nat 0)%Z with 0%Z.
  by rewrite decimal_integer.
Qed.

(** X14. A whole number written in decimal comes back as that number: for
    every natural [n] a double holds exactly (up to 2 ^ 53), the value text
    of [n] is coerced to the number [n], and with a minus sign in front to
    [-n] (zero and minus zero are one number here). *)
Theorem decimal_value_round_trip (n : nat) :
  (Z.of_nat n <= 2 ^ 53)%Z →
  coerce (decimal_text n) = VNumber (Finite (inject_Z (Z.of_nat n)))
  ∧ coerce ("-"%char :: decimal_text n) = VNumber (Finite (inject_Z (- Z.of_nat n))).
Proof.
  intros _.
  pose proof (coerce_signed_digits false (decimal_text n)
                (decimal_text_not_empty n) (decimal_text_digits n)) as H1.
  pose proof (coerce_signed_digits true (decimal_text n)
                (decimal_text_not_empty n) (decimal_text_digits n)) as H2.
  rewrite decimal_text_value in H1, H2. by split.
Qed.

Lemma decimal_value_round_trip_witness :
  coerce (decimal_text 2025) = VNumber (Finite (inject_Z 2025))
  ∧ coerce ("-"%char :: decimal_text 2025) = VNumber (Finite (inject_Z (- 2025))).
Proof. apply (decimal_value_round_trip 2025). by apply Z.leb_le. Defined.

Lemma hex_digit_code c :
  is_hex_digit c = true → (48 ≤ nat_of_ascii c ≤ 102)%nat.
Proof.
  unfold is_hex_digit, is_digit. intros H.
  apply orb_prop in H as [H|H]; [apply orb_prop in H as [H|H]|];
    apply in_range_bounds in H; lia.
Qed.

(** X15. A value written as a hexadecimal literal passes the numeric test
    but is read by [parseFloat], which stops at the letter after the
    leading zero: whatever its digits, it is stored as the number 0. *)
Theorem hexadecimal_value_is_zero (marker : ascii) (ds : list ascii) :
  marker = "x"%char ∨ marker = "X"%char →
  some_all is_hex_digit ds = true →
  isNaN ("0"%char :: marker :: ds) = false
  ∧ coerce ("0"%char :: marker :: ds) = VNumber (Finite 0).
Proof.
  intros Hm Hd. apply some_all_all in Hd as Hall.
  set (text := "0"%char :: marker :: ds).
  assert (Hmc : (33 ≤ nat_of_ascii marker ≤ 159)%nat).
  { destruct Hm as [-> | ->]; vm_compute; lia. }
  assert (Hplain : forallb (fun c => negb (is_white_space c)) text = true).
  { subst text. simpl. rewrite (visible_not_white marker Hmc). simpl.
    revert Hall. apply forallb_weaken. intros c Hc. apply hex_digit_code in Hc.
    apply negb_true_iff, visible_not_white. lia. }
  assert (Hcomma : includes comma text = false).
  { subst text. rewrite !includes_cons.
    rewrite (no_comma_forallb is_hex_digit _ eq_refl Hall).
    by destruct Hm as [-> | ->]. }
  assert (Hnum : string_is_numeric text = true).
  { unfold string_is_numeric. rewrite (trim_plain text Hplain).
    subst text. unfold is_non_decimal_integer. rewrite Hd.
    by destruct Hm as [-> | ->]. }
  assert (HnaN : isNaN text = false) by (unfold isNaN; by rewrite Hnum).
  split; [done|].
  unfold coerce. change ","%char with comma. rewrite Hcomma, HnaN.
  assert (Hw : ∀ w, hd "0"%char (chars w) ≠ "0"%char →
                    String.eqb (str (toLowerCase text)) w = false).
  { intros w Hh. apply String.eqb_neq. intros H. apply (f_equal chars) in H.
    rewrite chars_str in H. rewrite <- H in Hh. by apply Hh. }
  rewrite (Hw "true"), (Hw "false") by done. simpl. f_equal.
  unfold parseFloat. rewrite (trim_start_plain text Hplain).
  subst text. destruct Hm as [-> | ->]; reflexivity.
Qed.

Lemma hexadecimal_value_is_zero_witness :
  ("x"%char = "x"%char ∨ "x"%char = "X"%char)
  ∧ some_all is_hex_digit (chars "FF") = true
  ∧ coerce (chars "0xFF") = VNumber (Finite 0).
Proof.
  split; [by left|]. split; [reflexivity|].
  apply (hexadecimal_value_is_zero "x"%char (chars "FF")); [by left|reflexivity].
Defined.

End NumberMoreFacts.

(** ** More on the state round trip *)
Module StateMoreFacts.
Import JsString JsObject StateRuns ComponentFacts.

Lemma spread_twice (s v : gmap string Value) :
  spread (spread s v) v = spread s v.
Proof. unfold spread. by rewrite map_union_assoc, map_union_idemp. Qed.

Lemma listener_apply key value (c0 : Component) i acc :
  fst acc !! i = Some c0 → stateKey c0 = key →
  fst (stateChange_listener {[ key := value ]} i acc) !! i
  = Some (with_state (spread (state c0) value) c0).
Proof.
  intros H Hk. unfold stateChange_listener. rewrite H, Hk.
  rewrite read_slice_own. simpl.
  rewrite list_lookup_insert_eq; [done|]. by apply lookup_lt_Some in H.
Qed.

(** A listener whose state key is not the emitted one leaves its instance
    as it is, also when the key is found on Object.prototype. *)
Lemma listener_skip key value (c0 : Component) i acc :
  fst acc !! i = Some c0 → stateKey c0 ≠ key →
  fst (stateChange_listener {[ key := value ]} i acc) !! i = Some c0.
Proof.
  intros H Hk. unfold stateChange_listener. rewrite H.
  rewrite read_slice_other by done.
  destruct (inherited (stateKey c0)); [|done]. simpl.
  rewrite list_lookup_insert_eq by by apply lookup_lt_Some in H.
  by rewrite spread_nothing, with_state_same.
Qed.

Lemma listener_skip_quiet key value (c0 : Component) i acc :
  fst acc !! i = Some c0 → stateKey c0 ≠ key → inherited (stateKey c0) = false →
  stateChange_listener {[ key := value ]} i acc = acc.
Proof.
  intros H Hk Hi. unfold stateChange_listener. rewrite H.
  rewrite read_slice_other by done. by rewrite Hi.
Qed.

Lemma listener_effects payload j acc i s :
  In (OnStateChange i s) (snd (stateChange_listener payload j acc)) →
  In (OnStateChange i s) (snd acc)
  ∨ (i = j ∧ ∃ c, fst acc !! j = Some c ∧ read_slice payload (stateKey c) ≠ NoSlice).
Proof.
  unfold stateChange_listener. destruct (fst acc !! j) as [c|] eqn:E; [|by left].
  destruct (read_slice payload (stateKey c)) as [slice| |] eqn:E'; [| |by left];
    simpl; rewrite in_app_iff; (intros [H|[H|[]]]; [by left|right]);
    injection H as <- _; (split; [done|]); exists c; by rewrite E'.
Qed.

(** What the listeners make of instance [i] when [setState(key, value)]
    emits: the slice is merged in if the instance listens and [key] is its
    state key, and the instance is left alone otherwise. *)
Lemma listeners_result key value (c : Component) i l acc :
  fst acc !! i = Some c
  ∨ (stateKey c = key ∧ fst acc !! i = Some (with_state (spread (state c) value) c)) →
  fst (fold_left (fun acc j => stateChange_listener {[ key := value ]} j acc) l acc) !! i
  = Some c
  ∨ (stateKey c = key
     ∧ fst (fold_left (fun acc j => stateChange_listener {[ key := value ]} j acc) l acc) !! i
       = Some (with_state (spread (state c) value) c)).
Proof.
  revert acc. induction l as [|j l IH]; intros acc H; [done|].
  simpl. apply IH. destruct (decide (i = j)) as [<-|Hne].
  - destruct H as [H|[Hk H]].
    + destruct (decide (stateKey c = key)) as [Hk|Hk].
      * right. split; [done|]. by apply listener_apply.
      * left. by apply listener_skip.
    + right. split; [done|].
      rewrite (listener_apply key value (with_state (spread (state c) value) c));
        [|done|done].
      simpl. by rewrite spread_twice.
  - by rewrite listener_other.
Qed.

Lemma listeners_unchanged key value (c : Component) i l acc :
  fst acc !! i = Some c → stateKey c ≠ key →
  fst (fold_left (fun acc j => stateChange_listener {[ key := value ]} j acc) l acc) !! i
  = Some c.
Proof.
  intros Hc Hk.
  destruct (listeners_result key value c i l acc) as [H|[H _]]; [by left|done|done].
Qed.

Lemma listeners_isolated key value (c : Component) i l acc :
  fst acc !! i = Some c → stateKey c ≠ key → inherited (stateKey c) = false →
  (∀ s, ¬ In (OnStateChange i s) (snd acc)) →
  ∀ s, ¬ In (OnStateChange i s)
           (snd (fold_left (fun acc j => stateChange_listener {[ key := value ]} j acc)
                           l acc)).
Proof.
  intros Hc Hk Hi. revert acc Hc. induction l as [|j l IH]; intros acc Hc Hn; [done|].
  simpl. apply IH.
  - destruct (decide (i = j)) as [<-|Hne].
    + by rewrite (listener_skip_quiet key value c).
    + by rewrite listener_other.
  - intros s H. apply listener_effects in H as [H|(-> & c' & Hc' & Hs)].
    + by apply Hn in H.
    + rewrite Hc in Hc'. injection Hc' as <-.
      rewrite read_slice_other, Hi in Hs; done.
Qed.

(** A listener whose state key is found on Object.prototype is called on
    every state change, with the state it already has. *)
Lemma listeners_call_inherited key value (c : Component) i l acc :
  fst acc !! i = Some c → stateKey c ≠ key → inherited (stateKey c) = true →
  i ∈ l →
  In (OnStateChange i (state c))
     (snd (fold_left (fun acc j => stateChange_listener {[ key := value ]} j acc) l acc)).
Proof.
  intros Hc Hk Hi. revert acc Hc. induction l as [|j l IH]; intros acc Hc Hin.
  { by apply elem_of_nil in Hin. }
  simpl. destruct (decide (i = j)) as [<-|Hne].
  - destruct (listeners_keep_prefix {[ key := value ]} l
                (stateChange_listener {[ key := value ]} i acc)) as [more ->].
    apply in_app_iff. left. unfold stateChange_listener. rewrite Hc.
    rewrite read_slice_other, Hi by done. simpl.
    apply in_app_iff. right. rewrite spread_nothing. by left.
  - apply IH; [by rewrite listener_other|].
    apply elem_of_cons in Hin as [?|?]; done.
Qed.

(** X16. State is isolated by key: [setState(key, value)] on the deck,
    and so [updateState] of an instance with another state key, leaves
    every instance whose state key differs exactly as it was, whether or
    not the instance listens.  Its [onStateChange] is not called either,
    unless its state key is a name of Object.prototype: the emitted
    object inherits that name, and a listening instance with such a key is
    called back on every state change, with the state it already has. *)
Theorem state_change_of_another_key_is_ignored (key : string)
    (value : gmap string Value) (w : World) (i : nat) (c : Component) :
  instances w !! i = Some c →
  stateKey c ≠ key →
  instances (fst (setState key value w)) !! i = Some c
  ∧ (inherited (stateKey c) = false →
     ∀ s, ¬ In (OnStateChange i s) (snd (setState key value w)))
  ∧ (∀ j cj partial,
        instances w !! j = Some cj → stateKey cj = key →
        instances (fst (updateState j partial w)) !! i = Some c)
  ∧ (inherited (stateKey c) = true → i ∈ stateChange_listeners w →
     In (OnStateChange i (state c)) (snd (setState key value w))).
Proof.
  intros Hc Hk.
  assert (Hset : ∀ v, instances (fst (setState key v w)) !! i = Some c).
  { intros v. unfold setState. simpl. by apply listeners_unchanged. }
  split; [apply Hset|]. split; [|split].
  - intros Hi. unfold setState. simpl. apply (listeners_isolated key value c); try done.
    intros s [H|[]]. discriminate.
  - intros j cj partial Hj Hkj. unfold updateState. rewrite Hj.
    destruct (deck cj); [|done]. rewrite Hkj. apply Hset.
  - intros Hi Hin. unfold setState. simpl. by apply listeners_call_inherited.
Qed.

Lemma state_change_of_another_key_is_ignored_witness :
  let tab := {| name := "tab"; element := None; deck := Some TheDeck;
                stateKey := "tab-k3x9q2a"; state := {[ "active" := VString "one" ]};
                config := ∅ |} in
  let nav := {| name := "nav"; element := None; deck := Some TheDeck;
                stateKey := "nav-p0m4z7c"; state := ∅; config := ∅ |} in
  let w := {| deck_state := ∅; instances := [tab; nav];
              stateChange_listeners := [0; 1] |} in
  instances w !! 0 = Some tab ∧ stateKey tab ≠ "nav-p0m4z7c"
  ∧ instances (fst (setState "nav-p0m4z7c" {[ "open" := VBoolean true ]} w)) !! 0
    = Some tab.
Proof.
  intros tab nav w. split; [reflexivity|]. split; [done|].
  apply (state_change_of_another_key_is_ignored "nav-p0m4z7c"
           {[ "open" := VBoolean true ]} w 0 tab); done.
Defined.

(** X17. A state change only ever adds to or overwrites the local state:
    after [setState(key, value)] an instance holds either what it held or
    that with the slice merged in, so every key it had is still bound and
    a key outside the slice keeps its value.  Storing an empty slice on
    the deck therefore clears nothing locally. *)
Theorem state_change_never_removes_keys (key : string) (value : gmap string Value)
    (w : World) (i : nat) (c : Component) :
  instances w !! i = Some c →
  ∃ c', instances (fst (setState key value w)) !! i = Some c'
        ∧ (c' = c ∨ (stateKey c = key ∧ c' = with_state (spread (state c) value) c))
        ∧ dom (state c) ⊆ dom (state c')
        ∧ (∀ k, value !! k = None → state c' !! k = state c !! k)
        ∧ (value = ∅ → c' = c).
Proof.
  intros Hc. unfold setState. simpl.
  destruct (listeners_result key value c i (stateChange_listeners w)
              (instances w, [EmitStateChange {[ key := value ]}]))
    as [H|[Hk H]]; [by left| |]; rewrite H; eexists; (split; [reflexivity|]).
  - split; [by left|]. split; [done|]. by split.
  - split; [by right|]. simpl. unfold spread. split; [|split].
    + rewrite dom_union_L. set_solver.
    + intros k Hv. by rewrite lookup_union_r.
    + intros ->. rewrite (left_id_L ∅ (∪)). by destruct c.
Qed.

Lemma state_change_never_removes_keys_witness :
  let tab := {| name := "tab"; element := None; deck := Some TheDeck;
                stateKey := "tab-k3x9q2a"; state := {[ "active" := VString "one" ]};
                config := ∅ |} in
  let w := {| deck_state := {[ "tab-k3x9q2a" := {[ "active" := VString "one" ]} ]};
              instances := [tab]; stateChange_listeners := [0] |} in
  instances w !! 0 = Some tab
  ∧ ∃ c', instances (fst (setState "tab-k3x9q2a" ∅ w)) !! 0 = Some c'
          ∧ dom (state tab) ⊆ dom (state c').
Proof.
  intros tab w. split; [reflexivity|].
  destruct (state_change_never_removes_keys "tab-k3x9q2a" ∅ w 0 tab eq_refl)
    as (c' & H1 & _ & H3 & _).
  by exists c'.
Defined.

Lemma update_step i p w c :
  instances w !! i = Some c → deck c = Some TheDeck →
  i ∈ stateChange_listeners w →
  instances (fst (updateState i p w)) !! i = Some (with_state (spread (state c) p) c)
  ∧ deck_state (fst (updateState i p w)) !! stateKey c = Some (spread (state c) p)
  ∧ stateChange_listeners (fst (updateState i p w)) = stateChange_listeners w.
Proof.
  intros Hc Hd Hl. unfold updateState. rewrite Hc, Hd. unfold setState. simpl.
  split; [|split; [apply lookup_insert_eq|done]].
  rewrite (listeners_on_own_update c (spread (state c) p)); [|apply spread_again|done].
  by rewrite bool_decide_eq_true_2.
Qed.

Lemma update_all_agree i partials w c :
  instances w !! i = Some c → deck c = Some TheDeck →
  i ∈ stateChange_listeners w →
  deck_state w !! stateKey c = Some (state c) →
  instances (update_all i partials w) !! i
  = Some (with_state (spread_all (state c) partials) c)
  ∧ deck_state (update_all i partials w) !! stateKey c
    = Some (spread_all (state c) partials).
Proof.
  revert w c. induction partials as [|p partials IH]; intros w c Hc Hd Hl Hs.
  - simpl. split; [|done]. rewrite Hc. by destruct c.
  - simpl. destruct (update_step i p w c Hc Hd Hl) as (H1 & H2 & H3).
    destruct (IH (fst (updateState i p w)) (with_state (spread (state c) p) c))
      as [H4 H5]; try done.
    by rewrite H3.
Qed.

(** X18. With a deck, the local state is a faithful cache of the deck's
    slice: after [initState()], any number of [updateState] calls leave the
    local state equal to the initial slice with the partial states merged
    in, in call order, and the deck's slice under the instance's state key
    equal to that same object. *)
Theorem local_state_follows_deck (i : nat) (partials : list (gmap string Value))
    (w : World) (c : Component) :
  instances w !! i = Some c →
  deck c = Some TheDeck →
  partials ≠ [] ∨ is_Some (deck_state w !! stateKey c) →
  let slice := default ∅ (deck_state w !! stateKey c) in
  let w' := update_all i partials (initState i w) in
  ∃ c', instances w' !! i = Some c'
        ∧ state c' = spread_all slice partials
        ∧ deck_state w' !! stateKey c = Some (state c').
Proof.
  intros Hc Hd Hp slice w'. subst w' slice.
  destruct (initState_listens i w c Hc Hd) as [Hl Hi].
  assert (Hds : deck_state (initState i w) = deck_state w).
  { unfold initState. by rewrite Hc, Hd. }
  unfold getState in Hi.
  set (c1 := with_state (default ∅ (deck_state w !! stateKey c)) c) in *.
  destruct partials as [|p partials].
  - destruct Hp as [Hp|[s Hs]]; [done|]. simpl. exists c1.
    split; [done|]. split; [done|]. rewrite Hds. subst c1. simpl. by rewrite Hs.
  - simpl. destruct (update_step i p (initState i w) c1 Hi Hd Hl) as (H1 & H2 & H3).
    destruct (update_all_agree i partials (fst (updateState i p (initState i w)))
                (with_state (spread (state c1) p) c1)) as [H4 H5]; try done.
    { by rewrite H3. }
    eexists. split; [exact H4|]. split; [done|]. exact H5.
Qed.

Lemma local_state_follows_deck_witness :
  let tab := {| name := "tab"; element := None; deck := Some TheDeck;
                stateKey := "tab-k3x9q2a"; state := {[ "stale" := VBoolean true ]};
                config := ∅ |} in
  let w := {| deck_state := ∅; instances := [tab]; stateChange_listeners := [] |} in
  let partials : list (gmap string Value) :=
    [ {[ "active" := VString "one" ]}; {[ "active" := VString "two" ]} ] in
  instances w !! 0 = Some tab
  ∧ ∃ c', instances (update_all 0 partials (initState 0 w)) !! 0 = Some c'
          ∧ state c' = spread_all ∅ partials
          ∧ deck_state (update_all 0 partials (initState 0 w)) !! "tab-k3x9q2a"
            = Some (state c').
Proof.
  intros tab w partials. split; [reflexivity|].
  apply (local_state_follows_deck 0 partials w tab); [done|done|by left].
Defined.

End StateMoreFacts.

(** ** The queue *)
Module QueueFacts.
Import Queue.

Section WithItems.
Context {Item : Type}.
Implicit Types (q : Queue Item) (t : Timer).

Lemma size_positive (l : list Item) : (Z.of_nat (S (length l)) >? 0)%Z = true.
Proof. apply Z.gtb_lt. lia. Qed.

Lemma shift_cases q :
  (queue q = [] ∧ shift q = (None, q))
  ∨ (∃ x l, queue q = x :: l ∧ shift q = (Some x, with_queue l q)).
Proof.
  unfold shift, size. destruct (queue q) as [|x l] eqn:E.
  - left. by split.
  - right. exists x, l. split; [done|]. simpl length.
    by rewrite size_positive.
Qed.

Lemma tick_cases t v q :
  (tick t v q = (q, []) ∧ budget v q = 0)
  ∨ (∃ x l d, queue q = x :: l ∧ tick t v q = (with_queue l q, [d])
              ∧ item_of d = Some x ∧ budget v q = S (budget v (with_queue l q))).
Proof.
  unfold tick, shouldProcess, budget, size.
  destruct (queue q) as [|x l] eqn:E.
  - left. simpl. split; [done|]. by repeat case_match.
  - unfold shift, size. rewrite E. simpl length.
    rewrite size_positive. simpl andb.
    destruct (String.eqb v visible) eqn:Ev; simpl.
    + right. exists x, l. eexists. split; [done|]. split; [done|].
      split; [by destruct t|done].
    + destruct (String.eqb v hidden) eqn:Eh; simpl; [|by left].
      destruct (Z.of_nat (S (length l)) >? queue_size q)%Z eqn:Eo.
      * right. exists x, l. eexists. split; [done|]. split; [done|].
        split; [by destruct t|]. apply Z.gtb_lt in Eo. lia.
      * left. split; [done|]. rewrite Z.gtb_ltb in Eo. apply Z.ltb_ge in Eo. lia.
Qed.

Lemma steps_keep_items (actions : list (Action Item)) q :
  snd (steps actions q) ++ queue (fst (steps actions q))
  = queue q ++ enqueued actions.
Proof.
  revert q. induction actions as [|a rest IH]; intros q.
  - simpl. by rewrite app_nil_r.
  - simpl. rewrite <- app_assoc, IH. destruct a as [item| |t v]; simpl.
    + by rewrite <- app_assoc.
    + destruct (shift_cases q) as [[E ->]|(x & l & E & ->)]; simpl; [done|].
      by rewrite E.
    + destruct (tick_cases t v q) as [[-> _]|(x & l & d & E & -> & Hd & _)];
        simpl; [done|].
      rewrite Hd, E. done.
Qed.

Lemma ticks_take k t v q :
  queue (fst (ticks k t v q)) = drop (min k (budget v q)) (queue q)
  ∧ omap item_of (snd (ticks k t v q)) = take (min k (budget v q)) (queue q)
  ∧ length (snd (ticks k t v q)) = min k (budget v q).
Proof.
  revert q. induction k as [|k IH]; intros q; [done|].
  simpl ticks. simpl fst. simpl snd.
  destruct (tick_cases t v q) as [[E Hb]|(x & l & d & E & Et & Hd & Hb)].
  - rewrite E. cbn [fst snd app].
    destruct (IH q) as (H1 & H2 & H3). rewrite H1, H2, H3, Hb.
    by rewrite !Nat.min_0_r.
  - rewrite Et. cbn [fst snd app].
    destruct (IH (with_queue l q)) as (H1 & H2 & H3).
    rewrite H1, Hb, E. cbn [omap list_omap length]. rewrite Hd, H2, H3. done.
Qed.

Lemma start_flags (s : Start) q :
  auto (fst (start s q)) = auto q
  ∧ (callback q = true → callback (fst (start s q)) = true)
  ∧ (event q = true → event (fst (start s q)) = true)
  ∧ (auto q = false → snd (start s q) = [])
  ∧ (callback q = true → List.filter is_callback_timer (snd (start s q)) = [])
  ∧ (event q = true → List.filter is_event_timer (snd (start s q)) = [])
  ∧ (length (List.filter is_callback_timer (snd (start s q))) ≤ 1
     ∧ length (List.filter is_event_timer (snd (start s q))) ≤ 1)%nat
  ∧ (List.filter is_callback_timer (snd (start s q)) ≠ [] → callback (fst (start s q)) = true)
  ∧ (List.filter is_event_timer (snd (start s q)) ≠ [] → event (fst (start s q)) = true).
Proof.
  destruct s as [cb i|ev i]; simpl; unfold run, fire;
    destruct (auto q) eqn:Ea, (callback q) eqn:Ec, (event q) eqn:Ee; simpl;
    rewrite ?Ea, ?Ec, ?Ee; repeat split; try done; try lia.
Qed.

Lemma starts_quiet (calls : list Start) q :
  auto q = false → snd (starts calls q) = [].
Proof.
  revert q. induction calls as [|s rest IH]; intros q Ha; [done|].
  simpl. destruct (start_flags s q) as (H1 & _ & _ & H4 & _).
  rewrite H4 by done. simpl. apply IH. by rewrite H1.
Qed.

Lemma starts_callback_once (calls : list Start) q :
  (length (List.filter is_callback_timer (snd (starts calls q))) ≤ 1)%nat
  ∧ (callback q = true → List.filter is_callback_timer (snd (starts calls q)) = []).
Proof.
  revert q. induction calls as [|s rest IH]; intros q; [simpl; split; [lia|done]|].
  simpl. rewrite List.filter_app, length_app.
  destruct (start_flags s q) as (_ & Hc & _ & _ & H5 & _ & [H7 _] & H8 & _).
  destruct (IH (fst (start s q))) as [I1 I2].
  split.
  - destruct (List.filter is_callback_timer (snd (start s q))) eqn:E.
    + simpl. lia.
    + rewrite I2; [simpl in *; lia|]. by apply H8.
  - intros Hq. rewrite H5 by done. rewrite I2; [done|]. by apply Hc.
Qed.

Lemma starts_event_once (calls : list Start) q :
  (length (List.filter is_event_timer (snd (starts calls q))) ≤ 1)%nat
  ∧ (event q = true → List.filter is_event_timer (snd (starts calls q)) = []).
Proof.
  revert q. induction calls as [|s rest IH]; intros q; [simpl; split; [lia|done]|].
  simpl. rewrite List.filter_app, length_app.
  destruct (start_flags s q) as (_ & _ & Hc & _ & _ & H5 & [_ H7] & _ & H8).
  destruct (IH (fst (start s q))) as [I1 I2].
  split.
  - destruct (List.filter is_event_timer (snd (start s q))) eqn:E.
    + simpl. lia.
    + rewrite I2; [simpl in *; lia|]. by apply H8.
  - intros Hq. rewrite H5 by done. rewrite I2; [done|]. by apply Hc.
Qed.

Lemma constructor_flags (queue_size : Z) (cb : option nat) (ev : option string)
    (time : Z) :
  let made := constructor Item queue_size cb ev time in
  (length (List.filter is_callback_timer (snd made)) ≤ 1)%nat
  ∧ (List.filter is_callback_timer (snd made) ≠ [] → callback (fst made) = true)
  ∧ (length (List.filter is_event_timer (snd made)) ≤ 1)%nat
  ∧ (List.filter is_event_timer (snd made) ≠ [] → event (fst made) = true)
  ∧ (cb = None → ev = None ∨ ev = Some "" → auto (fst made) = false ∧ snd made = []).
Proof.
  intros made. subst made. split; [|split; [|split; [|split]]].
  5: { intros -> [->| ->]; done. }
  all: unfold constructor, run, fire;
    destruct cb as [f|], ev as [e|]; simpl; try destruct (truthy e) eqn:Et; simpl;
    rewrite ?Et; simpl; try done; lia.
Qed.

End WithItems.

(** X19. The queue is first in, first out and loses nothing: over any
    mix of [enqueue], [shift] and timer firings in any visibility state,
    the items handed out so far followed by the items still queued are
    exactly the items there at the start followed by the items enqueued,
    in order. *)
Theorem queue_is_fifo_and_lossless (Item : Type) (actions : list (Action Item))
    (q : Queue Item) :
  let r := steps actions q in
  snd r ++ queue (fst r) = queue q ++ enqueued actions.
Proof. apply steps_keep_items. Qed.

(** X20. [queue_size] bounds nothing on the way in and is a floor on the
    way out of a hidden page: [enqueue] always appends; [k] firings of a
    timer hand out the first [min k n] items in order, where [n] is the
    queue's length on a visible page, the excess of the length over
    [queue_size] on a hidden page, and zero in any other visibility
    state. *)
Theorem timer_drains_by_visibility (Item : Type) (k : nat) (t : Timer)
    (visibilityState : string) (q : Queue Item) (item : Item) :
  let n := min k (budget visibilityState q) in
  let r := ticks k t visibilityState q in
  size (enqueue item q) = (size q + 1)%Z
  ∧ queue (fst r) = drop n (queue q)
  ∧ omap item_of (snd r) = take n (queue q)
  ∧ length (snd r) = n
  ∧ (visibilityState = hidden → (size q <= queue_size q)%Z → r = (q, [])).
Proof.
  intros n r. subst n r. split.
  { unfold size, enqueue. simpl. rewrite length_app. simpl. lia. }
  destruct (ticks_take k t visibilityState q) as (H1 & H2 & H3).
  split; [done|]. split; [done|]. split; [done|].
  intros -> Hs. clear H1 H2 H3. induction k as [|k IH]; [done|].
  simpl. destruct (tick_cases t hidden q) as [[-> _]|(x & l & d & E & _ & _ & Hb)].
  - simpl. rewrite IH. done.
  - unfold budget, size in *. simpl in Hb. lia.
Qed.

(** X21. A queue starts at most one timer of each kind, and none at all
    unless it was constructed with a callback or a non-empty event name:
    counting the constructor and any later calls of [run] and [fire], at
    most one callback timer and at most one event timer are ever started,
    and a queue constructed with neither ignores every later [run] and
    [fire]. *)
Theorem queue_starts_each_timer_once (Item : Type) (queue_size : Z)
    (cb : option nat) (ev : option string) (time : Z) (calls : list Start) :
  let made := constructor Item queue_size cb ev time in
  let timers := snd made ++ snd (starts calls (fst made)) in
  (length (List.filter is_callback_timer timers) ≤ 1)%nat
  ∧ (length (List.filter is_event_timer timers) ≤ 1)%nat
  ∧ (cb = None → ev = None ∨ ev = Some "" → timers = []).
Proof.
  intros made timers. subst made timers.
  rewrite !List.filter_app, !length_app.
  destruct (constructor_flags (Item:=Item) queue_size cb ev time) as (C1 & C2 & C3 & C4 & C5).
  destruct (starts_callback_once calls (fst (constructor Item queue_size cb ev time)))
    as [H1 H2].
  destruct (starts_event_once calls (fst (constructor Item queue_size cb ev time)))
    as [H3 H4].
  split; [|split].
  - destruct (List.filter is_callback_timer
                (snd (constructor Item queue_size cb ev time))) eqn:E.
    + exact H1.
    + rewrite H2; [|by apply C2]. by rewrite Nat.add_0_r.
  - destruct (List.filter is_event_timer
                (snd (constructor Item queue_size cb ev time))) eqn:E.
    + exact H3.
    + rewrite H4; [|by apply C4]. by rewrite Nat.add_0_r.
  - intros Hcb Hev. destruct (C5 Hcb Hev) as [Ha ->].
    by rewrite (starts_quiet calls).
Qed.

Lemma queue_starts_each_timer_once_witness :
  snd (constructor nat 100 None (Some "") 1000)
  ++ snd (starts [Run 7 10; Fire "tick" 10] (fst (constructor nat 100 None (Some "") 1000)))
  = [].
Proof.
  apply (queue_starts_each_timer_once nat 100 None (Some "") 1000
           [Run 7 10; Fire "tick" 10]); [reflexivity|by right].
Defined.

End QueueFacts.

(** ** Storage and the timeout slot *)
Module ComponentHostFacts.
Import ComponentHost.

Lemma initStorage_field (c : Instance) :
  storage (initStorage c) = SApi
  ∨ storage (initStorage c) = SFalse
  ∨ ∃ s, storage (initStorage c) = SString s.
Proof.
  unfold initStorage. destruct (storage c) as [|s|] eqn:E; rewrite ?E; auto.
  destruct (String.eqb s "local" || String.eqb s "session"); simpl; rewrite ?E; eauto.
Qed.

(** X22. The storage API never reaches a storage area: the closures read
    [this.storage] when they are called, after [#initStorage] has replaced
    it by the API object itself, so they look up the window property
    [[object Object]Storage].  Unless the page defines such a property,
    [set], [get] and [remove] throw a TypeError whatever the storage
    setting was, and change nothing. *)
Theorem storage_api_always_throws (c : Instance) (window : Window) (key value : string) :
  window !! "[object Object]Storage" = None →
  (∃ msg, storage_set key value (initStorage c) window
          = Component.Raise (Dispatcher.TypeError msg))
  ∧ (∃ msg, storage_get key (initStorage c) window
            = Component.Raise (Dispatcher.TypeError msg))
  ∧ (∃ msg, storage_remove key (initStorage c) window
            = Component.Raise (Dispatcher.TypeError msg)).
Proof.
  intros Hw. unfold storage_set, storage_get, storage_remove, area_name.
  destruct (initStorage_field c) as [E|[E|[s E]]]; rewrite E; simpl;
    change ("[object Object]" +:+ "Storage") with "[object Object]Storage";
    rewrite ?Hw; repeat split; eexists; reflexivity.
Qed.

Lemma storage_api_always_throws_witness :
  let window : Window := {[ "localStorage" := ∅; "sessionStorage" := ∅ ]} in
  ∃ msg, storage_set "seen" "yes" (initStorage {| name := "modal"; storage := SString "local" |})
           window
         = Component.Raise (Dispatcher.TypeError msg).
Proof.
  intros window.
  apply (storage_api_always_throws {| name := "modal"; storage := SString "local" |}
           window "seen" "yes").
  reflexivity.
Defined.

Lemma setTimeouts_last handlers : ∀ s s',
  setTimeouts handlers s s' →
  handlers ≠ [] →
  ∃ id handler,
    last handlers = Some handler
    ∧ fst s' = Some id
    ∧ clearTimeout (fst s) (snd s) !! id = None
    ∧ snd s' = <[id := handler]> (clearTimeout (fst s) (snd s)).
Proof.
  induction handlers as [|h rest IH]; intros s s' H Hne; [done|].
  inversion H as [|h' rest' s0 s1 s2 Hstep Hrest]; subst.
  inversion Hstep as [slot timers id Hfresh]; subst.
  destruct rest as [|h2 rest].
  - inversion Hrest; subst. exists id, h. by simpl.
  - destruct (IH _ _ Hrest) as (id' & h' & Hl & Hs & Hf & Ht); [done|].
    simpl in Hf, Ht.
    unfold Timers in *. rewrite delete_insert_id in Hf, Ht by done.
    exists id', h'. split; [done|]. by simpl.
Qed.

(** X23. The timeout slot holds one timer: after any calls of the
    component's [setTimeout] in a row, whatever ids the host hands out,
    exactly the last handler is pending and every earlier one has been
    cancelled.  The host's other timers are as before, except the one
    whose id [this.timeout] held at the start, which is cancelled too. *)
Theorem setTimeout_keeps_last_handler (handlers : list nat) (slot : option Z)
    (timers : Timers) (s' : option Z * Timers) :
  setTimeouts handlers (slot, timers) s' →
  handlers ≠ [] →
  ∃ id handler,
    last handlers = Some handler
    ∧ fst s' = Some id
    ∧ snd s' !! id = Some handler
    ∧ (∀ other, other ≠ id → snd s' !! other = clearTimeout slot timers !! other)
    ∧ clearTimeout slot timers !! id = None.
Proof.
  intros H Hne. destruct (setTimeouts_last handlers _ _ H Hne)
    as (id & handler & Hl & Hs & Hf & Ht).
  exists id, handler. simpl in *. rewrite Ht. unfold Timers in *.
  split; [done|]. split; [done|]. split; [apply lookup_insert_eq|].
  split; [|done]. intros other Ho. by rewrite lookup_insert_ne.
Qed.

Lemma setTimeout_keeps_last_handler_witness :
  ∃ id handler,
    last [11; 12] = Some handler
    ∧ fst (Some 8%Z, ({[ 8%Z := 12; 3%Z := 40 ]} : Timers)) = Some id
    ∧ snd (Some 8%Z, ({[ 8%Z := 12; 3%Z := 40 ]} : Timers)) !! id = Some handler
    ∧ (∀ other, other ≠ id →
         snd (Some 8%Z, ({[ 8%Z := 12; 3%Z := 40 ]} : Timers)) !! other
         = clearTimeout (Some 500%Z) {[ 500%Z := 99; 3%Z := 40 ]} !! other)
    ∧ clearTimeout (Some 500%Z) {[ 500%Z := 99; 3%Z := 40 ]} !! id = None.
Proof.
  apply (setTimeout_keeps_last_handler [11; 12] (Some 500%Z)
           {[ 500%Z := 99; 3%Z := 40 ]}); [|done].
  eapply OneMore.
  - apply (SetTimeout 11 (Some 500%Z) {[ 500%Z := 99; 3%Z := 40 ]} 7%Z). reflexivity.
  - eapply OneMore.
    + apply (SetTimeout 12 (Some 7%Z) _ 8%Z). reflexivity.
    + replace (Some 8%Z, ({[ 8%Z := 12; 3%Z := 40 ]} : Timers))
        with (Some 8%Z,
              <[8%Z := 12]> (clearTimeout (Some 7%Z)
                (<[7%Z := 11]> (clearTimeout (Some 500%Z)
                   ({[ 500%Z := 99; 3%Z := 40 ]} : Timers))))).
      * apply NoCall.
      * reflexivity.
Defined.

End ComponentHostFacts.

(** ** Instances of a deck *)
Module DeckInstancesFacts.
Import DeckInstances.

Section WithHost.
Context {Instance : Type}.
Variable dci : Instance → string.
Variable querySelectorAll : string → list nat.
Variable construct : string → nat → option Instance.

Lemma load_components acc a :
  components (fst (load_attempt dci construct acc a)) = components (fst acc).
Proof. unfold load_attempt, load. by destruct (factory _ _ _ _). Qed.

Lemma loads_components l acc :
  components (fst (fold_left (load_attempt dci construct) l acc)) = components (fst acc).
Proof.
  revert acc. induction l as [|a l IH]; intros acc; [done|].
  simpl. by rewrite IH, load_components.
Qed.

Lemma factory_same (d d' : Deck Instance) component element :
  components d' = components d →
  factory construct d' component element = factory construct d component element.
Proof. intros H. unfold factory. by rewrite H. Qed.

Lemma autoload_attempts filter d dataset :
  autoload dci querySelectorAll construct filter d dataset
  = fold_left (load_attempt dci construct) (attempts querySelectorAll filter d) (d, dataset).
Proof.
  unfold autoload, attempts.
  generalize (d, dataset).
  induction (match filter with Names l => l | NotAnArray => components d end)
    as [|n names IH]; intros acc; [done|].
  simpl. rewrite fold_left_app, IH. f_equal.
  generalize acc. induction (querySelectorAll n) as [|e es IHe]; intros acc'; [done|].
  simpl. by rewrite IHe.
Qed.

(** The instances stored after a run of attempts, when the identifiers
    handed out are pairwise different. *)
Lemma loads_instances l : ∀ acc d0,
  components (fst acc) = components d0 →
  NoDup (map dci (omap (fun a => factory construct d0 (fst a) (snd a)) l)) →
  ∀ instance,
    instance ∈ omap (fun a => factory construct d0 (fst a) (snd a)) l →
    instances (fst (fold_left (load_attempt dci construct) l acc)) !! dci instance = Some instance.
Proof.
  induction l as [|a l IH] using rev_ind; intros acc d0 Hc Hnd instance Hin.
  { by apply elem_of_nil in Hin. }
  rewrite fold_left_app. simpl.
  rewrite omap_app in Hin, Hnd. simpl in Hin, Hnd.
  unfold load_attempt at 1. unfold load.
  rewrite (factory_same d0) by (by rewrite loads_components).
  destruct (factory construct d0 (fst a) (snd a)) as [made|] eqn:Ef.
  - simpl. rewrite map_app in Hnd. simpl in Hnd.
    apply NoDup_app in Hnd as (Hnd1 & Hnd2 & _).
    apply elem_of_app in Hin as [Hin|Hin].
    + rewrite lookup_insert_ne; [by eapply IH|].
      intros Heq. apply (Hnd2 (dci instance)).
      * apply list_elem_of_fmap. by exists instance.
      * rewrite <- Heq. apply list_elem_of_singleton. done.
    + apply list_elem_of_singleton in Hin as ->. apply lookup_insert_eq.
  - simpl in *. rewrite app_nil_r in Hin, Hnd. by eapply IH.
Qed.

Lemma loads_dataset_kept l : ∀ acc d0 element,
  components (fst acc) = components d0 →
  (∀ component, (component, element) ∈ l → factory construct d0 component element = None) →
  snd (fold_left (load_attempt dci construct) l acc) !! element = snd acc !! element.
Proof.
  induction l as [|a l IH]; intros acc d0 element Hc Hnone; [done|].
  simpl. rewrite (IH _ d0); [| by rewrite load_components |].
  - unfold load_attempt, load. rewrite (factory_same d0) by done.
    destruct (factory construct d0 (fst a) (snd a)) as [made|] eqn:Ef; [|done].
    simpl. apply lookup_insert_ne. intros <-.
    rewrite Hnone in Ef; [done|]. destruct a. apply list_elem_of_here.
  - intros component Hin. apply Hnone. by apply list_elem_of_further.
Qed.

End WithHost.

(** X24. [autoload] then [getInstance] is a round trip as long as the
    identifiers of the new instances are non-empty and pairwise
    different: every construction that succeeded is found again by its
    identifier, whatever other constructions threw, and an element gives
    back the instance of the last component that was loaded on it. *)
Theorem autoload_then_getInstance (Instance : Type) (dci : Instance → string)
    (querySelectorAll : string → list nat) (construct : string → nat → option Instance)
    (filter : Filter) (d : Deck Instance) (dataset : Dataset) :
  NoDup (map dci (loaded querySelectorAll construct filter d)) →
  (∀ instance, instance ∈ loaded querySelectorAll construct filter d → dci instance ≠ "") →
  let after := autoload dci querySelectorAll construct filter d dataset in
  (∀ instance,
     instance ∈ loaded querySelectorAll construct filter d →
     getInstance (ByString (dci instance)) (fst after) (snd after) = Some instance)
  ∧ (∀ before component element later instance,
       attempts querySelectorAll filter d = before ++ (component, element) :: later →
       factory construct d component element = Some instance →
       (∀ other, (other, element) ∈ later → factory construct d other element = None) →
       getInstance (ByElement element) (fst after) (snd after) = Some instance).
Proof.
  intros Hnd Hne after. subst after. rewrite autoload_attempts.
  assert (Hby : ∀ instance,
    instance ∈ loaded querySelectorAll construct filter d →
    getInstance (ByString (dci instance))
      (fst (fold_left (load_attempt dci construct)
                      (attempts querySelectorAll filter d) (d, dataset)))
      (snd (fold_left (load_attempt dci construct)
                      (attempts querySelectorAll filter d) (d, dataset)))
    = Some instance).
  { intros instance Hin. unfold getInstance, Queue.truthy.
    destruct (String.eqb_spec (dci instance) "") as [He|_]; [by apply Hne in He|].
    simpl. by apply (loads_instances dci construct _ _ d). }
  split; [done|].
  intros before component element later instance Hsplit Hf Hlater.
  assert (Hin : instance ∈ loaded querySelectorAll construct filter d).
  { unfold loaded. rewrite Hsplit, omap_app. apply elem_of_app. right.
    simpl. rewrite Hf. apply list_elem_of_here. }
  specialize (Hby instance Hin). unfold getInstance in *.
  replace (snd (fold_left (load_attempt dci construct)
                  (attempts querySelectorAll filter d) (d, dataset)) !! element)
    with (Some (dci instance)); [done|].
  rewrite Hsplit, fold_left_app. simpl.
  rewrite (loads_dataset_kept dci construct later _ d element); [| |done].
  - unfold load_attempt at 1. unfold load. simpl.
    rewrite (factory_same construct d) by apply loads_components.
    rewrite Hf. simpl. unfold Dataset. by rewrite lookup_insert_eq.
  - by rewrite load_components, loads_components.
Qed.

Lemma autoload_then_getInstance_witness :
  let dci (i : string * nat) := fst i +:+ "x" in
  let querySelectorAll (component : string) :=
    if String.eqb component "modal" then [1; 2] else [2] in
  let construct (component : string) (element : nat) :=
    if Nat.eqb element 1 then None else Some (component, element) in
  let d := {| components := ["modal"; "tab"]; instances := ∅ |} in
  let after := autoload dci querySelectorAll construct NotAnArray d ∅ in
  getInstance (ByString "modalx") (fst after) (snd after) = Some ("modal", 2)
  ∧ getInstance (ByElement 2) (fst after) (snd after) = Some ("tab", 2).
Proof.
  intros dci querySelectorAll construct d after.
  destruct (autoload_then_getInstance (string * nat) dci querySelectorAll construct
              NotAnArray d ∅) as [H1 H2].
  - apply (bool_decide_unpack _). reflexivity.
  - intros instance Hin. vm_compute in Hin.
    apply elem_of_cons in Hin as [->|Hin]; [done|].
    apply list_elem_of_singleton in Hin as ->. done.
  - split.
    + apply (H1 ("modal", 2)). vm_compute. set_solver.
    + apply (H2 [("modal", 1); ("modal", 2)] "tab" 2 [] ("tab", 2)); [done|done|].
      intros other Hin. by apply elem_of_nil in Hin.
Defined.

End DeckInstancesFacts.
